(** * Persistence matrix core of Gudhi: field elements, Z2 columns, chain matrix

    A shallow embedding of the parts of the persistence-matrix engine that the
    specification talks about, followed by the properties proved about them.

    - [Z2Field]      : [Z2_field_element]              (Z2_field.h)
    - [MultiField]   : [Shared_multi_field_element]    (Fields/Multi_field_shared.h)
    - [Z2SetColumn]  : [Z2_set_column]                 (column_types/z2_set_column.h)
    - [Z2IntrusiveSetColumn] : [Z2_intrusive_set_column] and its chain column
                                                       (column_types/z2_intrusive_set_column.h,
                                                        column_types/chain_columns/z2_chain_intrusive_set_column.h)
    - [ListColumn]   : [Intrusive_list_column]         (Persistence_matrix/columns/intrusive_list_column.h)
    - [ChainMatrix]  : [Chain_matrix_with_row_access_with_removals]
                                                       (chain_matrix/chain_matrix_0011.h)
    - [RepCycles]    : [Chain_representative_cycles]   (Persistence_matrix/chain_rep_cycles.h)
    - [Overlay]      : [Id_to_index_overlay]           (Persistence_matrix/overlay_ididx_to_matidx.h)

    Conventions.  C++ exceptions are values of [exn]; a call that can throw
    returns a [result].  Loops whose termination depends on the state are written
    with a fuel argument and return [OutOfFuel] when it is exhausted, and an
    operation the language leaves undefined (dereferencing [end()], [front()] of
    an empty vector, adding a column to itself) returns [Undefined]; the
    theorems then show that neither happens on the states of interest.

    An [int] that holds an index or the sentinel -1 (a pivot, a paired column)
    is an [option nat]; used as a key, -1 is a key no container has. *)

From Stdlib Require Import ZArith Znumtheory Lia List Bool.
From Stdlib Require Import Zmod.
From stdpp Require Import gmap list sorting.
Close Scope Z_scope.

(** ** Exceptions and results *)

Inductive exn : Type :=
  | invalid_argument   (* std::invalid_argument *)
  | out_of_range       (* std::out_of_range, thrown by [at] *)
  | logic_error        (* std::logic_error *)
  | length_error.      (* std::length_error, thrown by the [std::vector] constructor *)

Inductive result (A : Type) : Type :=
  | Ok (a : A)
  | Throw (e : exn)
  | OutOfFuel
  | Undefined.
Arguments Ok {A} a.
Arguments Throw {A} e.
Arguments OutOfFuel {A}.
Arguments Undefined {A}.

Definition rbind {A B : Type} (r : result A) (k : A -> result B) : result B :=
  match r with
  | Ok a => k a
  | Throw e => Throw e
  | OutOfFuel => OutOfFuel
  | Undefined => Undefined
  end.

#[export] Instance result_ret : MRet result := fun A a => Ok a.
#[export] Instance result_bind : MBind result := fun A B k r => rbind r k.

(** [m.at(k)]: lookup that throws [out_of_range] on a missing key. *)
Definition at_ {V : Type} (m : gmap nat V) (k : nat) : result V :=
  match m !! k with
  | Some v => Ok v
  | None => Throw out_of_range
  end.

(** [m.emplace(k, v)]: inserts only when the key is not yet present. *)
Definition emplace {V : Type} (k : nat) (v : V) (m : gmap nat V) : gmap nat V :=
  match m !! k with
  | Some _ => m
  | None => <[k := v]> m
  end.

(** [m.at(k)] where the key is an [int] converted to an index. *)
Definition at_opt {V : Type} (m : gmap nat V) (k : option nat) : result V :=
  match k with
  | Some k => at_ m k
  | None => Throw out_of_range
  end.

(** Iteration order of a [std::set] of indices: increasing. *)
Definition ordered (s : gset nat) : list nat := merge_sort Nat.le (elements s).

(** [res = set.insert(v); if (!res.second) set.erase(res.first);], which is also
    [if (set.find(v) != set.end()) set.erase(v); else set.insert(v);] *)
Definition toggle (s : gset nat) (v : nat) : gset nat :=
  if decide (v ∈ s) then s ∖ {[v]} else s ∪ {[v]}.

(** ** Z2 field element (Z2_field.h) *)

Module Z2Field.

Record Z2_field_element : Type := mk { element_ : bool }.

(** [Z2_field_element()] *)
Definition default : Z2_field_element := mk false.

(** [Z2_field_element(int element)]: [element_(element % 2)], a non-zero
    remainder (1 or -1) converts to [true]. *)
Definition of_int (element : Z) : Z2_field_element :=
  mk (negb (Z.rem element 2 =? 0)%Z).

(** [operator+=]: [element_ = (element_ != f.element_)] *)
Definition add (f1 f2 : Z2_field_element) : Z2_field_element :=
  mk (xorb (element_ f1) (element_ f2)).

(** [operator-=] *)
Definition sub (f1 f2 : Z2_field_element) : Z2_field_element :=
  mk (xorb (element_ f1) (element_ f2)).

(** [operator*=]: [element_ = (element_ && f.element_)] *)
Definition mul (f1 f2 : Z2_field_element) : Z2_field_element :=
  mk (element_ f1 && element_ f2).

(** [get_inverse]: [return element_ ? Z2_field_element() : Z2_field_element(1)] *)
Definition get_inverse (f : Z2_field_element) : Z2_field_element :=
  if element_ f then default else of_int 1.

Definition get_additive_identity : Z2_field_element := default.
Definition get_multiplicative_identity : Z2_field_element := of_int 1.
Definition get_characteristic : Z := 2.

(** [get_value]: the bool converted to [unsigned int] *)
Definition get_value (f : Z2_field_element) : Z :=
  if element_ f then 1%Z else 0%Z.

End Z2Field.

(** ** Shared multi-field element (Fields/Multi_field_shared.h) *)

Module MultiField.
Local Open Scope Z_scope.

(** *** The GMP primitives used by the class

    GMP is an external library; its functions are modelled by their documented
    results on mathematical integers. *)

(** [mpz_mod(r, n, d)]: the sign of the divisor is ignored, the result is
    non-negative.  (A zero divisor aborts the program; every use below is after
    [initialize], when the modulus is at least 2.) *)
Definition mpz_mod (n d : Z) : Z := n mod Z.abs d.

(** [mpz_gcd]: always non-negative, [gcd(0,0) = 0]. *)
Definition mpz_gcd (a b : Z) : Z := Z.gcd a b.

(** [mpz_powm_ui(rop, base, exp, mod)] *)
Definition mpz_powm_ui (base exp m : Z) : Z := mpz_mod (base ^ exp) m.

(** [mpz_invert(rop, a, m)]: when the inverse exists, [rop] is the inverse in
    [0 <= rop < |m|]; otherwise the return value is zero and [rop] is
    undefined ([None]).  A zero modulus is undefined as well. *)
Definition mpz_invert (a m : Z) : option Z :=
  if m =? 0 then None
  else if Z.gcd a m =? 1 then Some (Z.invmod a (Z.abs m))
  else None.

(** Exact primality by trial division, the meaning of a non-zero answer of
    [mpz_probab_prime_p] and of the results of [mpz_nextprime]. *)
Definition is_prime_Z (n : Z) : bool :=
  (1 <? n) && forallb (fun d => negb (n mod (Z.of_nat d) =? 0)) (seq 2 (Z.to_nat n - 2)).

(** [mpz_probab_prime_p(n, 25)]: 2 (prime) or 0 (composite). *)
Definition mpz_probab_prime_p (n : Z) : Z := if is_prime_Z n then 2 else 0.

Fixpoint nextprime_search (fuel : nat) (c : Z) : option Z :=
  match fuel with
  | O => None
  | S f => if is_prime_Z c then Some c else nextprime_search f (c + 1)
  end.

(** [mpz_nextprime(rop, n)]: the least prime greater than [n]; the search is
    bounded by Bertrand's postulate. *)
Definition mpz_nextprime (n : Z) : option Z :=
  nextprime_search (Z.to_nat (Z.max n 2) + 1) (Z.max (n + 1) 2).

(** Conversions between the machine integer types involved. *)
Definition to_uint (z : Z) : Z := z mod 2 ^ 32.
Definition to_int (u : Z) : Z :=
  let w := u mod 2 ^ 32 in if w <? 2 ^ 31 then w else w - 2 ^ 32.

(** *** Static state of the class *)

Record state : Type := mkState {
  primes_ : list Z;                    (* std::vector<unsigned int> *)
  productOfAllCharacteristics_ : Z;    (* mpz_class *)
  partials_ : list Z                   (* std::vector<mpz_class> *)
}.

(** [static inline const mpz_class multiplicativeID_ = 1] *)
Definition multiplicativeID_ : Z := 1.

(** State before any call of [initialize]. *)
Definition uninitialized : state := mkState [] 0 [].

(** [_is_prime(const int p)] *)
Fixpoint _is_prime_loop (fuel : nat) (i p : Z) : option bool :=
  match fuel with
  | O => None
  | S f =>
      if i * i <=? p then
        if (Z.rem p i =? 0) || (Z.rem p (i + 2) =? 0) then Some false
        else _is_prime_loop f (i + 6) p
      else Some true
  end.

Definition _is_prime (p : Z) : option bool :=
  if p <=? 1 then Some false
  else if p <=? 3 then Some true
  else if (Z.rem p 2 =? 0) || (Z.rem p 3 =? 0) then Some false
  else _is_prime_loop (Z.to_nat p) 5 p.

(** The loop [while (curr_prime <= maximum)] of [initialize]. *)
Fixpoint collect_primes (fuel : nat) (curr_prime tmp_prime maximum : Z)
    (primes : list Z) : option (list Z) :=
  match fuel with
  | O => None
  | S f =>
      if curr_prime <=? maximum then
        match mpz_nextprime tmp_prime with
        | Some np => collect_primes f (to_uint np) np maximum (primes ++ [curr_prime])
        | None => None
        end
      else Some primes
  end.

Definition of_option {A : Type} (o : option A) : result A :=
  match o with Some a => Ok a | None => OutOfFuel end.

(** [initialize(unsigned int minimum, unsigned int maximum)] *)
Definition initialize (minimum maximum : Z) : result state :=
  if maximum <? 2 then Throw invalid_argument
  else if maximum <? minimum then Throw invalid_argument
  else
    min_is_prime ← (if minimum =? maximum
                     then of_option (_is_prime (to_int minimum))
                     else Ok true);
    if (minimum =? maximum) && negb min_is_prime then Throw invalid_argument
    else
      let is_prime := mpz_probab_prime_p minimum in
      '(curr_prime, tmp_prime) ←
          (if is_prime =? 0
           then np ← of_option (mpz_nextprime minimum); Ok (to_uint np, np)
           else Ok (minimum, minimum));
      primes ← of_option
          (collect_primes (Z.to_nat maximum + 1) curr_prime tmp_prime maximum []);
      if (length primes =? 0)%nat then Throw invalid_argument
      else
        let product := fold_left (fun acc p => acc * p) primes 1 in
        let partials := map (fun p => mpz_powm_ui (product / p) (p - 1) product) primes in
        Ok (mkState primes product partials).

(** *** Elements *)

Record Shared_multi_field_element : Type := mkElt { element_ : Z }.

Section Operations.
Variable st : state.

Let M : Z := productOfAllCharacteristics_ st.

(** [Shared_multi_field_element()] *)
Definition zero : Shared_multi_field_element := mkElt 0.

(** [Shared_multi_field_element(mpz_class element)] *)
Definition make (element : Z) : Shared_multi_field_element :=
  mkElt (mpz_mod element M).

(** [operator+=(f, mpz_class v)] *)
Definition add_z (f : Shared_multi_field_element) (v : Z) : Shared_multi_field_element :=
  mkElt (mpz_mod (element_ f + v) M).

(** [operator+=(f1, f2)] *)
Definition add (f1 f2 : Shared_multi_field_element) : Shared_multi_field_element :=
  mkElt (mpz_mod (element_ f1 + element_ f2) M).

(** [operator*=(f, mpz_class v)] *)
Definition mul_z (f : Shared_multi_field_element) (v : Z) : Shared_multi_field_element :=
  mkElt (mpz_mod (element_ f * v) M).

(** [operator*=(f1, f2)] and [operator*] *)
Definition mul (f1 f2 : Shared_multi_field_element) : Shared_multi_field_element :=
  mkElt (mpz_mod (element_ f1 * element_ f2) M).

Definition get_additive_identity : Shared_multi_field_element := zero.
Definition get_multiplicative_identity : Shared_multi_field_element := make multiplicativeID_.
Definition get_characteristic : Z := M.
Definition get_value (f : Shared_multi_field_element) : Z := element_ f.

(** [get_partial_multiplicative_identity(productOfCharacteristics)]: the loop
    runs over the indices of [primes_] and reads [partials_] at the same
    index. *)
Definition get_partial_multiplicative_identity (productOfCharacteristics : Z)
    : Shared_multi_field_element :=
  if productOfCharacteristics =? 0 then make multiplicativeID_
  else
    fold_left
      (fun mult '(p, partial) =>
         if Z.rem productOfCharacteristics p =? 0 then add_z mult partial else mult)
      (combine (primes_ st) (partials_ st)) zero.

(** [get_partial_inverse(productOfCharacteristics)]; [None] stands for the
    case where [mpz_invert] leaves its output undefined. *)
Definition get_partial_inverse (x : Shared_multi_field_element)
    (productOfCharacteristics : Z) : option (Shared_multi_field_element * Z) :=
  let QR := mpz_gcd (element_ x) productOfCharacteristics in
  if QR =? productOfCharacteristics then Some (zero, multiplicativeID_)
  else
    let QT := Z.quot productOfCharacteristics QR in
    match mpz_invert (element_ x) QT with
    | Some inv_qt =>
        let res := get_partial_multiplicative_identity QT in
        Some (mul_z res inv_qt, QT)
    | None => None
    end.

(** [get_inverse()] *)
Definition get_inverse (x : Shared_multi_field_element)
    : option Shared_multi_field_element :=
  fst <$> get_partial_inverse x M.

End Operations.

(** The state computed by [initialize(2, 7)]. *)
Definition st_2_7 : state := mkState [2; 3; 5; 7] 210 [105; 70; 126; 120].

End MultiField.

(** ** Z2 set column (column_types/z2_set_column.h) *)

Module Z2SetColumn.

(** [std::set<Cell>] of [Z2_base_cell]s, compared by row index. *)
Record Z2_set_column : Type := mk {
  dim_ : Z;
  column_ : gset nat
}.

(** [Z2_set_column::add(Z2_set_column& column)]: the loop body is [toggle]. *)
Definition add (self column : Z2_set_column) : Z2_set_column :=
  mk (dim_ self) (foldl toggle (column_ self) (ordered (column_ column))).

(** [Z2_set_column(boundary_type& boundary)] *)
Definition of_boundary (boundary : list nat) : Z2_set_column :=
  mk (if (length boundary =? 0)%nat then 0%Z else (Z.of_nat (length boundary) - 1)%Z)
     (list_to_set boundary).

(** [int get_pivot()]: the row index of the last cell, an [unsigned int], is
    converted to the [int] the function returns. *)
Definition get_pivot (self : Z2_set_column) : Z :=
  match last (ordered (column_ self)) with
  | Some r => MultiField.to_int (Z.of_nat r)
  | None => (-1)%Z
  end.

Definition is_non_zero (self : Z2_set_column) (rowIndex : nat) : bool :=
  bool_decide (rowIndex ∈ column_ self).

End Z2SetColumn.

(** ** Z2 intrusive set column (column_types/z2_intrusive_set_column.h) and its
    chain column (column_types/chain_columns/z2_chain_intrusive_set_column.h)

    The row access option is left out. *)

Module Z2IntrusiveSetColumn.

(** A [boost::intrusive::set] of cells, compared by row index. *)
Record Z2_intrusive_set_column : Type := mk {
  dim_ : Z;
  column_ : gset nat
}.

(** [clear()] *)
Definition clear (self : Z2_intrusive_set_column) : Z2_intrusive_set_column :=
  mk (dim_ self) ∅.

(** [operator*=(unsigned int v)]: [if (v % 2 == 0) clear();] *)
Definition mul_assign (self : Z2_intrusive_set_column) (v : Z) : Z2_intrusive_set_column :=
  if (v mod 2 =? 0)%Z then clear self else self.

(** [Z2_intrusive_set_chain_column]: the base column with the pivot of the
    chain.  The class declares no [operator*=]: [column *= v] is the one of
    the base class. *)
Record Z2_intrusive_set_chain_column : Type := mkChain {
  base : Z2_intrusive_set_column;
  pivot_ : Z
}.

Definition chain_mul_assign (self : Z2_intrusive_set_chain_column) (v : Z)
    : result Z2_intrusive_set_chain_column :=
  Ok (mkChain (mul_assign (base self) v) (pivot_ self)).

End Z2IntrusiveSetColumn.

(** ** Intrusive list column (Persistence_matrix/columns/intrusive_list_column.h)

    The class is a template over the matrix options.  The options that select
    code paths here are [is_z2], [isNonBasic] and [is_of_boundary_type]; a
    column is a chain column when [isNonBasic && !is_of_boundary_type].  The
    row-access option only mirrors every cell in a per-row container and is
    left out.  The Z2 and the general instantiations have different cell types
    and are given as two sets of definitions. *)

Module ListColumn.

Section Options.

Variable isNonBasic : bool.
Variable is_of_boundary_type : bool.

Definition is_chain : bool := isNonBasic && negb is_of_boundary_type.

(** *** Z2 instantiation: a cell is its row index

    Modelled from the spec: the element type of the Z2 instantiation
    ([Master_matrix::element_type], declared outside the sources at hand) is a
    single bit, here [bool]. *)

Record Z2_column : Type := mkZ2 {
  z2_cells : list nat;        (* column_, ordered by row index *)
  z2_dim : Z;                 (* Column_dimension_option *)
  z2_pivot : option nat       (* Chain_column_option: pivot, None for -1 *)
}.

(** [_add(const Cell_range& column)], Z2 branch.  Returns the new content of
    the target and [pivotIsZeroed]. *)
Fixpoint _add_z2 (pivot : option nat) (target : list nat) : list nat -> list nat * bool :=
  fix on_source (source : list nat) : list nat * bool :=
    match target, source with
    | [], _ => (source, false)
    | _, [] => (target, false)
    | t :: target', s :: source' =>
        if (t <? s)%nat then
          let '(r, z) := _add_z2 pivot target' source in (t :: r, z)
        else if (s <? t)%nat then
          let '(r, z) := on_source source' in (s :: r, z)
        else
          let '(r, z) := _add_z2 pivot target' source' in
          (r, (is_chain && bool_decide (pivot = Some t)) || z)
    end.

(** [operator+=(Intrusive_list_column& column)], Z2: returns the target and the
    source, whose pivot and dimension are exchanged when the pivot row of the
    target was zeroed. *)
Definition add_assign_z2 (self column : Z2_column) : Z2_column * Z2_column :=
  let '(r, pivotIsZeroed) := _add_z2 (z2_pivot self) (z2_cells self) (z2_cells column) in
  if is_chain && pivotIsZeroed
  then (mkZ2 r (z2_dim column) (z2_pivot column),
        mkZ2 (z2_cells column) (z2_dim self) (z2_pivot self))
  else (mkZ2 r (z2_dim self) (z2_pivot self), column).

(** [clear()] *)
Definition clear_z2 (self : Z2_column) : Z2_column :=
  mkZ2 [] (z2_dim self) (z2_pivot self).

(** [operator*=(const Field_element_type& val)], Z2 *)
Definition mul_assign_z2 (self : Z2_column) (val : bool) : result Z2_column :=
  if negb val then
    if is_chain then Throw invalid_argument
    else Ok (clear_z2 self)
  else Ok self.

(** [multiply_and_add(const Field_element_type& val, Intrusive_list_column& column)],
    Z2: this = val * this + column *)
Definition multiply_target_and_add_z2 (self : Z2_column) (val : bool) (column : Z2_column)
    : result (Z2_column * Z2_column) :=
  if is_chain then
    if val then Ok (add_assign_z2 self column)
    else Throw invalid_argument
  else
    if val then Ok (add_assign_z2 self column)
    else Ok (add_assign_z2 (clear_z2 self) column).

(** [multiply_and_add(Intrusive_list_column& column, const Field_element_type& val)],
    Z2: this = this + column * val *)
Definition multiply_source_and_add_z2 (self : Z2_column) (column : Z2_column) (val : bool)
    : Z2_column * Z2_column :=
  if val then add_assign_z2 self column else (self, column).

(** *** General instantiation: a cell is a row index with a field element *)

(** The [Field_operators] template parameter. *)
Record Field_operators : Type := mkOps {
  get_value : Z -> Z;
  op_add : Z -> Z -> Z;
  op_multiply : Z -> Z -> Z;
  op_multiply_and_add : Z -> Z -> Z -> Z;
  additive_identity : Z;
  multiplicative_identity : Z
}.

Variable operators_ : Field_operators.

Record Column : Type := mkCol {
  cells : list (nat * Z);
  dim : Z;
  pivot : option nat
}.

Definition clear (self : Column) : Column := mkCol [] (dim self) (pivot self).

(** [operator*=(const Field_element_type& val)], general field *)
Definition mul_assign (self : Column) (val : Z) : result Column :=
  let realVal := get_value operators_ val in
  if (realVal =? additive_identity operators_)%Z then
    if is_chain then Throw invalid_argument
    else Ok (clear self)
  else if (realVal =? multiplicative_identity operators_)%Z then Ok self
  else Ok (mkCol (map (fun c => (c.1, op_multiply operators_ c.2 realVal)) (cells self))
                 (dim self) (pivot self)).

(** The three loops of [_multiply_and_add(val, column)] after the test of
    [val]: the merge, the scaling of the rest of the target and the insertion
    of the rest of the source. *)
Fixpoint merge_scaled_target (pvt : option nat) (val : Z) (target : list (nat * Z))
    : list (nat * Z) -> list (nat * Z) * bool :=
  fix on_source (source : list (nat * Z)) : list (nat * Z) * bool :=
    match target, source with
    | [], _ => (source, false)
    | _, [] => (map (fun c => (c.1, op_multiply operators_ c.2 val)) target, false)
    | (tr, te) :: target', (sr, se) :: source' =>
        if (tr <? sr)%nat then
          let '(r, z) := merge_scaled_target pvt val target' source in
          ((tr, op_multiply operators_ te val) :: r, z)
        else if (sr <? tr)%nat then
          let '(r, z) := on_source source' in ((sr, se) :: r, z)
        else
          let e := op_multiply_and_add operators_ te val se in
          let '(r, z) := merge_scaled_target pvt val target' source' in
          if (e =? additive_identity operators_)%Z
          then (r, (is_chain && bool_decide (pvt = Some tr)) || z)
          else ((tr, e) :: r, z)
    end.

(** [_multiply_and_add(const Field_element_type& val, const Cell_range& column)] *)
Definition _multiply_and_add (self : Column) (val : Z) (source : list (nat * Z))
    : result (list (nat * Z) * bool) :=
  if (val =? 0)%Z then
    if is_chain then Throw invalid_argument
    else Ok (merge_scaled_target (pivot self) val [] source)
  else Ok (merge_scaled_target (pivot self) val (cells self) source).

(** [multiply_and_add(const Field_element_type& val, Intrusive_list_column& column)],
    general field: this = val * this + column *)
Definition multiply_target_and_add (self : Column) (val : Z) (column : Column)
    : result (Column * Column) :=
  '(r, pivotIsZeroed) ← _multiply_and_add self val (cells column);
  if is_chain && pivotIsZeroed
  then Ok (mkCol r (dim column) (pivot column),
           mkCol (cells column) (dim self) (pivot self))
  else Ok (mkCol r (dim self) (pivot self), column).

End Options.

(** The operators of Z/pZ, used to instantiate the general column. *)
Definition Zp_operators (p : Z) : Field_operators :=
  mkOps (fun v => v mod p)%Z
        (fun a b => (a + b) mod p)%Z
        (fun a b => (a * b) mod p)%Z
        (fun a v b => (a * v + b) mod p)%Z
        0%Z 1%Z.

End ListColumn.

(** ** Chain matrix (chain_matrix/chain_matrix_0011.h)

    [Chain_matrix_with_row_access_with_removals], instantiated for Z2
    coefficients ([Field_type::get_characteristic() == 2]) with column pairing
    enabled and vine updates disabled, so that [pair_opt::isActive_] holds,
    [swap_opt::isActive_] does not and the barcode is the one of the pairing
    option.  With removable columns every container is a dictionary and the
    barcode a list whose iterators stay valid; an iterator is modelled as the
    position of the bar in the list.  [rows_] mirrors the cells of the columns
    and is left out. *)

Module ChainMatrix.

(** Which chain column class implements [operator+=]:
    - [Wrapper]: [Intrusive_list_chain_column] / [Z2_intrusive_set_chain_column]
      (column_types/chain_columns), which exchange the dictionary entries
      and the pivots themselves;
    - [Option_based]: [Intrusive_list_column] with its [Chain_column_option]
      (intrusive_list_column.h), which exchanges pivots and dimensions. *)
Inductive column_impl : Type := Wrapper | Option_based.

(** A chain column: cells in iteration order, dimension, pivot and the paired
    column of [Column_pairing]. *)
Record Column_type : Type := mkColumn {
  column_ : list nat;
  dim_ : Z;
  pivot_ : option nat;
  pairedColumn_ : option nat
}.

(** Modelled from the spec: [Column_pairing] (column_types/column_pairing.h) is
    not among the sources; a column is paired when it stores the index of
    another column, and [assign_paired_chain] stores it. *)
Definition is_paired (c : Column_type) : bool :=
  match pairedColumn_ c with Some _ => true | None => false end.
Definition get_paired_chain_index (c : Column_type) : option nat := pairedColumn_ c.
Definition assign_paired_chain (c : Column_type) (other : nat) : Column_type :=
  mkColumn (column_ c) (dim_ c) (pivot_ c) (Some other).

Definition get_pivot (c : Column_type) : option nat := pivot_ c.

(** [is_non_zero(rowIndex)], with an [int] argument *)
Definition is_non_zero (cells : list nat) (rowIndex : option nat) : bool :=
  match rowIndex with
  | Some r => bool_decide (r ∈ cells)
  | None => false
  end.

(** [Bar(dim, birth, death)], [death == -1] for an essential class. *)
Record Bar : Type := mkBar {
  dim : Z;
  birth : Z;
  death : Z
}.

Record Chain_matrix : Type := mkMatrix {
  matrix_ : gmap nat Column_type;
  pivotToColumnIndex_ : gmap nat nat;
  nextInsertIndex_ : nat;
  dimensions_ : list nat;
  maxDim_ : Z;
  barcode_ : list Bar;             (* pair_opt::barcode_ *)
  indexToBar_ : gmap nat nat       (* pair_opt::indexToBar_ *)
}.

(** [Chain_matrix_with_row_access_with_removals()] *)
Definition empty_matrix : Chain_matrix :=
  mkMatrix ∅ ∅ 0 [] (-1) [] ∅.

(** *** The monad of the member functions: a state with exceptions.
    The state that comes with [Throw] is the one the object is left in. *)

Definition M (A : Type) : Type := Chain_matrix -> result A * Chain_matrix.

Definition ret {A : Type} (a : A) : M A := fun s => (Ok a, s).
Definition bind {A B : Type} (m : M A) (k : A -> M B) : M B :=
  fun s => match m s with
           | (Ok a, s') => k a s'
           | (Throw e, s') => (Throw e, s')
           | (OutOfFuel, s') => (OutOfFuel, s')
           | (Undefined, s') => (Undefined, s')
           end.
#[export] Instance M_ret : MRet M := @ret.
#[export] Instance M_bind : MBind M := fun A B k m => bind m k.

Definition lift {A : Type} (r : result A) : M A := fun s => (r, s).
Definition reads {A : Type} (f : Chain_matrix -> result A) : M A := fun s => (f s, s).
Definition gets {A : Type} (f : Chain_matrix -> A) : M A := fun s => (Ok (f s), s).
Definition modify (f : Chain_matrix -> Chain_matrix) : M unit := fun s => (Ok tt, f s).

Definition set_matrix (f : gmap nat Column_type -> gmap nat Column_type) (s : Chain_matrix) :=
  mkMatrix (f (matrix_ s)) (pivotToColumnIndex_ s) (nextInsertIndex_ s) (dimensions_ s)
           (maxDim_ s) (barcode_ s) (indexToBar_ s).
Definition set_pivotToColumnIndex (f : gmap nat nat -> gmap nat nat) (s : Chain_matrix) :=
  mkMatrix (matrix_ s) (f (pivotToColumnIndex_ s)) (nextInsertIndex_ s) (dimensions_ s)
           (maxDim_ s) (barcode_ s) (indexToBar_ s).
Definition set_nextInsertIndex (n : nat) (s : Chain_matrix) :=
  mkMatrix (matrix_ s) (pivotToColumnIndex_ s) n (dimensions_ s)
           (maxDim_ s) (barcode_ s) (indexToBar_ s).
Definition set_dimensions (d : list nat) (m : Z) (s : Chain_matrix) :=
  mkMatrix (matrix_ s) (pivotToColumnIndex_ s) (nextInsertIndex_ s) d m
           (barcode_ s) (indexToBar_ s).
Definition set_barcode (b : list Bar) (i : gmap nat nat) (s : Chain_matrix) :=
  mkMatrix (matrix_ s) (pivotToColumnIndex_ s) (nextInsertIndex_ s) (dimensions_ s)
           (maxDim_ s) b i.

Section Impl.

Variable impl : column_impl.

(** *** Column addition *)

(** [matrix_.at(targetColumnIndex) += matrix_.at(sourceColumnIndex)] for the
    chosen column class.  Both classes merge the cells with [_add]. *)
Definition add_to (sourceColumnIndex targetColumnIndex : nat) : M unit :=
  target ← reads (fun s => at_ (matrix_ s) targetColumnIndex);
  source ← reads (fun s => at_ (matrix_ s) sourceColumnIndex);
  if decide (sourceColumnIndex = targetColumnIndex) then lift Undefined
  else
    let '(cells, pivotIsZeroed) :=
      ListColumn._add_z2 true false (pivot_ target) (column_ target) (column_ source) in
    match impl with
    | Wrapper =>
        (* Base::operator+=(column); *)
        modify (set_matrix <[targetColumnIndex :=
                  mkColumn cells (dim_ target) (pivot_ target) (pairedColumn_ target)]>) ;;
        if negb (is_non_zero cells (pivot_ target)) then
          (* std::swap(pivotToColumnIndex_->at(pivot_), pivotToColumnIndex_->at(column.get_pivot())) *)
          a ← reads (fun s => at_opt (pivotToColumnIndex_ s) (pivot_ target));
          b ← reads (fun s => at_opt (pivotToColumnIndex_ s) (get_pivot source));
          match pivot_ target, get_pivot source with
          | Some pt, Some ps =>
              modify (set_pivotToColumnIndex (fun d => <[ps := a]> (<[pt := b]> d))) ;;
              (* std::swap(pivot_, column.pivot_) *)
              modify (set_matrix (fun m =>
                <[sourceColumnIndex :=
                    mkColumn (column_ source) (dim_ source) (pivot_ target) (pairedColumn_ source)]>
                (<[targetColumnIndex :=
                    mkColumn cells (dim_ target) (pivot_ source) (pairedColumn_ target)]> m)))
          | _, _ => lift (Throw out_of_range)
          end
        else ret tt
    | Option_based =>
        if pivotIsZeroed then
          (* chain_opt::swap_pivots(column); dim_opt::swap_dimension(column); *)
          modify (set_matrix (fun m =>
            <[sourceColumnIndex :=
                mkColumn (column_ source) (dim_ target) (pivot_ target) (pairedColumn_ source)]>
            (<[targetColumnIndex :=
                mkColumn cells (dim_ source) (pivot_ source) (pairedColumn_ target)]> m)))
        else
          modify (set_matrix <[targetColumnIndex :=
                    mkColumn cells (dim_ target) (pivot_ target) (pairedColumn_ target)]>)
    end.

(** *** Reduction of a boundary *)

(** [_add_to(const Column_type& column, tmp_column_type& set)], Z2 branch *)
Definition _add_to (column : Column_type) (set : gset nat) : gset nat :=
  foldl toggle set (column_ column).

(** The lambda [get_last]: [*(column.rbegin())] *)
Definition get_last (column : gset nat) : result nat :=
  match last (ordered column) with
  | Some r => Ok r
  | None => Undefined
  end.

Definition is_empty (column : gset nat) : bool := bool_decide (elements column = []).

Section Reduce.

(** During the two loops of [_reduce_boundary] only local variables change; the
    matrix is read. *)
Variable s : Chain_matrix.

(** [_reduce_by_G(column, chainsInH, currentPivot)], Z2 branch *)
Definition _reduce_by_G (column : gset nat) (chainsInH : list (option nat))
    (currentPivot : nat) : result (gset nat * list (option nat)) :=
  col ← at_ (matrix_ s) currentPivot;
  Ok (_add_to col column, chainsInH ++ [get_paired_chain_index col]).

(** [_reduce_by_F(column, chainsInF, currentPivot, currentEssentialCycleIndices)],
    Z2 branch *)
Definition _reduce_by_F (column : gset nat) (currentPivot : nat)
    (currentEssentialCycleIndices : list nat) : result (gset nat * list nat) :=
  col ← at_ (matrix_ s) currentPivot;
  Ok (_add_to col column, currentEssentialCycleIndices ++ [currentPivot]).

(** The loop [while (matrix_.at(currentPivot).is_paired())].  The boolean of
    the result tells whether the column became empty, where the function
    builds the new cycle and returns. *)
Fixpoint reduce_while_paired (fuel : nat) (column : gset nat)
    (chainsInH : list (option nat)) (currentPivot : nat)
    : result (bool * gset nat * list (option nat)) :=
  match fuel with
  | O => OutOfFuel
  | S fuel' =>
      col ← at_ (matrix_ s) currentPivot;
      if is_paired col then
        '(column, chainsInH) ← _reduce_by_G column chainsInH currentPivot;
        if is_empty column then Ok (true, column, chainsInH)
        else
          l ← get_last column;
          currentPivot ← at_ (pivotToColumnIndex_ s) l;
          reduce_while_paired fuel' column chainsInH currentPivot
      else Ok (false, column, chainsInH)
  end.

(** The loop [while (!column.empty())]. *)
Fixpoint reduce_until_empty (fuel : nat) (column : gset nat)
    (chainsInH : list (option nat)) (currentEssentialCycleIndices : list nat)
    : result (gset nat * list (option nat) * list nat) :=
  match fuel with
  | O => OutOfFuel
  | S fuel' =>
      if is_empty column then Ok (column, chainsInH, currentEssentialCycleIndices)
      else
        l ← get_last column;
        currentPivot ← at_ (pivotToColumnIndex_ s) l;
        col ← at_ (matrix_ s) currentPivot;
        if negb (is_paired col) then
          '(column, essentials) ← _reduce_by_F column currentPivot currentEssentialCycleIndices;
          reduce_until_empty fuel' column chainsInH essentials
        else
          '(column, chainsInH) ← _reduce_by_G column chainsInH currentPivot;
          reduce_until_empty fuel' column chainsInH currentEssentialCycleIndices
  end.

(** [_build_from_H(column, chainsInH)], Z2 branch *)
Fixpoint add_chains_in_H (column : gset nat) (chainsInH : list (option nat))
    : result (gset nat) :=
  match chainsInH with
  | [] => Ok column
  | idx_h :: rest =>
      col ← at_opt (matrix_ s) idx_h;
      add_chains_in_H (_add_to col column) rest
  end.

Definition _build_from_H (column : gset nat) (chainsInH : list (option nat))
    : result (gset nat) :=
  (* column.insert(nextInsertIndex_); *)
  add_chains_in_H (column ∪ {[nextInsertIndex_ s]}) chainsInH.

End Reduce.

(** [_update_largest_death_in_F(chainsInF, toUpdate)], Z2 branch: the loop
    starts at [chainsInF.begin() + 1]. *)
Fixpoint add_others_to (others : list nat) (toUpdate : nat) : M unit :=
  match others with
  | [] => ret tt
  | other_col :: rest => add_to other_col toUpdate ;; add_others_to rest toUpdate
  end.

Definition _update_largest_death_in_F (chainsInF : list nat) (toUpdate : nat) : M unit :=
  match chainsInF with
  | [] => lift Undefined
  | _ :: others => add_others_to others toUpdate
  end.

(** The constructor [Column_type(columnIndex, chain, dimension, rows_, pivotToColumnIndex_)]:
    [pivot_(chain.empty() ? -1 : *chain.rbegin())]. *)
Definition new_column (chain : gset nat) (dimension : Z) : Column_type :=
  mkColumn (ordered chain) dimension (last (ordered chain)) None.

(** The common beginning of both [_insert_chain]:
    [pivotToColumnIndex_.emplace(last_row, nextInsertIndex_), last_row = *column.rbegin();
     matrix_.emplace(nextInsertIndex_, Column_type(...));] *)
Definition emplace_chain (column : gset nat) (dimension : Z) : M unit :=
  l ← lift (get_last column);
  modify (fun s => set_pivotToColumnIndex (emplace l (nextInsertIndex_ s)) s) ;;
  modify (fun s => set_matrix (emplace (nextInsertIndex_ s) (new_column column dimension)) s).

(** [_insert_chain(column, dimension)] *)
Definition _insert_chain (column : gset nat) (dimension : Z) : M unit :=
  emplace_chain column dimension ;;
  (* _barcode().emplace_back(dimension, nextInsertIndex_, -1);
     _indexToBar().emplace(nextInsertIndex_, --_barcode().end()); *)
  modify (fun s =>
    set_barcode (barcode_ s ++ [mkBar dimension (Z.of_nat (nextInsertIndex_ s)) (-1)])
                (emplace (nextInsertIndex_ s) (length (barcode_ s)) (indexToBar_ s)) s) ;;
  modify (fun s => set_nextInsertIndex (S (nextInsertIndex_ s)) s).

(** [it->death = d] through a list iterator. *)
Definition set_death (pos : nat) (d : Z) (barcode : list Bar) : result (list Bar) :=
  match barcode !! pos with
  | Some bar => Ok (<[pos := mkBar (dim bar) (birth bar) d]> barcode)
  | None => Undefined
  end.

(** [_insert_chain(column, dimension, pair)] *)
Definition _insert_chain_paired (column : gset nat) (dimension : Z) (pair : nat) : M unit :=
  emplace_chain column dimension ;;
  (* matrix_.at(nextInsertIndex_).assign_paired_chain(pair); *)
  c ← reads (fun s => at_ (matrix_ s) (nextInsertIndex_ s));
  modify (fun s => set_matrix <[nextInsertIndex_ s := assign_paired_chain c pair]> s) ;;
  (* matrix_.at(pair).assign_paired_chain(nextInsertIndex_); *)
  p ← reads (fun s => at_ (matrix_ s) pair);
  modify (fun s => set_matrix <[pair := assign_paired_chain p (nextInsertIndex_ s)]> s) ;;
  (* _indexToBar().at(matrix_.at(pair).get_pivot())->death = nextInsertIndex_; *)
  p ← reads (fun s => at_ (matrix_ s) pair);
  it ← reads (fun s => at_opt (indexToBar_ s) (get_pivot p));
  bars ← reads (fun s => set_death it (Z.of_nat (nextInsertIndex_ s)) (barcode_ s));
  modify (fun s => set_barcode bars (indexToBar_ s) s) ;;
  (* _indexToBar().emplace(nextInsertIndex_, _indexToBar().at(matrix_.at(pair).get_pivot())); *)
  p ← reads (fun s => at_ (matrix_ s) pair);
  it ← reads (fun s => at_opt (indexToBar_ s) (get_pivot p));
  modify (fun s => set_barcode (barcode_ s) (emplace (nextInsertIndex_ s) it (indexToBar_ s)) s) ;;
  modify (fun s => set_nextInsertIndex (S (nextInsertIndex_ s)) s).

(** [int dim = boundary.empty() ? 0 : boundary.size() - 1] *)
Definition boundary_dim (boundary : list nat) : nat := length boundary - 1.

(** Fuel of the two loops of [_reduce_boundary]: the largest row index of the
    column decreases at each iteration on a consistent matrix, and it starts
    below the number of columns. *)
Definition reduction_fuel (s : Chain_matrix) : nat := S (nextInsertIndex_ s).

(** [_reduce_boundary(boundary, currentEssentialCycleIndices)] *)
Definition _reduce_boundary (boundary : list nat) (currentEssentialCycleIndices : list nat)
    : M unit :=
  let column : gset nat := list_to_set boundary in
  let dim := Z.of_nat (boundary_dim boundary) in
  if (length boundary =? 0)%nat then
    n ← gets nextInsertIndex_;
    _insert_chain (column ∪ {[n]}) dim
  else
    l ← lift (get_last column);
    currentPivot ← reads (fun s => at_ (pivotToColumnIndex_ s) l);
    '(emptied, column, chainsInH) ←
        reads (fun s => reduce_while_paired s (reduction_fuel s) column [] currentPivot);
    if emptied : bool then
      column ← reads (fun s => _build_from_H s column chainsInH);
      _insert_chain column dim
    else
      '(column, chainsInH, essentials) ←
          reads (fun s => reduce_until_empty s (reduction_fuel s) column chainsInH
                            currentEssentialCycleIndices);
      (* index chain_fp = currentEssentialCycleIndices.front(); *)
      chain_fp ← lift (match essentials with c :: _ => Ok c | [] => Undefined end);
      _update_largest_death_in_F essentials chain_fp ;;
      column ← reads (fun s => _build_from_H s column chainsInH);
      _insert_chain_paired column dim chain_fp.

(** [dimensions_.resize(size)], growing with zeros *)
Definition resize (l : list nat) (size : nat) : list nat :=
  take size l ++ replicate (size - length l) 0.

(** [insert_boundary(boundary, currentEssentialCycleIndices)] *)
Definition insert_boundary_with (boundary : list nat) (currentEssentialCycleIndices : list nat)
    : M unit :=
  let dim := boundary_dim boundary in
  modify (fun s =>
    let maxDim := if (maxDim_ s <? Z.of_nat dim)%Z then Z.of_nat dim else maxDim_ s in
    let dimensions :=
      if (length (dimensions_ s) <=? dim)%nat then resize (dimensions_ s) (dim + 1)
      else dimensions_ s in
    set_dimensions (alter S dim dimensions) maxDim s) ;;
  _reduce_boundary boundary currentEssentialCycleIndices.

(** [insert_boundary(boundary)]: [std::vector<index> chains_in_F; insert_boundary(boundary, chains_in_F);] *)
Definition insert_boundary (boundary : list nat) : M unit :=
  insert_boundary_with boundary [].

(** A sequence of calls of [insert_boundary] on one matrix; a caller that
    catches an exception goes on with the matrix as the call left it.  [None]
    when a call does not return normally or by an exception. *)
Fixpoint insert_boundaries (boundaries : list (list nat)) (s : Chain_matrix)
    : option Chain_matrix :=
  match boundaries with
  | [] => Some s
  | b :: rest =>
      match insert_boundary b s with
      | (Ok _, s') | (Throw _, s') => insert_boundaries rest s'
      | _ => None
      end
  end.

(** [get_column(columnIndex)], [get_column_with_pivot(simplexIndex)],
    [get_number_of_columns()] *)
Definition get_column (s : Chain_matrix) (columnIndex : nat) : result Column_type :=
  at_ (matrix_ s) columnIndex.
Definition get_column_with_pivot (s : Chain_matrix) (simplexIndex : nat) : result nat :=
  at_ (pivotToColumnIndex_ s) simplexIndex.
Definition get_number_of_columns (s : Chain_matrix) : nat := nextInsertIndex_ s.

End Impl.

End ChainMatrix.

(** ** Representative cycles of a chain matrix (Persistence_matrix/chain_rep_cycles.h) *)

Module RepCycles.
Import ChainMatrix.

Section ColumnKind.

(** Whether [Column_type] is [Heap_column_type] or [Unordered_set_column_type],
    the two column types whose iteration order is not the row order. *)
Variable unordered_column : bool.

Record Chain_representative_cycles : Type := mkCycles {
  representativeCycles_ : list (list nat);
  birthToCycle_ : list (option nat)     (* std::vector<index>, None for -1 *)
}.

(** [std::sort(cycle.begin(), cycle.end())] *)
Definition sort (cycle : list nat) : list nat := merge_sort Nat.le cycle.

(** One iteration of the loop of [update_representative_cycles]. *)
Definition visit (s : Chain_matrix) (acc : Chain_representative_cycles) (i : nat)
    : result Chain_representative_cycles :=
  idx ← get_column_with_pivot s i;
  col ← get_column s idx;
  if negb (is_paired col)
     || match get_paired_chain_index col with Some j => (i <? j)%nat | None => false end
  then
    let cycle := column_ col in
    let cycle := if unordered_column then sort cycle else cycle in
    let cycles := representativeCycles_ acc ++ [cycle] in
    Ok (mkCycles cycles (<[i := Some (length cycles - 1)]> (birthToCycle_ acc)))
  else Ok acc.

Fixpoint visit_all (s : Chain_matrix) (acc : Chain_representative_cycles) (ids : list nat)
    : result Chain_representative_cycles :=
  match ids with
  | [] => Ok acc
  | i :: rest => acc' ← visit s acc i; visit_all s acc' rest
  end.

(** [update_representative_cycles()] *)
Definition update_representative_cycles (s : Chain_matrix)
    : result Chain_representative_cycles :=
  visit_all s (mkCycles [] (replicate (get_number_of_columns s) None))
            (seq 0 (get_number_of_columns s)).

End ColumnKind.

End RepCycles.

(** ** Index overlay (Persistence_matrix/overlay_ididx_to_matidx.h)

    [Id_to_index_overlay<Matrix_type, Master_matrix_type>].  The overlaid matrix
    is a template parameter; what [remove_last] needs from it is its own
    [remove_last] and, for a chain matrix, its public [pivotToColumnIndex_],
    which [idToIndex_] then points to.  Indices are [unsigned int]s. *)

Module Overlay.
Local Open Scope Z_scope.

(** [static_cast<index>(-1)] *)
Definition no_index : Z := 2 ^ 32 - 1.

(** [dictionary_type]: [std::unordered_map<id_index, index>] with
    [has_map_column_container], [std::vector<index>] otherwise. *)
Inductive dictionary : Type :=
  | Map (m : gmap Z Z)
  | Vec (v : list Z).

Definition dict_empty (d : dictionary) : bool :=
  match d with
  | Map m => bool_decide (m = ∅)
  | Vec v => bool_decide (v = [])
  end.

Section Overlay.

Variable Matrix_type : Type.
Variable matrix_remove_last : Matrix_type -> result Matrix_type.
Variable matrix_pivotToColumnIndex : Matrix_type -> dictionary.

Variable is_of_boundary_type : bool.
Variable has_map_column_container : bool.
(** Whether [GUDHI_CHECK] is compiled in (debug mode). *)
Variable debug : bool.

Record Id_to_index_overlay : Type := mkOverlay {
  matrix_ : Matrix_type;
  own_idToIndex : dictionary;   (* the dictionary allocated by _initialize_map *)
  nextIndex_ : Z
}.

(** [*idToIndex_]: [_initialize_map] makes the pointer refer to a dictionary of
    its own for a boundary matrix and to [matrix_.pivotToColumnIndex_]
    otherwise. *)
Definition idToIndex (o : Id_to_index_overlay) : dictionary :=
  if is_of_boundary_type then own_idToIndex o
  else matrix_pivotToColumnIndex (matrix_ o).

(** [_initialize_map(size)] for the own dictionary *)
Definition _initialize_map (size : nat) : dictionary :=
  if has_map_column_container then Map ∅ else Vec (replicate size no_index).

(** [Id_to_index_overlay(numberOfColumns, colSettings)], which "constructs a
    new empty matrix and reserves space for the given number of columns":
    [matrix] is that empty matrix, [matrix_(numberOfColumns, colSettings)]. *)
Definition reserved (matrix : Matrix_type) (numberOfColumns : nat) : Id_to_index_overlay :=
  mkOverlay matrix (_initialize_map numberOfColumns) 0.

(** [while (it->second != nextIndex_) ++it; idToIndex_->erase(it);]
    The entries are visited in the order of [map_to_list]. *)
Definition erase_value (m : gmap Z Z) (value : Z) : result (gmap Z Z) :=
  match List.find (fun kv => kv.2 =? value) (map_to_list m) with
  | Some kv => Ok (delete kv.1 m)
  | None => Undefined
  end.

(** [index id = size - 1; while (v[id] == -1) --id;] *)
Fixpoint last_assigned (v : list Z) : option nat :=
  match v with
  | [] => None
  | x :: rest =>
      match last_assigned rest with
      | Some i => Some (S i)
      | None => if x =? no_index then None else Some O
      end
  end.

Definition erase_last_assigned (v : list Z) (expected : Z) : result (list Z) :=
  match last_assigned v with
  | Some id =>
      if debug && negb (bool_decide (v !! id = Some expected))
      then Throw logic_error
      else Ok (<[id := no_index]> v)
  | None => Undefined
  end.

(** [remove_last()] *)
Definition remove_last (o : Id_to_index_overlay) : result Id_to_index_overlay :=
  if dict_empty (idToIndex o) then Ok o
  else
    m ← matrix_remove_last (matrix_ o);
    if is_of_boundary_type then
      let next := (nextIndex_ o - 1) mod 2 ^ 32 in
      match has_map_column_container, own_idToIndex o with
      | true, Map d => d' ← erase_value d next; Ok (mkOverlay m (Map d') next)
      | false, Vec v => v' ← erase_last_assigned v next; Ok (mkOverlay m (Vec v') next)
      | _, _ => Undefined   (* excluded by the type of idToIndex_ *)
      end
    else Ok (mkOverlay m (own_idToIndex o) (nextIndex_ o)).

End Overlay.

End Overlay.

(** ** Shared multi-field element: the other operators
    (Fields/Multi_field_shared.h) *)

Module MultiFieldArith.
Import MultiField.
Local Open Scope Z_scope.

Section Operations.
Variable st : state.

Let M : Z := productOfAllCharacteristics_ st.

(** [operator-=(f1, f2)] and [operator-(f1, f2)] *)
Definition sub (f1 f2 : Shared_multi_field_element) : Shared_multi_field_element :=
  mkElt (mpz_mod (element_ f1 - element_ f2) M).

(** [operator-=(f, mpz_class v)] *)
Definition sub_z (f : Shared_multi_field_element) (v : Z) : Shared_multi_field_element :=
  mkElt (mpz_mod (element_ f - v) M).

(** [mpz_class operator+(mpz_class v, f)] *)
Definition z_add (v : Z) (f : Shared_multi_field_element) : Z :=
  mpz_mod (v + element_ f) M.

(** [mpz_class operator-(mpz_class v, f)]: [v] is reduced only when it is at
    least the characteristic, and the characteristic is added when the element
    is larger. *)
Definition z_sub (v : Z) (f : Shared_multi_field_element) : Z :=
  let e := v in
  let e := if M <=? e then mpz_mod e M else e in
  let e := if e <? element_ f then e + M else e in
  e - element_ f.

(** [mpz_class operator*(mpz_class v, f)] *)
Definition z_mul (v : Z) (f : Shared_multi_field_element) : Z :=
  mpz_mod (v * element_ f) M.

(** [operator==(f1, f2)] *)
Definition eq (f1 f2 : Shared_multi_field_element) : bool :=
  element_ f1 =? element_ f2.

(** [operator==(const mpz_class v, f)] and [operator==(f, const mpz_class v)] *)
Definition eq_z (v : Z) (f : Shared_multi_field_element) : bool :=
  if v <? M then v =? element_ f
  else mpz_mod v M =? element_ f.

(** [operator=(const mpz_class value)] *)
Definition assign_z (value : Z) : Shared_multi_field_element :=
  mkElt (mpz_mod value M).

End Operations.

End MultiFieldArith.

(** ** Z2 set column: the other members (column_types/z2_set_column.h) *)

Module Z2SetColumnOps.
Import Z2SetColumn.

(** [is_empty()] *)
Definition is_empty (self : Z2_set_column) : bool := bool_decide (column_ self = ∅).

(** [get_dimension()] *)
Definition get_dimension (self : Z2_set_column) : Z := dim_ self.

(** [clear()] *)
Definition clear (self : Z2_set_column) : Z2_set_column := mk (dim_ self) ∅.

(** [clear(index rowIndex)]: [column_.erase(rowIndex)] *)
Definition clear_row (self : Z2_set_column) (rowIndex : nat) : Z2_set_column :=
  mk (dim_ self) (column_ self ∖ {[rowIndex]}).

(** The loop of [reorder]: [newSet.insert(valueMap.at(v.get_row_index()))] for
    the cells in increasing order. *)
Fixpoint reorder_loop (valueMap : list nat) (cells : list nat) (newSet : gset nat)
    : result (gset nat) :=
  match cells with
  | [] => Ok newSet
  | v :: rest =>
      match valueMap !! v with
      | Some w => reorder_loop valueMap rest ({[w]} ∪ newSet)
      | None => Throw out_of_range
      end
  end.

(** [reorder(std::vector<index>& valueMap)]: the column is replaced by
    [newSet] after the loop; the second component is the column the call
    leaves, also when [at] throws. *)
Definition reorder (self : Z2_set_column) (valueMap : list nat)
    : result unit * Z2_set_column :=
  match reorder_loop valueMap (ordered (column_ self)) ∅ with
  | Ok newSet => (Ok tt, mk (dim_ self) newSet)
  | Throw e => (Throw e, self)
  | OutOfFuel => (OutOfFuel, self)
  | Undefined => (Undefined, self)
  end.

End Z2SetColumnOps.

(** ** Intrusive list column: the other members
    (Persistence_matrix/columns/intrusive_list_column.h) *)

Module ListColumnOps.
Import ListColumn.

Section Options.

Variable isNonBasic : bool.
Variable is_of_boundary_type : bool.

(** *** Z2 instantiation *)


(** [is_empty()] *)
Definition is_empty_z2 (self : Z2_column) : bool :=
  match z2_cells self with [] => true | _ => false end.

(** [size()] *)
Definition size_z2 (self : Z2_column) : nat := length (z2_cells self).



End Options.

End ListColumnOps.

(** ** Chain matrix: removal and accessors (chain_matrix/chain_matrix_0011.h) *)

Module ChainMatrixOps.
Import ChainMatrix.

(** Modelled from the spec: [Column_pairing] (column_types/column_pairing.h) is
    not among the sources; as [assign_paired_chain] stores the index of the
    paired column, [unassign_paired_chain] forgets it. *)
Definition unassign_paired_chain (c : Column_type) : Column_type :=
  mkColumn (column_ c) (dim_ c) (pivot_ c) None.

(** [--x] on an [unsigned int] *)
Definition uint_pred (x : nat) : nat :=
  match x with
  | O => 2 ^ 32 - 1
  | S k => k
  end.

(** [while (dimensions_.back() == 0) dimensions_.pop_back();] on the reversed
    vector; [back()] of an empty vector is undefined. *)
Fixpoint pop_zeros_rev (reversed : list nat) : result (list nat) :=
  match reversed with
  | [] => Undefined
  | x :: rest => if (x =? 0)%nat then pop_zeros_rev rest else Ok reversed
  end.

Definition pop_zeros (dimensions : list nat) : result (list nat) :=
  r ← pop_zeros_rev (rev dimensions); Ok (rev r).

(** [_barcode().erase(bar)]: the iterators to the bars after [bar] stay valid,
    their positions in the list go down by one. *)
Definition erase_bar (pos : nat) (s : Chain_matrix) : Chain_matrix :=
  set_barcode (delete pos (barcode_ s))
              ((fun q => if (pos <? q)%nat then q - 1 else q) <$> indexToBar_ s) s.

(** [erase_last()], with [swap_opt] inactive: [timeStamp] is
    [nextInsertIndex_].  [rows_.erase(pivot)] is left out with [rows_]. *)
Definition erase_last : M unit :=
  (* --nextInsertIndex_; *)
  modify (fun s => set_nextInsertIndex (uint_pred (nextInsertIndex_ s)) s) ;;
  (* int dim = matrix_.at(nextInsertIndex_).get_dimension(); *)
  col ← reads (fun s => at_ (matrix_ s) (nextInsertIndex_ s));
  let dim := dim_ col in
  (* --(dimensions_[dim]); *)
  dimensions ← reads (fun s =>
    if (dim <? 0)%Z then Undefined
    else match dimensions_ s !! Z.to_nat dim with
         | Some count => Ok (<[Z.to_nat dim := uint_pred count]> (dimensions_ s))
         | None => Undefined
         end);
  modify (fun s => set_dimensions dimensions (maxDim_ s) s) ;;
  (* while (dimensions_.back() == 0) dimensions_.pop_back();
     maxDim_ = dimensions_.size() - 1; *)
  dimensions ← reads (fun s => pop_zeros (dimensions_ s));
  modify (set_dimensions dimensions (Z.of_nat (length dimensions) - 1)) ;;
  (* bar = _indexToBar().at(timeStamp), timeStamp = nextInsertIndex_ *)
  pos ← reads (fun s => at_ (indexToBar_ s) (nextInsertIndex_ s));
  bar ← reads (fun s => match barcode_ s !! pos with Some b => Ok b | None => Undefined end);
  (* if (bar->death == -1) _barcode().erase(bar); else bar->death = -1; *)
  (if (death bar =? -1)%Z
   then modify (erase_bar pos)
   else modify (fun s =>
          set_barcode (<[pos := mkBar (ChainMatrix.dim bar) (birth bar) (-1)]> (barcode_ s))
                      (indexToBar_ s) s)) ;;
  (* _indexToBar().erase(timeStamp); *)
  modify (fun s => set_barcode (barcode_ s) (delete (nextInsertIndex_ s) (indexToBar_ s)) s) ;;
  (* index toErase = pivotToColumnIndex_.at(nextInsertIndex_);
     Column_type& c = matrix_.at(toErase); *)
  toErase ← reads (fun s => at_ (pivotToColumnIndex_ s) (nextInsertIndex_ s));
  c ← reads (fun s => at_ (matrix_ s) toErase);
  (* if (c.is_paired()) matrix_.at(c.get_paired_chain_index()).unassign_paired_chain(); *)
  match get_paired_chain_index c with
  | Some paired =>
      p ← reads (fun s => at_ (matrix_ s) paired);
      modify (set_matrix <[paired := unassign_paired_chain p]>)
  | None => ret tt
  end ;;
  (* pivotToColumnIndex_.erase(nextInsertIndex_); matrix_.erase(toErase); *)
  modify (fun s => set_pivotToColumnIndex (delete (nextInsertIndex_ s)) s) ;;
  modify (set_matrix (delete toErase)).

(** [get_max_dimension()] *)
Definition get_max_dimension (s : Chain_matrix) : Z := maxDim_ s.

(** [get_column_dimension(columnIndex)] *)
Definition get_column_dimension (s : Chain_matrix) (columnIndex : nat) : result Z :=
  c ← at_ (matrix_ s) columnIndex; Ok (dim_ c).

(** [is_zero_cell(columnIndex, rowIndex)] *)
Definition is_zero_cell (s : Chain_matrix) (columnIndex rowIndex : nat) : result bool :=
  c ← at_ (matrix_ s) columnIndex; Ok (negb (is_non_zero (column_ c) (Some rowIndex))).

(** [is_zero_column(columnIndex)] *)
Definition is_zero_column (s : Chain_matrix) (columnIndex : nat) : result bool :=
  c ← at_ (matrix_ s) columnIndex;
  Ok (match column_ c with [] => true | _ => false end).

(** [get_pivot(columnIndex)] *)
Definition get_pivot_of (s : Chain_matrix) (columnIndex : nat) : result (option nat) :=
  c ← at_ (matrix_ s) columnIndex; Ok (get_pivot c).

End ChainMatrixOps.

(** ** Representative cycles: the accessors (Persistence_matrix/chain_rep_cycles.h) *)

Module RepCyclesOps.
Import ChainMatrix RepCycles.

Section ColumnKind.
Variable unordered_column : bool.

(** [get_representative_cycles()]: the cycles are computed only when the
    container is empty.  Returns the object as the call leaves it. *)
Definition get_representative_cycles (s : Chain_matrix) (r : Chain_representative_cycles)
    : result Chain_representative_cycles :=
  match representativeCycles_ r with
  | [] => update_representative_cycles unordered_column s
  | _ => Ok r
  end.

(** [get_representative_cycle(const Bar& bar)]:
    [representativeCycles_[birthToCycle_[bar.birth]]], two unchecked
    [operator[]]. *)
Definition get_representative_cycle (s : Chain_matrix) (r : Chain_representative_cycles)
    (bar : Bar) : result (Chain_representative_cycles * list nat) :=
  r' ← get_representative_cycles s r;
  if (birth bar <? 0)%Z then Undefined
  else
    match birthToCycle_ r' !! Z.to_nat (birth bar) with
    | Some (Some k) =>
        match representativeCycles_ r' !! k with
        | Some cycle => Ok (r', cycle)
        | None => Undefined
        end
    | _ => Undefined
    end.

End ColumnKind.

End RepCyclesOps.

(** * Index overlay: insertion and translation of identifiers *)

Module OverlayOps.
Import Overlay.
Local Open Scope Z_scope.

(** [idToIndex_->emplace(key, value)]: nothing is stored when the key is
    already in the map. *)
Definition emplace (key value : Z) (m : gmap Z Z) : gmap Z Z :=
  match m !! key with
  | Some _ => m
  | None => <[key := value]> m
  end.

(** [idToIndex_->resize(size, -1)] *)
Definition resize (v : list Z) (size : nat) : list Z :=
  take size v ++ replicate (size - length v) no_index.

Section Overlay.

Variable Matrix_type : Type.
(** [matrix_.insert_boundary(boundary, dim)] and
    [matrix_.insert_boundary(faceIndex, boundary, dim)] of the overlaid
    matrix. *)
Variable matrix_insert_boundary :
  option Z -> list Z -> Z -> Matrix_type -> result Matrix_type.
Variable matrix_pivotToColumnIndex : Matrix_type -> dictionary.

Variable is_of_boundary_type : bool.
Variable has_map_column_container : bool.
Variable debug : bool.

(** [insert_boundary(boundary, dim)] *)
Definition insert_boundary (boundary : list Z) (dim : Z)
    (o : Id_to_index_overlay Matrix_type) : result (Id_to_index_overlay Matrix_type) :=
  m ← matrix_insert_boundary None boundary dim (matrix_ Matrix_type o);
  if is_of_boundary_type then
    let next := nextIndex_ Matrix_type o in
    match has_map_column_container, own_idToIndex Matrix_type o with
    | true, Map d =>
        Ok (mkOverlay Matrix_type m (Map (emplace next next d)) ((next + 1) mod 2 ^ 32))
    | false, Vec v =>
        if Z.of_nat (length v) =? next
        then Ok (mkOverlay Matrix_type m (Vec (v ++ [next])) ((next + 1) mod 2 ^ 32))
        else if next <? Z.of_nat (length v)
        then Ok (mkOverlay Matrix_type m (Vec (<[Z.to_nat next := next]> v))
                   ((next + 1) mod 2 ^ 32))
        else Undefined   (* operator[] past the end *)
    | _, _ => Undefined   (* excluded by the type of idToIndex_ *)
    end
  else Ok (mkOverlay Matrix_type m (own_idToIndex Matrix_type o) (nextIndex_ Matrix_type o)).

(** The [GUDHI_CHECK] of [insert_boundary(faceIndex, boundary, dim)].  For a
    dictionary kept in a vector the check is written on the pointer,
    [idToIndex_[faceIndex] == static_cast<index>(-1)], and compares a
    dictionary with an index: it has no behaviour. *)
Definition check_new_id (faceIndex : Z) (o : Id_to_index_overlay Matrix_type) : result unit :=
  if debug then
    match has_map_column_container,
          idToIndex Matrix_type matrix_pivotToColumnIndex is_of_boundary_type o with
    | true, Map d =>
        match d !! faceIndex with
        | Some _ => Throw invalid_argument
        | None => Ok tt
        end
    | _, _ => Undefined
    end
  else Ok tt.

(** [insert_boundary(faceIndex, boundary, dim)] *)
Definition insert_boundary_with_id (faceIndex : Z) (boundary : list Z) (dim : Z)
    (o : Id_to_index_overlay Matrix_type) : result (Id_to_index_overlay Matrix_type) :=
  check_new_id faceIndex o ;;
  m ← matrix_insert_boundary (Some faceIndex) boundary dim (matrix_ Matrix_type o);
  if is_of_boundary_type then
    let next := nextIndex_ Matrix_type o in
    match has_map_column_container, own_idToIndex Matrix_type o with
    | true, Map d =>
        Ok (mkOverlay Matrix_type m (Map (emplace faceIndex next d)) ((next + 1) mod 2 ^ 32))
    | false, Vec v =>
        (* if (idToIndex_->size() <= faceIndex) idToIndex_->resize(faceIndex + 1, -1); *)
        let v :=
          if Z.of_nat (length v) <=? faceIndex
          then resize v (Z.to_nat ((faceIndex + 1) mod 2 ^ 32))
          else v in
        (* idToIndex_->operator[](faceIndex) = nextIndex_; *)
        if (0 <=? faceIndex) && (faceIndex <? Z.of_nat (length v))
        then Ok (mkOverlay Matrix_type m (Vec (<[Z.to_nat faceIndex := next]> v))
                   ((next + 1) mod 2 ^ 32))
        else Undefined
    | _, _ => Undefined
    end
  else Ok (mkOverlay Matrix_type m (own_idToIndex Matrix_type o) (nextIndex_ Matrix_type o)).

(** [_id_to_index(id)]: [at] on a map, [operator[]] on a vector. *)
Definition _id_to_index (o : Id_to_index_overlay Matrix_type) (id : Z) : result Z :=
  match has_map_column_container,
        idToIndex Matrix_type matrix_pivotToColumnIndex is_of_boundary_type o with
  | true, Map d =>
      match d !! id with
      | Some i => Ok i
      | None => Throw out_of_range
      end
  | false, Vec v =>
      if id <? 0 then Undefined
      else match v !! Z.to_nat id with
           | Some i => Ok i
           | None => Undefined
           end
  | _, _ => Undefined
  end.

End Overlay.

End OverlayOps.

(** * Specification vocabulary *)

(** ** Shared multi-field element *)

Section MultiFieldSpec.
Import MultiField.
Local Open Scope Z_scope.

(** Exhaustive check over the 210 residues. *)
Definition inverse_ok_2_7 (v : Z) : bool :=
  if (v =? 0) || negb (Z.gcd v 210 =? 1) then true
  else match get_inverse st_2_7 (mkElt v) with
       | Some inv => element_ (mul st_2_7 (mkElt v) inv) =? 1
       | None => false
       end.

(** Product of a list of characteristics. *)
Definition list_product (l : list Z) : Z := fold_right Z.mul 1%Z l.

(** [p] divides [x]. *)
Definition divides (x p : Z) : bool := (x mod p =? 0)%Z.

(** What [initialize] establishes: the characteristics are distinct primes,
    [productOfAllCharacteristics_] is their product, and the partial of a prime
    [p] is [(product / p)^(p - 1)] modulo the product. *)
Definition initialized (st : MultiField.state) : Prop :=
  NoDup (MultiField.primes_ st) /\
  Forall Z.prime (MultiField.primes_ st) /\
  MultiField.productOfAllCharacteristics_ st = list_product (MultiField.primes_ st) /\
  MultiField.partials_ st =
    map (fun p => MultiField.mpz_powm_ui
                    (MultiField.productOfAllCharacteristics_ st / p) (p - 1)
                    (MultiField.productOfAllCharacteristics_ st))
        (MultiField.primes_ st).

(** The body of the loop of [get_partial_multiplicative_identity]. *)
Definition identity_step (st : state) (Q : Z) (mult : Shared_multi_field_element) (pp : Z * Z)
    : Shared_multi_field_element :=
  let '(p, partial) := pp in
  if Z.rem Q p =? 0 then add_z st mult partial else mult.

Definition with_partial (st : state) (p : Z) : Z * Z :=
  (p, mpz_powm_ui (productOfAllCharacteristics_ st / p) (p - 1)
                  (productOfAllCharacteristics_ st)).

(** The primes of a sub-product at which [x] is invertible. *)
Definition invertible_factors (x : Z) (sub : list Z) : list Z :=
  List.filter (fun p => negb (divides x p)) sub.

End MultiFieldSpec.

(** ** Index overlay *)

(** A matrix reduced to its number of columns, whose [remove_last] fails when
    there is none. *)
Definition counting_remove_last (columns : nat) : result nat :=
  match columns with
  | O => Throw logic_error
  | S n => Ok n
  end.

(** ** Chain matrix *)

Section ChainMatrixSpec.
Import ChainMatrix RepCycles.

(** The column that owns pivot [i]. *)
Definition pivot_owner (s : Chain_matrix) (i : nat) : option Column_type :=
  match pivotToColumnIndex_ s !! i with
  | Some idx => matrix_ s !! idx
  | None => None
  end.

(** A surviving birth: the owner of pivot [i] is unpaired, or [i] is below the
    index of the column it is paired with. *)
Definition surviving_birth (s : Chain_matrix) (i : nat) : bool :=
  match pivot_owner s i with
  | Some col =>
      match pairedColumn_ col with
      | None => true
      | Some j => (i <? j)%nat
      end
  | None => false
  end.

(** The cycle collected for pivot [i]. *)
Definition cycle_of (unordered_column : bool) (s : Chain_matrix) (i : nat) : list nat :=
  match pivot_owner s i with
  | Some col => if unordered_column then sort (column_ col) else column_ col
  | None => []
  end.

Definition birth_of (i : nat) (c : Column_type) : Z :=
  match pairedColumn_ c with
  | None => Z.of_nat i
  | Some j => Z.of_nat (Nat.min i j)
  end.

Definition death_of (i : nat) (c : Column_type) : Z :=
  match pairedColumn_ c with
  | None => (-1)%Z
  | Some j => Z.of_nat (Nat.max i j)
  end.

(** The invariant of a chain matrix built by insertions: column [i] owns pivot
    [i], which is its largest row; pairing is symmetric; every column has its
    bar. *)
Record consistent (s : Chain_matrix) : Prop := mkConsistent {
  cons_columns : forall i, is_Some (matrix_ s !! i) <-> i < nextInsertIndex_ s;
  cons_pivots : forall k, k < nextInsertIndex_ s -> pivotToColumnIndex_ s !! k = Some k;
  cons_pivot_keys : forall k, nextInsertIndex_ s <= k -> pivotToColumnIndex_ s !! k = None;
  cons_column : forall i c, matrix_ s !! i = Some c ->
    pivot_ c = Some i /\ last (column_ c) = Some i /\ StronglySorted lt (column_ c);
  cons_paired : forall i c j, matrix_ s !! i = Some c -> pairedColumn_ c = Some j ->
    i ≠ j /\ exists c', matrix_ s !! j = Some c' /\ pairedColumn_ c' = Some i;
  cons_bar_keys : forall k, nextInsertIndex_ s <= k -> indexToBar_ s !! k = None;
  cons_bar : forall i c, matrix_ s !! i = Some c ->
    exists pos d, indexToBar_ s !! i = Some pos /\
                  barcode_ s !! pos = Some (mkBar d (birth_of i c) (death_of i c))
}.

Definition H_ok (s : Chain_matrix) (H : list (option nat)) : Prop :=
  Forall (fun h => exists j c, h = Some j /\ matrix_ s !! j = Some c /\
                               is_Some (pairedColumn_ c)) H.

Definition E_ok (s : Chain_matrix) (E : list nat) : Prop :=
  Forall (fun e => exists c, matrix_ s !! e = Some c /\ pairedColumn_ c = None) E /\
  StronglySorted gt E.

(** The state after [_insert_chain(column, dimension)]. *)
Definition with_essential_chain (column : gset nat) (d : Z) (s : Chain_matrix) : Chain_matrix :=
  let n := nextInsertIndex_ s in
  mkMatrix (<[n := new_column column d]> (matrix_ s))
           (<[n := n]> (pivotToColumnIndex_ s))
           (S n) (dimensions_ s) (maxDim_ s)
           (barcode_ s ++ [mkBar d (Z.of_nat n) (-1)])
           (<[n := length (barcode_ s)]> (indexToBar_ s)).

(** The state after [_insert_chain(column, dimension, pair)], where the bar of
    [pair] is at position [pos]. *)
Definition with_paired_chain (column : gset nat) (d : Z) (pair : nat)
    (p : Column_type) (pos : nat) (bar : Bar) (s : Chain_matrix) : Chain_matrix :=
  let n := nextInsertIndex_ s in
  mkMatrix (<[pair := assign_paired_chain p n]>
              (<[n := assign_paired_chain (new_column column d) pair]> (matrix_ s)))
           (<[n := n]> (pivotToColumnIndex_ s))
           (S n) (dimensions_ s) (maxDim_ s)
           (<[pos := mkBar (dim bar) (birth bar) (Z.of_nat n)]> (barcode_ s))
           (<[n := pos]> (indexToBar_ s)).

(** [s'] differs from [s] at most in the cells of column [fp]. *)
Definition frame (fp : nat) (s s' : Chain_matrix) : Prop :=
  nextInsertIndex_ s' = nextInsertIndex_ s /\
  pivotToColumnIndex_ s' = pivotToColumnIndex_ s /\
  dimensions_ s' = dimensions_ s /\ maxDim_ s' = maxDim_ s /\
  barcode_ s' = barcode_ s /\ indexToBar_ s' = indexToBar_ s /\
  (forall i, i ≠ fp -> matrix_ s' !! i = matrix_ s !! i) /\
  (forall c, matrix_ s !! fp = Some c ->
     exists c', matrix_ s' !! fp = Some c' /\ dim_ c' = dim_ c /\
                pivot_ c' = pivot_ c /\ pairedColumn_ c' = pairedColumn_ c).

Definition rows (c : Column_type) : gset nat := list_to_set (column_ c).

(** Sum of two Z2 chains. *)
Definition sym_diff (a b : gset nat) : gset nat := (a ∖ b) ∪ (b ∖ a).

(** The chain stored in the column a [chainsInH] entry refers to. *)
Definition H_rows (s : Chain_matrix) (h : option nat) : gset nat :=
  match h with
  | Some j => match matrix_ s !! j with Some c => rows c | None => ∅ end
  | None => ∅
  end.

(** The lists [chainsInH] and [currentEssentialCycleIndices] at the end of the
    reduction loops of [_reduce_boundary]; the second one is empty when the
    boundary is empty or was reduced to zero by paired columns alone. *)
Definition reduction (s : Chain_matrix) (boundary : list nat)
    : result (list (option nat) * list nat) :=
  if (length boundary =? 0)%nat then Ok ([], [])
  else
    l ← get_last (list_to_set boundary);
    currentPivot ← at_ (pivotToColumnIndex_ s) l;
    '(emptied, column, chainsInH) ←
        reduce_while_paired s (reduction_fuel s) (list_to_set boundary) [] currentPivot;
    if emptied : bool then Ok (chainsInH, [])
    else
      '(_, chainsInH, essentials) ←
          reduce_until_empty s (reduction_fuel s) column chainsInH [];
      Ok (chainsInH, essentials).

(** What a successful insertion of [boundary] in [s] leaves in [s'], in terms
    of the two lists of the reduction. *)
Definition inserted (s : Chain_matrix) (boundary : list nat)
    (H : list (option nat)) (E : list nat) (s' : Chain_matrix) : Prop :=
  let n := nextInsertIndex_ s in
  nextInsertIndex_ s' = S n /\
  exists col,
    matrix_ s' !! n = Some col /\
    pivot_ col = Some n /\
    dim_ col = Z.of_nat (boundary_dim boundary) /\
    rows col = foldl sym_diff {[n]} (H_rows s <$> H) /\
    match E with
    | [] =>
        pairedColumn_ col = None /\
        (forall i, i ≠ n -> matrix_ s' !! i = matrix_ s !! i) /\
        barcode_ s' = barcode_ s ++ [mkBar (Z.of_nat (boundary_dim boundary)) (Z.of_nat n) (-1)] /\
        indexToBar_ s' = <[n := length (barcode_ s)]> (indexToBar_ s)
    | fp :: others =>
        pairedColumn_ col = Some fp /\
        Forall (fun o => o < fp) others /\
        (exists cfp cfp',
            matrix_ s !! fp = Some cfp /\ pairedColumn_ cfp = None /\
            matrix_ s' !! fp = Some cfp' /\ pairedColumn_ cfp' = Some n /\
            pivot_ cfp' = Some fp) /\
        (forall i, i ≠ n -> i ≠ fp -> matrix_ s' !! i = matrix_ s !! i) /\
        exists pos d,
          indexToBar_ s !! fp = Some pos /\
          barcode_ s !! pos = Some (mkBar d (Z.of_nat fp) (-1)) /\
          barcode_ s' = <[pos := mkBar d (Z.of_nat fp) (Z.of_nat n)]> (barcode_ s) /\
          indexToBar_ s' = <[n := pos]> (indexToBar_ s)
    end.

(** The state in which [insert_boundary] calls [_reduce_boundary]. *)
Definition counted (boundary : list nat) (s : Chain_matrix) : Chain_matrix :=
  let dim := boundary_dim boundary in
  let maxDim := if (maxDim_ s <? Z.of_nat dim)%Z then Z.of_nat dim else maxDim_ s in
  let dimensions :=
    if (length (dimensions_ s) <=? dim)%nat then resize (dimensions_ s) (dim + 1)
    else dimensions_ s in
  set_dimensions (alter S dim dimensions) maxDim s.

(** The dictionary [pivotToColumnIndex_] and the pivots of the non-empty
    columns are in one-to-one correspondence. *)
Definition pivot_bijection (s : Chain_matrix) : Prop :=
  (forall i j ci cj,
      matrix_ s !! i = Some ci -> matrix_ s !! j = Some cj ->
      column_ ci ≠ [] -> column_ cj ≠ [] ->
      get_pivot ci = get_pivot cj -> i = j) /\
  (forall i ci,
      matrix_ s !! i = Some ci -> column_ ci ≠ [] ->
      exists p, get_pivot ci = Some p /\ pivotToColumnIndex_ s !! p = Some i) /\
  (forall p i,
      pivotToColumnIndex_ s !! p = Some i ->
      exists ci, matrix_ s !! i = Some ci /\ column_ ci ≠ [] /\ get_pivot ci = Some p).

End ChainMatrixSpec.

(** The matrix of two vertices, and of two vertices and the edge between them. *)
Definition two_vertices : ChainMatrix.Chain_matrix :=
  default ChainMatrix.empty_matrix
    (ChainMatrix.insert_boundaries ChainMatrix.Wrapper [[]; []] ChainMatrix.empty_matrix).

Definition two_vertices_and_edge : ChainMatrix.Chain_matrix :=
  default ChainMatrix.empty_matrix
    (ChainMatrix.insert_boundaries ChainMatrix.Wrapper [[]; []; [0; 1]]
       ChainMatrix.empty_matrix).

(** An element whose value is reduced modulo the product of the
    characteristics, as every constructor and operator leaves it. *)
Definition reduced (st : MultiField.state) (x : MultiField.Shared_multi_field_element) : Prop :=
  (0 <= MultiField.element_ x < MultiField.productOfAllCharacteristics_ st)%Z.

Section ChainMatrixBars.
Import ChainMatrix.

(** The bar of column [i]: its dimension, its index as birth and the column it
    is paired with as death. *)
Definition bar_of (s : Chain_matrix) (i : nat) : option Bar :=
  c ← matrix_ s !! i;
  Some (mkBar (dim_ c) (Z.of_nat i)
              (match pairedColumn_ c with Some j => Z.of_nat j | None => (-1)%Z end)).

(** The births of a matrix in increasing order: the columns that are unpaired
    or paired with a later column. *)
Definition births (s : Chain_matrix) : list nat :=
  List.filter (surviving_birth s) (seq 0 (nextInsertIndex_ s)).

(** The birth of the bar of column [i]: [i], or the column it is paired with
    when that one comes first. *)
Definition birth_index (i : nat) (c : Column_type) : nat :=
  match pairedColumn_ c with
  | Some j => Nat.min i j
  | None => i
  end.

(** The barcode holds the bars of the births, in the order of the births, and
    [indexToBar_] sends every column to the bar of its birth. *)
Definition barcode_matches (s : Chain_matrix) : Prop :=
  Forall2 (fun i bar => bar_of s i = Some bar) (births s) (barcode_ s) /\
  forall i c, matrix_ s !! i = Some c ->
    exists pos, indexToBar_ s !! i = Some pos /\ births s !! pos = Some (birth_index i c).

End ChainMatrixBars.

(** The coefficient of a column at a row: the element of the cell of that row,
    zero when the column has no such cell. *)
Fixpoint coefficient (cells : list (nat * Z)) (row : nat) : Z :=
  match cells with
  | [] => 0%Z
  | c :: rest => if (c.1 =? row)%nat then c.2 else coefficient rest row
  end.

(** A matrix reduced to its number of columns, whose [insert_boundary] adds
    one. *)
Definition counting_insert_boundary (faceIndex : option Z) (boundary : list Z) (dim : Z)
    (columns : nat) : result nat := Ok (S columns).

(** * Properties *)

(** ** Z2 field element *)

Lemma Z2_of_int_1 : Z2Field.of_int 1 = Z2Field.mk true.
Proof. reflexivity. Qed.

(** The two elements of the field. *)
Lemma Z2_element_cases (x : Z2Field.Z2_field_element) :
  x = Z2Field.get_additive_identity \/ x = Z2Field.get_multiplicative_identity.
Proof. destruct x as [[]]; [right | left]; reflexivity. Qed.

(** C4, on the code: [get_inverse] of the non-zero element is the additive
    identity, so that the product of the element with its inverse is 0 and is
    not the multiplicative identity; on the zero element it returns 1. *)
Theorem Z2_get_inverse_of_one :
  Z2Field.get_inverse (Z2Field.of_int 1) = Z2Field.get_additive_identity /\
  Z2Field.mul (Z2Field.of_int 1) (Z2Field.get_inverse (Z2Field.of_int 1))
    = Z2Field.get_additive_identity /\
  Z2Field.mul (Z2Field.of_int 1) (Z2Field.get_inverse (Z2Field.of_int 1))
    <> Z2Field.get_multiplicative_identity /\
  Z2Field.get_inverse Z2Field.default = Z2Field.get_multiplicative_identity.
Proof. repeat split; try reflexivity. discriminate. Qed.

(** ** Shared multi-field element *)

Section MultiFieldFacts.
Import MultiField.
Local Open Scope Z_scope.

Lemma initialize_2_7 : initialize 2 7 = Ok st_2_7.
Proof. vm_compute. reflexivity. Qed.

Lemma mpz_mod_range (n d : Z) : d <> 0 -> 0 <= mpz_mod n d < Z.abs d.
Proof. intros Hd. unfold mpz_mod. apply Z.mod_pos_bound. lia. Qed.

(** Every element built by the constructor is reduced. *)
Lemma make_range (st : state) (e : Z) :
  productOfAllCharacteristics_ st <> 0 ->
  0 <= element_ (make st e) < Z.abs (productOfAllCharacteristics_ st).
Proof. intros H. apply mpz_mod_range, H. Qed.

Lemma inverse_ok_2_7_all :
  forallb (fun n => inverse_ok_2_7 (Z.of_nat n)) (seq 0 210) = true.
Proof. vm_compute. reflexivity. Qed.

Lemma inverse_ok_2_7_at (v : Z) : 0 <= v < 210 -> inverse_ok_2_7 v = true.
Proof.
  intros Hv.
  pose proof (proj1 (forallb_forall _ _) inverse_ok_2_7_all (Z.to_nat v)) as H.
  cbv beta in H. rewrite Z2Nat.id in H by lia. apply H.
  apply in_seq. lia.
Qed.

End MultiFieldFacts.

(** C3: after [initialize(2,7)] the primes are 2, 3, 5, 7 and their product is
    210; for every element [x] (built by the constructor from any integer)
    whose value is non-zero and coprime to 210, [x.get_inverse()] is defined
    and [x * x.get_inverse()] is the element 1, the multiplicative identity. *)
Theorem multi_field_inverse_2_7 (st : MultiField.state) (e : Z) :
  MultiField.initialize 2 7 = Ok st ->
  MultiField.element_ (MultiField.make st e) <> 0%Z ->
  Z.gcd (MultiField.element_ (MultiField.make st e)) 210 = 1%Z ->
  MultiField.primes_ st = [2; 3; 5; 7]%Z /\
  MultiField.productOfAllCharacteristics_ st = 210%Z /\
  exists inv,
    MultiField.get_inverse st (MultiField.make st e) = Some inv /\
    MultiField.mul st (MultiField.make st e) inv = MultiField.get_multiplicative_identity st /\
    ((MultiField.element_ (MultiField.make st e) * MultiField.element_ inv) mod 210 = 1)%Z.
Proof.
  intros Hinit Hnz Hgcd.
  rewrite initialize_2_7 in Hinit. injection Hinit as <-.
  split; [reflexivity | split; [reflexivity |]].
  pose proof (make_range MultiField.st_2_7 e ltac:(discriminate)) as Hr.
  change (Z.abs _) with 210%Z in Hr.
  remember (MultiField.make MultiField.st_2_7 e) as x eqn:Hx. clear Hx.
  destruct x as [v]. simpl in *.
  pose proof (inverse_ok_2_7_at v Hr) as Hok.
  unfold inverse_ok_2_7 in Hok.
  destruct (Z.eqb_spec v 0) as [|_]; [contradiction|].
  rewrite Hgcd in Hok. simpl in Hok.
  destruct (MultiField.get_inverse MultiField.st_2_7 {| MultiField.element_ := v |})
    as [inv|] eqn:Hinv; [|discriminate].
  exists inv. split; [reflexivity|].
  apply Z.eqb_eq in Hok.
  split.
  - unfold MultiField.mul. simpl. rewrite Hok. reflexivity.
  - exact Hok.
Qed.

Lemma multi_field_inverse_2_7_witness :
  MultiField.primes_ MultiField.st_2_7 = [2; 3; 5; 7]%Z /\
  MultiField.productOfAllCharacteristics_ MultiField.st_2_7 = 210%Z /\
  exists inv,
    MultiField.get_inverse MultiField.st_2_7 (MultiField.make MultiField.st_2_7 221) = Some inv /\
    MultiField.mul MultiField.st_2_7 (MultiField.make MultiField.st_2_7 221) inv
      = MultiField.get_multiplicative_identity MultiField.st_2_7 /\
    ((MultiField.element_ (MultiField.make MultiField.st_2_7 221) * MultiField.element_ inv)
      mod 210 = 1)%Z.
Proof.
  apply (multi_field_inverse_2_7 MultiField.st_2_7 221).
  - vm_compute. reflexivity.
  - vm_compute. discriminate.
  - vm_compute. reflexivity.
Defined.

(** ** Z2 columns: content as a set of row indices *)

Section OrderedSets.

Lemma elem_of_ordered (s : gset nat) (x : nat) : x ∈ ordered s <-> x ∈ s.
Proof. unfold ordered. rewrite merge_sort_Permutation. apply elem_of_elements. Qed.

Lemma NoDup_ordered (s : gset nat) : NoDup (ordered s).
Proof. unfold ordered. rewrite merge_sort_Permutation. apply NoDup_elements. Qed.

Lemma elem_of_toggle (s : gset nat) (v x : nat) :
  x ∈ toggle s v <-> (x ∈ s /\ x <> v) \/ ((x ∉ s) /\ x = v).
Proof.
  unfold toggle. destruct (decide (v ∈ s)) as [Hv|Hv].
  - rewrite elem_of_difference, elem_of_singleton. split.
    + intros [? ?]. left. done.
    + intros [[? ?]|[? ->]]; [done | contradiction].
  - rewrite elem_of_union, elem_of_singleton. split.
    + intros [?| ->]; [left | right]; split; try done. intros ->. contradiction.
    + intros [[? ?]|[? ->]]; [left | right]; done.
Qed.

(** Toggling the rows of a duplicate-free list is the symmetric difference. *)
Lemma elem_of_foldl_toggle (l : list nat) (s : gset nat) (x : nat) :
  NoDup l ->
  x ∈ foldl toggle s l <-> (x ∈ s /\ x ∉ l) \/ ((x ∉ s) /\ x ∈ l).
Proof.
  revert s. induction l as [|v l IH]; intros s Hnd; simpl.
  - rewrite elem_of_nil. tauto.
  - apply NoDup_cons in Hnd as [Hv Hnd].
    rewrite (IH _ Hnd), elem_of_toggle, !elem_of_cons.
    destruct (decide (x = v)) as [->|Hne]; [|tauto].
    destruct (decide (v ∈ s)); tauto.
Qed.

Lemma foldl_toggle_twice (l : list nat) (s : gset nat) :
  NoDup l -> foldl toggle (foldl toggle s l) l = s.
Proof.
  intros Hnd. apply set_eq. intros x.
  rewrite !elem_of_foldl_toggle by done.
  destruct (decide (x ∈ l)); destruct (decide (x ∈ s)); tauto.
Qed.

(** Two strictly increasing lists with the same elements are equal. *)
Lemma strictly_sorted_ext (l1 l2 : list nat) :
  StronglySorted lt l1 -> StronglySorted lt l2 ->
  (forall x, x ∈ l1 <-> x ∈ l2) -> l1 = l2.
Proof.
  revert l2. induction l1 as [|a l1 IH]; intros [|b l2] H1 H2 Hext.
  - reflexivity.
  - exfalso. apply (not_elem_of_nil b), Hext. left.
  - exfalso. apply (not_elem_of_nil a), Hext. left.
  - apply StronglySorted_inv in H1 as [H1 Ha].
    apply StronglySorted_inv in H2 as [H2 Hb].
    rewrite Forall_forall in Ha, Hb.
    assert (a = b) as ->.
    { pose proof (proj1 (Hext a) ltac:(left)) as Hab.
      pose proof (proj2 (Hext b) ltac:(left)) as Hba.
      apply elem_of_cons in Hab as [?|Hab]; [done|].
      apply elem_of_cons in Hba as [?|Hba]; [done|].
      specialize (Ha _ Hba). specialize (Hb _ Hab). lia. }
    f_equal. apply IH; [done..|].
    intros x. split; intros Hx.
    + pose proof (proj1 (Hext x) ltac:(right; done)) as Hx'.
      apply elem_of_cons in Hx' as [->|?]; [|done].
      specialize (Ha _ Hx). lia.
    + pose proof (proj2 (Hext x) ltac:(right; done)) as Hx'.
      apply elem_of_cons in Hx' as [->|?]; [|done].
      specialize (Hb _ Hx). lia.
Qed.

End OrderedSets.

Section ListColumnAdd.
Import ListColumn.

Variables (nb bt : bool).

Lemma _add_z2_nil_l p s : _add_z2 nb bt p [] s = (s, false).
Proof. destruct s; reflexivity. Qed.

Lemma _add_z2_nil_r p t : _add_z2 nb bt p t [] = (t, false).
Proof. destruct t; reflexivity. Qed.

Lemma _add_z2_cons p t0 t s0 s :
  _add_z2 nb bt p (t0 :: t) (s0 :: s) =
    if (t0 <? s0)%nat then
      let '(r, z) := _add_z2 nb bt p t (s0 :: s) in (t0 :: r, z)
    else if (s0 <? t0)%nat then
      let '(r, z) := _add_z2 nb bt p (t0 :: t) s in (s0 :: r, z)
    else
      let '(r, z) := _add_z2 nb bt p t s in
      (r, (is_chain nb bt && bool_decide (p = Some t0)) || z).
Proof. reflexivity. Qed.

(** The merge of two strictly increasing columns is strictly increasing and
    holds the rows that are in exactly one of them. *)
Lemma _add_z2_cells p t s :
  StronglySorted lt t -> StronglySorted lt s ->
  StronglySorted lt (_add_z2 nb bt p t s).1 /\
  forall x, x ∈ (_add_z2 nb bt p t s).1 <-> (x ∈ t /\ x ∉ s) \/ ((x ∉ t) /\ x ∈ s).
Proof.
  revert s. induction t as [|t0 t IHt]; intros s Ht Hs.
  { rewrite _add_z2_nil_l. simpl. split; [done|].
    intros x. rewrite elem_of_nil. tauto. }
  induction s as [|s0 s IHs].
  { rewrite _add_z2_nil_r. simpl. split; [done|].
    intros x. rewrite elem_of_nil. tauto. }
  pose proof Ht as Ht'. pose proof Hs as Hs'.
  apply StronglySorted_inv in Ht' as [Ht1 Ht0].
  apply StronglySorted_inv in Hs' as [Hs1 Hs0].
  rewrite Forall_forall in Ht0, Hs0.
  rewrite _add_z2_cons.
  destruct (Nat.ltb_spec t0 s0) as [Hlt|Hge].
  - destruct (IHt (s0 :: s) Ht1 Hs) as [Hsorted Hmem].
    destruct (_add_z2 nb bt p t (s0 :: s)) as [r z]. simpl in *.
    split.
    + constructor; [done|]. apply Forall_forall. intros x Hx.
      apply Hmem in Hx as [[Hx _]|[_ Hx]].
      * by apply Ht0.
      * apply elem_of_cons in Hx as [->|Hx]; [done|]. specialize (Hs0 _ Hx). lia.
    + intros x. rewrite !elem_of_cons, Hmem, !elem_of_cons.
      split.
      * intros [->|[[? ?]|[? ?]]].
        -- left. split; [by left|]. intros [?|Hx]; [lia|]. specialize (Hs0 _ Hx). lia.
        -- left. split; [by right|done].
        -- right. split; [|done]. intros [->|?]; [|done].
           destruct H0 as [?|Hx]; [lia|]. specialize (Hs0 _ Hx). lia.
      * intros [[[->|?] ?]|[? ?]]; [by left| right; left; done |].
        right. right. split; [|done]. intros ?. apply H. by right.
  - destruct (Nat.ltb_spec s0 t0) as [Hlt|Hge'].
    + destruct (IHs Hs1) as [Hsorted Hmem].
      destruct (_add_z2 nb bt p (t0 :: t) s) as [r z]. simpl in *.
      split.
      * constructor; [done|]. apply Forall_forall. intros x Hx.
        apply Hmem in Hx as [[Hx _]|[_ Hx]].
        -- apply elem_of_cons in Hx as [->|Hx]; [done|]. specialize (Ht0 _ Hx). lia.
        -- by apply Hs0.
      * intros x. rewrite !elem_of_cons, Hmem, !elem_of_cons.
        split.
        -- intros [->|[[? ?]|[? ?]]].
           ++ right. split; [|by left]. intros [?|Hx]; [lia|]. specialize (Ht0 _ Hx). lia.
           ++ left. split; [done|]. intros [->|?]; [|done].
              destruct H as [?|Hx]; [lia|]. specialize (Ht0 _ Hx). lia.
           ++ right. split; [done|by right].
        -- intros [[? ?]|[? [->|?]]]; [|by left|].
           ++ right. left. split; [done|]. intros ?. apply H0. by right.
           ++ right. right. done.
    + assert (t0 = s0) as -> by lia.
      destruct (IHt s Ht1 Hs1) as [Hsorted Hmem].
      destruct (_add_z2 nb bt p t s) as [r z]. simpl in *.
      split; [done|].
      intros x. rewrite Hmem, !elem_of_cons.
      split.
      * intros [[Hx ?]|[? Hx]].
        -- left. split; [by right|]. intros [->|?]; [|done]. specialize (Ht0 _ Hx). lia.
        -- right. split; [|by right]. intros [->|?]; [|done]. specialize (Hs0 _ Hx). lia.
      * intros [[[->|?] Hn]|[Hn [->|?]]].
        -- exfalso. apply Hn. by left.
        -- left. split; [done|]. intros ?. apply Hn. by right.
        -- exfalso. apply Hn. by left.
        -- right. split; [|done]. intros ?. apply Hn. by right.
Qed.

Lemma _add_z2_twice p p' t s :
  StronglySorted lt t -> StronglySorted lt s ->
  (_add_z2 nb bt p' (_add_z2 nb bt p t s).1 s).1 = t.
Proof.
  intros Ht Hs.
  destruct (_add_z2_cells p t s Ht Hs) as [Hsorted Hmem].
  destruct (_add_z2_cells p' _ s Hsorted Hs) as [Hsorted' Hmem'].
  apply strictly_sorted_ext; [done..|].
  intros x. rewrite Hmem', Hmem.
  destruct (decide (x ∈ t)); destruct (decide (x ∈ s)); tauto.
Qed.

(** The cells of the target after [operator+=] do not depend on whether the
    pivots were exchanged. *)
Lemma add_assign_z2_cells (a b : Z2_column) :
  z2_cells (add_assign_z2 nb bt a b).1 = (_add_z2 nb bt (z2_pivot a) (z2_cells a) (z2_cells b)).1 /\
  z2_cells (add_assign_z2 nb bt a b).2 = z2_cells b.
Proof.
  unfold add_assign_z2.
  destruct (_add_z2 nb bt (z2_pivot a) (z2_cells a) (z2_cells b)) as [r z].
  destruct (is_chain nb bt && z); simpl; done.
Qed.

End ListColumnAdd.

(** C6: adding a column [b] twice to a Z2 column [a] gives back the content of
    [a]: for [Z2_set_column::add] the column is restored as a whole, and for the
    Z2 instantiation of [Intrusive_list_column] (cells strictly increasing by
    row index, any options) the cells after [(a += b) += b] are those of [a].
    After one addition the content is the symmetric difference of the two sets
    of row indices. *)
Theorem Z2_column_addition_involution :
  (forall a b : Z2SetColumn.Z2_set_column,
      Z2SetColumn.add (Z2SetColumn.add a b) b = a /\
      forall x, x ∈ Z2SetColumn.column_ (Z2SetColumn.add a b) <->
                (x ∈ Z2SetColumn.column_ a /\ x ∉ Z2SetColumn.column_ b) \/
                ((x ∉ Z2SetColumn.column_ a) /\ x ∈ Z2SetColumn.column_ b)) /\
  (forall (isNonBasic is_of_boundary_type : bool) (a b : ListColumn.Z2_column),
      StronglySorted lt (ListColumn.z2_cells a) ->
      StronglySorted lt (ListColumn.z2_cells b) ->
      let once := ListColumn.add_assign_z2 isNonBasic is_of_boundary_type a b in
      let twice := ListColumn.add_assign_z2 isNonBasic is_of_boundary_type once.1 once.2 in
      ListColumn.z2_cells twice.1 = ListColumn.z2_cells a /\
      ListColumn.z2_cells twice.2 = ListColumn.z2_cells b /\
      forall x, x ∈ ListColumn.z2_cells once.1 <->
                (x ∈ ListColumn.z2_cells a /\ x ∉ ListColumn.z2_cells b) \/
                ((x ∉ ListColumn.z2_cells a) /\ x ∈ ListColumn.z2_cells b)).
Proof.
  split.
  - intros [da a] [db b]. unfold Z2SetColumn.add. simpl. split.
    + f_equal. apply foldl_toggle_twice, NoDup_ordered.
    + intros x. rewrite elem_of_foldl_toggle by apply NoDup_ordered.
      rewrite elem_of_ordered. done.
  - intros nb bt a b Ha Hb once twice.
    destruct (add_assign_z2_cells nb bt a b) as [H1 H2]. fold once in H1, H2.
    destruct (add_assign_z2_cells nb bt once.1 once.2) as [H3 H4]. fold twice in H3, H4.
    rewrite H3, H4, H1, H2.
    split; [|split; [done|]].
    + apply _add_z2_twice; done.
    + apply _add_z2_cells; done.
Qed.

Lemma Z2_column_addition_involution_witness :
  let a := ListColumn.mkZ2 [0; 2; 5] 2 (Some 5) in
  let b := ListColumn.mkZ2 [2; 3; 5] 2 (Some 3) in
  let once := ListColumn.add_assign_z2 true false a b in
  let twice := ListColumn.add_assign_z2 true false once.1 once.2 in
  ListColumn.z2_cells twice.1 = [0; 2; 5] /\
  ListColumn.z2_cells twice.2 = [2; 3; 5] /\
  forall x, x ∈ ListColumn.z2_cells once.1 <->
            (x ∈ [0; 2; 5] /\ x ∉ [2; 3; 5]) \/ ((x ∉ [0; 2; 5]) /\ x ∈ [2; 3; 5]).
Proof.
  apply (proj2 Z2_column_addition_involution true false
           (ListColumn.mkZ2 [0; 2; 5] 2 (Some 5)) (ListColumn.mkZ2 [2; 3; 5] 2 (Some 3))).
  - simpl. repeat constructor; lia.
  - simpl. repeat constructor; lia.
Defined.

(** ** Scaling a chain column *)

(** C7, as amended: on a chain column of [Intrusive_list_column] ([isNonBasic]
    and not [is_of_boundary_type]) a multiplication by zero throws
    [std::invalid_argument] and returns no column.  [operator*=] throws for
    exactly the values that the field operators normalise to their additive
    identity, and for Z2 for the value [false]; the [multiply_and_add] that
    scales the target throws for Z2 exactly for the value [false] and for a
    general field for the value 0. *)
Theorem chain_column_scaling_by_zero_fails
    (operators_ : ListColumn.Field_operators)
    (c source : ListColumn.Column) (cz sourcez : ListColumn.Z2_column) :
  (forall val : Z,
     ListColumn.mul_assign true false operators_ c val = Throw invalid_argument <->
     ListColumn.get_value operators_ val = ListColumn.additive_identity operators_) /\
  (forall val : bool,
     ListColumn.mul_assign_z2 true false cz val = Throw invalid_argument <-> val = false) /\
  (forall val : bool,
     ListColumn.multiply_target_and_add_z2 true false cz val sourcez = Throw invalid_argument
     <-> val = false) /\
  ListColumn.multiply_target_and_add true false operators_ c 0 source = Throw invalid_argument.
Proof.
  split; [|split; [|split]].
  - intros val. unfold ListColumn.mul_assign. cbn [ListColumn.is_chain andb negb].
    destruct (Z.eqb_spec (ListColumn.get_value operators_ val)
                (ListColumn.additive_identity operators_)) as [Hz|Hnz].
    + done.
    + split; [|done].
      destruct (ListColumn.get_value operators_ val
                =? ListColumn.multiplicative_identity operators_)%Z; discriminate.
  - intros [|]; cbn; split; (done || discriminate).
  - intros [|]; cbn; split; (done || discriminate).
  - reflexivity.
Qed.

(** C7, as stated, fails.  The chain column of the older classes,
    [Z2_intrusive_set_chain_column], has no guard: [column *= 0] returns the
    cleared column.  And the [multiply_and_add] of [Intrusive_list_column]
    tests the value as it is passed: over Z/5Z the value 5, which the
    operators normalise to zero, scales the chain column and leaves cells
    whose element is zero. *)
Lemma chain_column_scaling_by_zero_returns :
  Z2IntrusiveSetColumn.chain_mul_assign
    (Z2IntrusiveSetColumn.mkChain (Z2IntrusiveSetColumn.mk 1 {[0; 3]}) 3) 0
  = Ok (Z2IntrusiveSetColumn.mkChain (Z2IntrusiveSetColumn.mk 1 ∅) 3) /\
  ListColumn.get_value (ListColumn.Zp_operators 5) 5
  = ListColumn.additive_identity (ListColumn.Zp_operators 5) /\
  ListColumn.multiply_target_and_add true false (ListColumn.Zp_operators 5)
    (ListColumn.mkCol [(0, 2%Z); (3, 4%Z)] 1 (Some 3)) 5
    (ListColumn.mkCol [(1, 1%Z)] 1 (Some 1))
  = Ok (ListColumn.mkCol [(0, 0%Z); (1, 1%Z); (3, 0%Z)] 1 (Some 3),
        ListColumn.mkCol [(1, 1%Z)] 1 (Some 1)).
Proof. split; [reflexivity|]. split; reflexivity. Qed.

(** On a boundary column the same calls clear the column instead. *)
Lemma boundary_column_scaling_by_zero_clears (cz : ListColumn.Z2_column) :
  ListColumn.mul_assign_z2 true true cz false = Ok (ListColumn.clear_z2 cz).
Proof. reflexivity. Qed.

(** ** Index overlay *)

(** The first line of [remove_last]: when the id-to-index dictionary is empty
    the call returns and the overlay, the overlaid matrix included, is
    unchanged, for every kind of matrix and of dictionary. *)
Lemma overlay_remove_last_on_empty
    (Matrix_type : Type)
    (matrix_remove_last : Matrix_type -> result Matrix_type)
    (matrix_pivotToColumnIndex : Matrix_type -> Overlay.dictionary)
    (is_of_boundary_type has_map_column_container debug : bool)
    (o : Overlay.Id_to_index_overlay Matrix_type) :
  Overlay.dict_empty (Overlay.idToIndex Matrix_type matrix_pivotToColumnIndex
                        is_of_boundary_type o) = true ->
  Overlay.remove_last Matrix_type matrix_remove_last matrix_pivotToColumnIndex
    is_of_boundary_type has_map_column_container debug o = Ok o.
Proof. intros Hempty. unfold Overlay.remove_last. rewrite Hempty. reflexivity. Qed.

Lemma overlay_remove_last_on_empty_witness :
  Overlay.remove_last nat counting_remove_last (fun _ => Overlay.Map ∅) true true true
    (Overlay.mkOverlay nat 0 (Overlay.Map ∅) 0)
  = Ok (Overlay.mkOverlay nat 0 (Overlay.Map ∅) 0).
Proof.
  apply (overlay_remove_last_on_empty nat counting_remove_last (fun _ => Overlay.Map ∅)
           true true true (Overlay.mkOverlay nat 0 (Overlay.Map ∅) 0)).
  reflexivity.
Defined.

(** A dictionary kept in a vector is not empty once it was sized, even when
    no index is assigned: [remove_last] then goes on to the matrix. *)
Lemma overlay_remove_last_sized_vector :
  Overlay.remove_last nat counting_remove_last (fun _ => Overlay.Vec []) true false true
    (Overlay.mkOverlay nat 0 (Overlay._initialize_map false 2) 0)
  = Throw logic_error.
Proof. reflexivity. Qed.

Lemma last_assigned_none (v : list Z) :
  (forall j y, v !! j = Some y -> y = Overlay.no_index) -> Overlay.last_assigned v = None.
Proof.
  induction v as [|x v IH]; intros Hall; [done|]. cbn [Overlay.last_assigned].
  rewrite IH by (intros j y Hj; by apply (Hall (S j))).
  by rewrite (Hall 0 x eq_refl), Z.eqb_refl.
Qed.

(** C10, on the code: the overlay of a boundary matrix whose dictionary is a
    vector, as [Id_to_index_overlay(numberOfColumns, colSettings)] builds it for a
    positive number of columns: the matrix has no column, but the dictionary
    holds the reserved slots, none with an index, and is not empty.
    [remove_last] passes its first line, calls [remove_last] of the empty
    matrix and, when that returns, looks for an identifier that has an index
    down to slot 0 and below.  It never returns the overlay unchanged. *)
Theorem overlay_remove_last_on_reserved_vector
    (Matrix_type : Type)
    (matrix_remove_last : Matrix_type -> result Matrix_type)
    (matrix_pivotToColumnIndex : Matrix_type -> Overlay.dictionary)
    (debug : bool) (matrix : Matrix_type) (numberOfColumns : nat) :
  Overlay.dict_empty (Overlay.own_idToIndex Matrix_type
                        (Overlay.reserved Matrix_type false matrix (S numberOfColumns)))
  = false /\
  Overlay.remove_last Matrix_type matrix_remove_last matrix_pivotToColumnIndex
    true false debug (Overlay.reserved Matrix_type false matrix (S numberOfColumns))
  = rbind (matrix_remove_last matrix) (fun _ => Undefined) /\
  forall o,
    Overlay.remove_last Matrix_type matrix_remove_last matrix_pivotToColumnIndex
      true false debug (Overlay.reserved Matrix_type false matrix (S numberOfColumns))
    <> Ok o.
Proof.
  assert (Hrun :
    Overlay.remove_last Matrix_type matrix_remove_last matrix_pivotToColumnIndex
      true false debug (Overlay.reserved Matrix_type false matrix (S numberOfColumns))
    = rbind (matrix_remove_last matrix) (fun _ => Undefined)).
  { unfold Overlay.remove_last, Overlay.reserved, Overlay.idToIndex, Overlay._initialize_map.
    cbn [Overlay.own_idToIndex Overlay.matrix_ Overlay.nextIndex_ Overlay.dict_empty
         replicate].
    rewrite bool_decide_eq_false_2 by discriminate.
    destruct (matrix_remove_last matrix) as [m| | |]; cbn [mbind result_bind rbind]; try done.
    unfold Overlay.erase_last_assigned.
    rewrite (last_assigned_none (Overlay.no_index :: replicate numberOfColumns Overlay.no_index));
      [done|].
    intros j y Hj. change (replicate (S numberOfColumns) Overlay.no_index !! j = Some y) in Hj.
    by apply lookup_replicate in Hj as [-> _]. }
  split; [reflexivity|]. split; [exact Hrun|].
  intros o. rewrite Hrun. destruct (matrix_remove_last matrix); discriminate.
Qed.

(** ** Representative cycles *)

Section RepCyclesFacts.
Import ChainMatrix RepCycles.

Variable unordered_column : bool.
Variable s : Chain_matrix.

Lemma visit_owner (acc : Chain_representative_cycles) (i : nat) (col : Column_type) :
  pivot_owner s i = Some col ->
  visit unordered_column s acc i =
    Ok (if surviving_birth s i
        then mkCycles (representativeCycles_ acc ++ [cycle_of unordered_column s i])
                      (<[i := Some (length (representativeCycles_ acc))]> (birthToCycle_ acc))
        else acc).
Proof.
  intros Hcol. unfold visit, surviving_birth, cycle_of, get_column_with_pivot, get_column, at_.
  rewrite Hcol. unfold pivot_owner in Hcol.
  destruct (pivotToColumnIndex_ s !! i) as [idx|]; [|done]. simpl.
  rewrite Hcol. simpl. unfold is_paired, get_paired_chain_index.
  assert (Hpos : forall n : nat, n + 1 - 1 = n) by lia.
  destruct (pairedColumn_ col) as [j|]; simpl.
  - destruct (i <? j)%nat; [|done]. by rewrite length_app, Hpos.
  - by rewrite length_app, Hpos.
Qed.

Lemma visit_all_spec (ids : list nat) (acc : Chain_representative_cycles) :
  NoDup ids ->
  (forall i, i ∈ ids -> is_Some (pivot_owner s i)) ->
  (forall i, i ∈ ids -> i < length (birthToCycle_ acc)) ->
  exists r,
    visit_all unordered_column s acc ids = Ok r /\
    representativeCycles_ r =
      representativeCycles_ acc ++
        map (cycle_of unordered_column s) (List.filter (surviving_birth s) ids) /\
    length (birthToCycle_ r) = length (birthToCycle_ acc) /\
    (forall i, i ∉ ids -> birthToCycle_ r !! i = birthToCycle_ acc !! i) /\
    (forall i, i ∈ ids -> surviving_birth s i = false ->
               birthToCycle_ r !! i = birthToCycle_ acc !! i) /\
    (forall k i, List.filter (surviving_birth s) ids !! k = Some i ->
                 birthToCycle_ r !! i = Some (Some (length (representativeCycles_ acc) + k))).
Proof.
  revert acc. induction ids as [|i ids IH]; intros acc Hnd Hown Hlen.
  { exists acc. simpl. rewrite app_nil_r. repeat split; try done. }
  apply NoDup_cons in Hnd as [Hi Hnd].
  destruct (Hown i ltac:(left)) as [col Hcol].
  simpl. rewrite (visit_owner acc i col Hcol). simpl.
  set (acc' := if surviving_birth s i then _ else acc).
  assert (Hlen' : length (birthToCycle_ acc') = length (birthToCycle_ acc)).
  { subst acc'. destruct (surviving_birth s i); [|done]. simpl. apply length_insert. }
  destruct (IH acc' Hnd) as (r & Hr & Hcycles & Hlenr & Hout & Hdead & Hbirth).
  { intros j Hj. apply Hown. by right. }
  { intros j Hj. rewrite Hlen'. apply Hlen. by right. }
  exists r. split; [done|].
  assert (Hi' : birthToCycle_ r !! i = birthToCycle_ acc' !! i) by (by apply Hout).
  split; [|split; [congruence|split; [|split]]].
  - rewrite Hcycles. subst acc'. destruct (surviving_birth s i); [|done].
    simpl. by rewrite <- app_assoc.
  - intros j Hj. apply not_elem_of_cons in Hj as [Hne Hj].
    rewrite (Hout j Hj). subst acc'. destruct (surviving_birth s i); [|done].
    simpl. by rewrite list_lookup_insert_ne.
  - intros j Hj Hs. apply elem_of_cons in Hj as [->|Hj].
    + rewrite Hi'. subst acc'. by rewrite Hs.
    + rewrite (Hdead j Hj Hs). subst acc'. destruct (surviving_birth s i) eqn:Hsi; [|done].
      simpl. rewrite list_lookup_insert_ne; [done|]. intros ->. contradiction.
  - intros k j Hk. subst acc'. destruct (surviving_birth s i) eqn:Hsi.
    + destruct k as [|k]; simpl in Hk.
      * injection Hk as <-. rewrite Hi'. simpl.
        rewrite list_lookup_insert_eq; [by rewrite Nat.add_0_r|].
        apply Hlen. left.
      * rewrite (Hbirth k j Hk). simpl. rewrite length_app. simpl.
        do 2 f_equal. lia.
    + by apply Hbirth.
Qed.

End RepCyclesFacts.

(** ** Chain matrix: sets and sorted lists *)

Section SortedFacts.

Lemma strictly_sorted_of_le (l : list nat) :
  StronglySorted Nat.le l -> NoDup l -> StronglySorted lt l.
Proof.
  induction 1 as [|a l Hs IH Ha]; intros Hnd; constructor.
  - apply IH. by apply NoDup_cons in Hnd as [_ ?].
  - apply NoDup_cons in Hnd as [Hnotin _].
    rewrite Forall_forall in *. intros x Hx.
    specialize (Ha x Hx). assert (a ≠ x) by (intros ->; contradiction). lia.
Qed.

Lemma strictly_sorted_ordered (s : gset nat) : StronglySorted lt (ordered s).
Proof.
  apply strictly_sorted_of_le; [|apply NoDup_ordered].
  apply (StronglySorted_merge_sort Nat.le).
Qed.

(** The last cell of a strictly increasing list is its largest row. *)
Lemma last_strictly_sorted (l : list nat) (m : nat) :
  StronglySorted lt l ->
  last l = Some m <-> m ∈ l /\ forall x, x ∈ l -> x <= m.
Proof.
  induction 1 as [|a l Hs IH Ha].
  { simpl. split; [done|]. intros [H _]. by apply elem_of_nil in H. }
  rewrite Forall_forall in Ha.
  destruct l as [|b l].
  { simpl. split.
    - intros [= ->]. split; [left|]. intros x Hx. apply list_elem_of_singleton in Hx. lia.
    - intros [Hm _]. apply list_elem_of_singleton in Hm. by subst. }
  change (last (a :: b :: l)) with (last (b :: l)). rewrite IH. split.
  - intros [Hm Hmax]. split; [by right|].
    intros x Hx. apply elem_of_cons in Hx as [->|Hx]; [|by apply Hmax].
    specialize (Ha m Hm). lia.
  - intros [Hm Hmax]. split.
    + apply elem_of_cons in Hm as [->|Hm]; [|done].
      specialize (Ha b ltac:(left)). specialize (Hmax b ltac:(right; left)). lia.
    + intros x Hx. apply Hmax. by right.
Qed.

Lemma last_is_Some (l : list nat) : l ≠ [] -> is_Some (last l).
Proof.
  induction l as [|a [|b l] IH]; intros H; [done|by eexists|].
  change (last (a :: b :: l)) with (last (b :: l)). by apply IH.
Qed.

Lemma ordered_empty (s : gset nat) : ordered s = [] <-> s = ∅.
Proof.
  split.
  - intros H. apply set_eq. intros x. rewrite <- elem_of_ordered, H. set_solver.
  - intros ->. destruct (ordered ∅) as [|x l] eqn:E; [done|].
    assert (x ∈ ordered ∅) as Hx by (rewrite E; left).
    apply elem_of_ordered in Hx. set_solver.
Qed.

Lemma last_ordered (s : gset nat) (m : nat) :
  last (ordered s) = Some m <-> m ∈ s /\ forall x, x ∈ s -> x <= m.
Proof.
  rewrite last_strictly_sorted by apply strictly_sorted_ordered.
  rewrite elem_of_ordered. split; intros [? H]; (split; [done|]); intros x Hx; apply H.
  - by apply elem_of_ordered.
  - by apply elem_of_ordered in Hx.
Qed.

Lemma is_empty_true (c : gset nat) : ChainMatrix.is_empty c = true <-> c = ∅.
Proof.
  unfold ChainMatrix.is_empty. rewrite bool_decide_eq_true, elements_empty_iff.
  by unfold_leibniz.
Qed.

Lemma is_empty_false (c : gset nat) : ChainMatrix.is_empty c = false <-> c ≠ ∅.
Proof.
  rewrite <- is_empty_true. destruct (ChainMatrix.is_empty c); naive_solver.
Qed.

Lemma get_last_Ok (c : gset nat) :
  c ≠ ∅ -> exists l, ChainMatrix.get_last c = Ok l /\ l ∈ c /\ forall x, x ∈ c -> x <= l.
Proof.
  intros Hne. unfold ChainMatrix.get_last.
  destruct (last_is_Some (ordered c)) as [l Hl].
  { by rewrite ordered_empty. }
  rewrite Hl. exists l. split; [done|]. by apply last_ordered.
Qed.

(** Adding a column to the temporary set is the symmetric difference. *)
Lemma elem_of_add_to (col : ChainMatrix.Column_type) (set : gset nat) (x : nat) :
  StronglySorted lt (ChainMatrix.column_ col) ->
  x ∈ ChainMatrix._add_to col set <->
    (x ∈ set /\ x ∉ ChainMatrix.column_ col) \/ ((x ∉ set) /\ x ∈ ChainMatrix.column_ col).
Proof.
  intros Hs. unfold ChainMatrix._add_to. apply elem_of_foldl_toggle.
  clear -Hs. induction Hs as [|a l Hs IH Ha]; constructor; [|done].
  rewrite Forall_forall in Ha. intros Hin. specialize (Ha _ Hin). lia.
Qed.

End SortedFacts.

(** ** Chain matrix *)

Section ChainMatrixFacts.
Import ChainMatrix.

Lemma consistent_empty : consistent empty_matrix.
Proof.
  split; simpl.
  - intros i. rewrite lookup_empty. split; [by intros [? ?]|lia].
  - intros k. lia.
  - intros k _. apply lookup_empty.
  - intros i c. by rewrite lookup_empty.
  - intros i c j. by rewrite lookup_empty.
  - intros k _. apply lookup_empty.
  - intros i c. by rewrite lookup_empty.
Qed.

Lemma at_Some {V : Type} (m : gmap nat V) (k : nat) (v : V) :
  m !! k = Some v -> at_ m k = Ok v.
Proof. intros H. unfold at_. by rewrite H. Qed.

Lemma at_None {V : Type} (m : gmap nat V) (k : nat) :
  m !! k = None -> at_ m k = Throw out_of_range.
Proof. intros H. unfold at_. by rewrite H. Qed.

Variable s : Chain_matrix.
Hypothesis Hs : consistent s.

Lemma cons_rows i c x :
  matrix_ s !! i = Some c -> x ∈ column_ c -> x <= i.
Proof.
  intros Hc Hx. destruct (cons_column s Hs i c Hc) as (_ & Hlast & Hsorted).
  apply last_strictly_sorted in Hlast as [_ Hmax]; auto.
Qed.

Lemma cons_pivot_row i c : matrix_ s !! i = Some c -> i ∈ column_ c.
Proof.
  intros Hc. destruct (cons_column s Hs i c Hc) as (_ & Hlast & Hsorted).
  by apply last_strictly_sorted in Hlast as [? _].
Qed.

Lemma cons_lookup i : i < nextInsertIndex_ s -> exists c, matrix_ s !! i = Some c.
Proof. intros Hi. by apply (cons_columns s Hs). Qed.

Lemma cons_pivot_lookup k : k < nextInsertIndex_ s -> pivotToColumnIndex_ s !! k = Some k.
Proof. apply (cons_pivots s Hs). Qed.

(** One reduction step removes the largest row of the column and adds only
    smaller ones. *)
Lemma reduce_step (column : gset nat) (l : nat) (c : Column_type) :
  l ∈ column -> (forall x, x ∈ column -> x <= l) ->
  matrix_ s !! l = Some c ->
  forall x, x ∈ _add_to c column -> x < l.
Proof.
  intros Hl Hmax Hc x Hx.
  destruct (cons_column s Hs l c Hc) as (_ & _ & Hsorted).
  apply elem_of_add_to in Hx; [|done].
  pose proof (cons_pivot_row l c Hc) as Hpl.
  assert (x ≠ l) by (intros ->; tauto).
  assert (x <= l); [|lia].
  destruct Hx as [[Hx _]|[_ Hx]]; [by apply Hmax|by eapply cons_rows].
Qed.

Lemma reduce_while_paired_spec (fuel : nat) :
  forall (column : gset nat) (H : list (option nat)) (l : nat),
    l ∈ column -> (forall x, x ∈ column -> x <= l) ->
    l < fuel -> l < nextInsertIndex_ s -> H_ok s H ->
    exists emptied column' H',
      reduce_while_paired s fuel column H l = Ok (emptied, column', H') /\
      H_ok s H' /\
      (forall x, x ∈ column' -> x <= l) /\
      if emptied : bool then column' = ∅
      else exists l' c, l' ∈ column' /\ (forall x, x ∈ column' -> x <= l') /\
                        matrix_ s !! l' = Some c /\ pairedColumn_ c = None.
Proof.
  induction fuel as [|fuel IH]; intros column H l Hl Hmax Hfuel Hn HH; [lia|].
  destruct (cons_lookup l Hn) as [c Hc].
  simpl. rewrite (at_Some _ _ _ Hc). simpl.
  unfold is_paired. destruct (pairedColumn_ c) as [j|] eqn:Hpaired.
  - unfold _reduce_by_G. rewrite (at_Some _ _ _ Hc). simpl.
    pose proof (reduce_step column l c Hl Hmax Hc) as Hstep.
    assert (HH' : H_ok s (H ++ [get_paired_chain_index c])).
    { apply Forall_app. split; [done|]. constructor; [|done].
      destruct (cons_paired s Hs l c j Hc Hpaired) as (_ & c' & Hc' & Hp').
      exists j, c'. unfold get_paired_chain_index. rewrite Hpaired. eauto. }
    destruct (is_empty (_add_to c column)) eqn:Hempty.
    + apply is_empty_true in Hempty.
      exists true, (_add_to c column), (H ++ [get_paired_chain_index c]).
      split; [done|]. split; [done|]. split; [|done].
      intros x Hx. specialize (Hstep x Hx). lia.
    + apply is_empty_false in Hempty.
      destruct (get_last_Ok _ Hempty) as (l' & Hlast & Hl' & Hmax').
      rewrite Hlast. simpl.
      pose proof (Hstep l' Hl') as Hlt.
      rewrite (at_Some _ _ _ (cons_pivot_lookup l' ltac:(lia))). simpl.
      destruct (IH (_add_to c column) (H ++ [get_paired_chain_index c]) l')
        as (emptied & column' & H' & Hrun & HH'' & Hbound & Hfinal); try done; try lia.
      exists emptied, column', H'. split; [done|]. split; [done|]. split; [|done].
      intros x Hx. specialize (Hbound x Hx). lia.
  - exists false, column, H. split; [done|]. split; [done|]. split; [done|].
    exists l, c. done.
Qed.


Lemma strongly_sorted_gt_snoc (E : list nat) (l : nat) :
  StronglySorted gt E -> (forall e, e ∈ E -> l < e) -> StronglySorted gt (E ++ [l]).
Proof.
  induction 1 as [|a E HE IH Ha]; intros Hl; simpl.
  - repeat constructor.
  - constructor.
    + apply IH. intros e He. apply Hl. by right.
    + apply Forall_app. split; [done|]. constructor; [|done].
      specialize (Hl a ltac:(left)). lia.
Qed.

Lemma reduce_until_empty_spec (fuel : nat) :
  forall (column : gset nat) (H : list (option nat)) (E : list nat),
    (forall x, x ∈ column -> x + 1 < fuel) -> 1 <= fuel ->
    (forall x, x ∈ column -> x < nextInsertIndex_ s) ->
    H_ok s H -> E_ok s E ->
    (forall e x, e ∈ E -> x ∈ column -> x < e) ->
    exists H' E2,
      reduce_until_empty s fuel column H E = Ok (∅, H', E ++ E2) /\
      H_ok s H' /\ E_ok s (E ++ E2) /\
      (forall l c, l ∈ column -> (forall x, x ∈ column -> x <= l) ->
                   matrix_ s !! l = Some c -> pairedColumn_ c = None ->
                   exists rest, E2 = l :: rest).
Proof.
  induction fuel as [|fuel IH]; intros column H E Hfuel Hpos Hn HH HE Hlt; [lia|].
  simpl. destruct (is_empty column) eqn:Hempty.
  { apply is_empty_true in Hempty. subst column.
    exists H, []. rewrite app_nil_r. split; [done|]. split; [done|]. split; [done|].
    intros l c Hl. set_solver. }
  apply is_empty_false in Hempty.
  destruct (get_last_Ok _ Hempty) as (l & Hlast & Hl & Hmax).
  rewrite Hlast. simpl.
  pose proof (Hn l Hl) as Hln.
  rewrite (at_Some _ _ _ (cons_pivot_lookup l Hln)). simpl.
  destruct (cons_lookup l Hln) as [c Hc].
  rewrite (at_Some _ _ _ Hc). simpl.
  pose proof (reduce_step column l c Hl Hmax Hc) as Hstep.
  pose proof (Hfuel l Hl) as Hlf.
  unfold is_paired. destruct (pairedColumn_ c) as [j|] eqn:Hpaired; simpl.
  - unfold _reduce_by_G. rewrite (at_Some _ _ _ Hc). simpl.
    destruct (IH (_add_to c column) (H ++ [get_paired_chain_index c]) E)
      as (H' & E2 & Hrun & HH' & HE' & Hfirst); try done.
    + intros x Hx. specialize (Hstep x Hx). lia.
    + lia.
    + intros x Hx. specialize (Hstep x Hx). lia.
    + apply Forall_app. split; [done|]. constructor; [|done].
      destruct (cons_paired s Hs l c j Hc Hpaired) as (_ & c' & Hc' & Hp').
      exists j, c'. unfold get_paired_chain_index. rewrite Hpaired. eauto.
    + intros e x He Hx. specialize (Hstep x Hx). specialize (Hlt e l He Hl). lia.
    + exists H', E2. split; [done|]. split; [done|]. split; [done|].
      intros l0 c0 Hl0 Hmax0 Hc0 Hp0.
      assert (l0 = l) as -> by (specialize (Hmax l0 Hl0); specialize (Hmax0 l Hl); lia).
      congruence.
  - unfold _reduce_by_F. rewrite (at_Some _ _ _ Hc). simpl.
    destruct (IH (_add_to c column) H (E ++ [l]))
      as (H' & E2 & Hrun & HH' & HE' & Hfirst); try done.
    + intros x Hx. specialize (Hstep x Hx). lia.
    + lia.
    + intros x Hx. specialize (Hstep x Hx). lia.
    + destruct HE as [HE1 HE2]. split.
      * apply Forall_app. split; [done|]. constructor; [|done]. eauto.
      * apply strongly_sorted_gt_snoc; [done|]. intros e He. by apply Hlt.
    + intros e x He Hx. specialize (Hstep x Hx).
      apply elem_of_app in He as [He|He].
      * specialize (Hlt e l He Hl). lia.
      * apply list_elem_of_singleton in He. lia.
    + rewrite <- app_assoc in Hrun, HE'. simpl in Hrun, HE'.
      exists H', (l :: E2). split; [done|]. split; [done|]. split; [done|].
      intros l0 c0 Hl0 Hmax0 Hc0 Hp0.
      assert (l0 = l) as -> by (specialize (Hmax l0 Hl0); specialize (Hmax0 l Hl); lia).
      eauto.
Qed.

End ChainMatrixFacts.

Section MonadSteps.
Import ChainMatrix.

Lemma bind_reads {A B : Type} (f : Chain_matrix -> result A) (k : A -> M B) s a :
  f s = Ok a -> (reads f ≫= k) s = k a s.
Proof. intros H. unfold mbind, M_bind, bind, reads. by rewrite H. Qed.

Lemma bind_reads_throw {A B : Type} (f : Chain_matrix -> result A) (k : A -> M B) s e :
  f s = Throw e -> (reads f ≫= k) s = (Throw e, s).
Proof. intros H. unfold mbind, M_bind, bind, reads. by rewrite H. Qed.

Lemma bind_lift {A B : Type} (r : result A) (k : A -> M B) s a :
  r = Ok a -> (lift r ≫= k) s = k a s.
Proof. intros ->. reflexivity. Qed.

Lemma bind_modify {B : Type} (f : Chain_matrix -> Chain_matrix) (k : unit -> M B) s :
  (modify f ≫= k) s = k tt (f s).
Proof. reflexivity. Qed.

Lemma bind_gets {A B : Type} (f : Chain_matrix -> A) (k : A -> M B) s :
  (gets f ≫= k) s = k (f s) s.
Proof. reflexivity. Qed.

Lemma bind_assoc {A B C : Type} (m : M A) (k : A -> M B) (k' : B -> M C) s :
  ((m ≫= k) ≫= k') s = (m ≫= (fun a => k a ≫= k')) s.
Proof.
  unfold mbind, M_bind, bind. destruct (m s) as [[a| | |] s']; reflexivity.
Qed.

Lemma bind_run {A B : Type} (m : M A) (k : A -> M B) s a s' :
  m s = (Ok a, s') -> (m ≫= k) s = k a s'.
Proof. intros H. unfold mbind, M_bind, bind. by rewrite H. Qed.

End MonadSteps.

Ltac simpl_state :=
  unfold ChainMatrix.set_matrix, ChainMatrix.set_pivotToColumnIndex,
    ChainMatrix.set_nextInsertIndex, ChainMatrix.set_dimensions, ChainMatrix.set_barcode;
  cbn [ChainMatrix.matrix_ ChainMatrix.pivotToColumnIndex_ ChainMatrix.nextInsertIndex_
       ChainMatrix.dimensions_ ChainMatrix.maxDim_ ChainMatrix.barcode_
       ChainMatrix.indexToBar_].

Section ChainMatrixSteps.
Import ChainMatrix.
Variable impl : column_impl.

Lemma emplace_new {V : Type} (k : nat) (v : V) (m : gmap nat V) :
  m !! k = None -> emplace k v m = <[k := v]> m.
Proof. intros H. unfold emplace. by rewrite H. Qed.

Lemma get_last_max (column : gset nat) (n : nat) :
  n ∈ column -> (forall x, x ∈ column -> x <= n) -> get_last column = Ok n.
Proof.
  intros Hn Hmax. unfold get_last.
  by rewrite (proj2 (last_ordered column n) (conj Hn Hmax)).
Qed.

Lemma emplace_chain_run (column : gset nat) (d : Z) (s : Chain_matrix) :
  consistent s ->
  nextInsertIndex_ s ∈ column -> (forall x, x ∈ column -> x <= nextInsertIndex_ s) ->
  emplace_chain column d s =
    (Ok tt, set_matrix <[nextInsertIndex_ s := new_column column d]>
              (set_pivotToColumnIndex <[nextInsertIndex_ s := nextInsertIndex_ s]> s)).
Proof.
  intros Hs Hn Hmax. unfold emplace_chain.
  rewrite (bind_lift _ _ _ _ (get_last_max _ _ Hn Hmax)).
  rewrite bind_modify. unfold modify. simpl_state.
  rewrite (emplace_new _ _ (pivotToColumnIndex_ s))
    by (apply (cons_pivot_keys s Hs); lia).
  rewrite (emplace_new _ _ (matrix_ s)); [done|].
  apply eq_None_not_Some. rewrite (cons_columns s Hs). lia.
Qed.

Lemma _insert_chain_run (column : gset nat) (d : Z) (s : Chain_matrix) :
  consistent s ->
  nextInsertIndex_ s ∈ column -> (forall x, x ∈ column -> x <= nextInsertIndex_ s) ->
  _insert_chain column d s = (Ok tt, with_essential_chain column d s).
Proof.
  intros Hs Hn Hmax. unfold _insert_chain.
  rewrite (bind_run _ _ _ _ _ (emplace_chain_run column d s Hs Hn Hmax)).
  rewrite bind_modify. unfold modify. simpl_state.
  rewrite (emplace_new _ _ (indexToBar_ s)) by (apply (cons_bar_keys s Hs); lia).
  reflexivity.
Qed.

Lemma _insert_chain_paired_run (column : gset nat) (d : Z) (pair : nat)
    (p : Column_type) (pos : nat) (bar : Bar) (s : Chain_matrix) :
  consistent s ->
  nextInsertIndex_ s ∈ column -> (forall x, x ∈ column -> x <= nextInsertIndex_ s) ->
  matrix_ s !! pair = Some p ->
  indexToBar_ s !! pair = Some pos ->
  barcode_ s !! pos = Some bar ->
  _insert_chain_paired column d pair s = (Ok tt, with_paired_chain column d pair p pos bar s).
Proof.
  intros Hs Hn Hmax Hp Hpos Hbar.
  assert (Hlt : pair < nextInsertIndex_ s) by (apply (cons_columns s Hs); eauto).
  destruct (cons_column s Hs pair p Hp) as (Hpivot & _ & _).
  unfold _insert_chain_paired.
  rewrite (bind_run _ _ _ _ _ (emplace_chain_run column d s Hs Hn Hmax)).
  erewrite bind_reads; [|simpl_state; apply at_Some, lookup_insert_eq].
  rewrite bind_modify. simpl_state. rewrite insert_insert_eq.
  erewrite bind_reads;
    [|simpl_state; apply at_Some; rewrite lookup_insert_ne by lia; exact Hp].
  rewrite bind_modify. simpl_state.
  erewrite bind_reads; [|simpl_state; apply at_Some, lookup_insert_eq].
  erewrite bind_reads; [|simpl_state; unfold get_pivot, assign_paired_chain; simpl;
                         rewrite Hpivot; simpl; apply at_Some, Hpos].
  erewrite bind_reads; [|simpl_state; unfold set_death; rewrite Hbar; reflexivity].
  rewrite bind_modify. simpl_state.
  erewrite bind_reads; [|simpl_state; apply at_Some, lookup_insert_eq].
  erewrite bind_reads; [|simpl_state; unfold get_pivot, assign_paired_chain; simpl;
                         rewrite Hpivot; simpl; apply at_Some, Hpos].
  rewrite bind_modify. unfold modify. simpl_state.
  rewrite (emplace_new _ _ (indexToBar_ s)) by (apply (cons_bar_keys s Hs); lia).
  reflexivity.
Qed.

Lemma consistent_with_essential_chain (column : gset nat) (d : Z) (s : Chain_matrix) :
  consistent s ->
  nextInsertIndex_ s ∈ column -> (forall x, x ∈ column -> x <= nextInsertIndex_ s) ->
  consistent (with_essential_chain column d s).
Proof.
  intros Hs Hn Hmax. set (n := nextInsertIndex_ s) in *.
  assert (Hnew : matrix_ s !! n = None).
  { apply eq_None_not_Some. rewrite (cons_columns s Hs). lia. }
  split; unfold with_essential_chain; fold n; simpl.
  - intros i. destruct (decide (i = n)) as [->|Hne].
    + rewrite lookup_insert_eq. split; [lia|eauto].
    + rewrite lookup_insert_ne by done. rewrite (cons_columns s Hs). fold n. lia.
  - intros k Hk. destruct (decide (k = n)) as [->|Hne].
    + by rewrite lookup_insert_eq.
    + rewrite lookup_insert_ne by done. apply (cons_pivots s Hs). fold n. lia.
  - intros k Hk. rewrite lookup_insert_ne by lia. apply (cons_pivot_keys s Hs). fold n. lia.
  - intros i c. destruct (decide (i = n)) as [->|Hne].
    + rewrite lookup_insert_eq. intros [= <-]. simpl.
      rewrite (proj2 (last_ordered column n) (conj Hn Hmax)).
      split; [done|]. split; [done|]. apply strictly_sorted_ordered.
    + rewrite lookup_insert_ne by done. apply (cons_column s Hs).
  - intros i c j. destruct (decide (i = n)) as [->|Hne].
    + rewrite lookup_insert_eq. intros [= <-]. done.
    + rewrite lookup_insert_ne by done. intros Hc Hp.
      destruct (cons_paired s Hs i c j Hc Hp) as (Hij & c' & Hc' & Hp').
      split; [done|]. exists c'. split; [|done].
      rewrite lookup_insert_ne; [done|]. intros <-. congruence.
  - intros k Hk. rewrite lookup_insert_ne by lia. apply (cons_bar_keys s Hs). fold n. lia.
  - intros i c. destruct (decide (i = n)) as [->|Hne].
    + rewrite lookup_insert_eq. intros [= <-].
      exists (length (barcode_ s)), d. rewrite lookup_insert_eq.
      split; [done|]. by rewrite lookup_app_r, Nat.sub_diag.
    + rewrite lookup_insert_ne by done. intros Hc.
      destruct (cons_bar s Hs i c Hc) as (pos & d' & Hpos & Hbar).
      exists pos, d'. rewrite lookup_insert_ne by done. split; [done|].
      by apply lookup_app_l_Some.
Qed.

Lemma birth_death_paired (i j : nat) (c : Column_type) :
  pairedColumn_ c = Some j ->
  birth_of i c = Z.of_nat (Nat.min i j) /\ death_of i c = Z.of_nat (Nat.max i j).
Proof. intros H. unfold birth_of, death_of. by rewrite H. Qed.

Lemma birth_death_unpaired (i : nat) (c : Column_type) :
  pairedColumn_ c = None -> birth_of i c = Z.of_nat i /\ death_of i c = (-1)%Z.
Proof. intros H. unfold birth_of, death_of. by rewrite H. Qed.

Lemma consistent_with_paired_chain (column : gset nat) (d : Z) (pair : nat)
    (p : Column_type) (pos : nat) (bar : Bar) (s : Chain_matrix) :
  consistent s ->
  nextInsertIndex_ s ∈ column -> (forall x, x ∈ column -> x <= nextInsertIndex_ s) ->
  matrix_ s !! pair = Some p -> pairedColumn_ p = None ->
  indexToBar_ s !! pair = Some pos ->
  barcode_ s !! pos = Some bar ->
  consistent (with_paired_chain column d pair p pos bar s).
Proof.
  intros Hs Hn Hmax Hp Hunpaired Hpos Hbar. set (n := nextInsertIndex_ s) in *.
  assert (Hnew : matrix_ s !! n = None).
  { apply eq_None_not_Some. rewrite (cons_columns s Hs). lia. }
  assert (Hlt : pair < n) by (apply (cons_columns s Hs); eauto).
  destruct (cons_column s Hs pair p Hp) as (Hpp & Hpl & Hps).
  destruct (cons_bar s Hs pair p Hp) as (pos' & d0 & Hpos' & Hbar').
  assert (pos' = pos) as -> by congruence.
  destruct (birth_death_unpaired pair p Hunpaired) as [Hb Hd].
  rewrite Hb, Hd in Hbar'. assert (bar = mkBar d0 (Z.of_nat pair) (-1)) as -> by congruence.
  split; unfold with_paired_chain; fold n; simpl.
  - intros i. destruct (decide (i = pair)) as [->|Hne].
    + rewrite lookup_insert_eq. split; [lia|eauto].
    + rewrite lookup_insert_ne by done. destruct (decide (i = n)) as [->|Hne'].
      * rewrite lookup_insert_eq. split; [lia|eauto].
      * rewrite lookup_insert_ne by done. rewrite (cons_columns s Hs). fold n. lia.
  - intros k Hk. destruct (decide (k = n)) as [->|Hne].
    + by rewrite lookup_insert_eq.
    + rewrite lookup_insert_ne by done. apply (cons_pivots s Hs). fold n. lia.
  - intros k Hk. rewrite lookup_insert_ne by lia. apply (cons_pivot_keys s Hs). fold n. lia.
  - intros i c. destruct (decide (i = pair)) as [->|Hne].
    + rewrite lookup_insert_eq. intros [= <-]. simpl. done.
    + rewrite lookup_insert_ne by done. destruct (decide (i = n)) as [->|Hne'].
      * rewrite lookup_insert_eq. intros [= <-]. simpl.
        rewrite (proj2 (last_ordered column n) (conj Hn Hmax)).
        split; [done|]. split; [done|]. apply strictly_sorted_ordered.
      * rewrite lookup_insert_ne by done. apply (cons_column s Hs).
  - intros i c j. destruct (decide (i = pair)) as [->|Hne].
    + rewrite lookup_insert_eq. intros [= <-]. simpl. intros [= <-].
      split; [lia|]. rewrite lookup_insert_ne by lia. rewrite lookup_insert_eq. eauto.
    + rewrite lookup_insert_ne by done. destruct (decide (i = n)) as [->|Hne'].
      * rewrite lookup_insert_eq. intros [= <-]. simpl. intros [= <-].
        split; [lia|]. rewrite lookup_insert_eq. eauto.
      * rewrite lookup_insert_ne by done. intros Hc Hpc.
        destruct (cons_paired s Hs i c j Hc Hpc) as (Hij & c' & Hc' & Hp').
        split; [done|]. exists c'. split; [|done].
        rewrite !lookup_insert_ne; [done|intros <-; congruence|intros <-; congruence].
  - intros k Hk. rewrite lookup_insert_ne by lia. apply (cons_bar_keys s Hs). fold n. lia.
  - intros i c. destruct (decide (i = pair)) as [->|Hne].
    + rewrite lookup_insert_eq. intros [= <-].
      exists pos, d0. rewrite lookup_insert_ne by lia. split; [done|].
      rewrite list_lookup_insert_eq by (by eapply lookup_lt_Some).
      unfold birth_of, death_of. simpl. do 2 f_equal; f_equal; lia.
    + rewrite lookup_insert_ne by done. destruct (decide (i = n)) as [->|Hne'].
      * rewrite lookup_insert_eq. intros [= <-].
        exists pos, d0. rewrite lookup_insert_eq. split; [done|].
        rewrite list_lookup_insert_eq by (by eapply lookup_lt_Some).
        unfold birth_of, death_of. simpl. do 2 f_equal; f_equal; lia.
      * rewrite lookup_insert_ne by done. intros Hc.
        destruct (cons_bar s Hs i c Hc) as (posi & di & Hposi & Hbari).
        exists posi, di. rewrite lookup_insert_ne by done. split; [done|].
        rewrite list_lookup_insert_ne; [done|]. intros <-.
        rewrite Hbar in Hbari. injection Hbari as _ Hbi Hdi.
        unfold birth_of, death_of in *.
        destruct (pairedColumn_ c); [lia|]. lia.
Qed.

(** [pivotIsZeroed] is raised only by a row that both columns have. *)
Lemma _add_z2_flag nb bt (p : option nat) (t src : list nat) :
  (ListColumn._add_z2 nb bt p t src).2 = true ->
  exists r, p = Some r /\ r ∈ t /\ r ∈ src.
Proof.
  revert src. induction t as [|t0 t IHt]; intros src.
  { by rewrite _add_z2_nil_l. }
  induction src as [|s0 src IHs].
  { by rewrite _add_z2_nil_r. }
  rewrite _add_z2_cons.
  destruct (Nat.ltb_spec t0 s0) as [Hlt|Hge].
  - specialize (IHt (s0 :: src)). destruct (ListColumn._add_z2 nb bt p t (s0 :: src)) as [r z].
    simpl in *. intros Hz. destruct (IHt Hz) as (x & ? & ? & ?).
    exists x. split; [done|]. split; [by right|done].
  - destruct (Nat.ltb_spec s0 t0) as [Hlt|Hge'].
    + destruct (ListColumn._add_z2 nb bt p (t0 :: t) src) as [r z].
      simpl in *. intros Hz. destruct (IHs Hz) as (x & ? & ? & ?).
      exists x. split; [done|]. split; [done|by right].
    + assert (s0 = t0) as -> by lia.
      specialize (IHt src). destruct (ListColumn._add_z2 nb bt p t src) as [r z].
      simpl in *. intros Hz. apply orb_true_iff in Hz as [Hz|Hz].
      * apply andb_true_iff in Hz as [_ Hz]. apply bool_decide_eq_true in Hz.
        exists t0. split; [done|]. split; left.
      * destruct (IHt Hz) as (x & ? & ? & ?).
        exists x. split; [done|]. split; by right.
Qed.

(** Replacing the cells of a column by cells with the same largest row keeps
    the matrix consistent. *)
Lemma consistent_set_cells (s : Chain_matrix) (target : nat) (ct : Column_type)
    (cells : list nat) :
  consistent s -> matrix_ s !! target = Some ct ->
  StronglySorted lt cells -> last cells = Some target ->
  consistent (set_matrix
                <[target := mkColumn cells (dim_ ct) (pivot_ ct) (pairedColumn_ ct)]> s).
Proof.
  intros Hs Hct Hsorted Hlast.
  split; simpl_state.
  - intros i. destruct (decide (i = target)) as [->|Hne].
    + rewrite lookup_insert_eq. rewrite <- (cons_columns s Hs). split; eauto.
    + rewrite lookup_insert_ne by done. apply (cons_columns s Hs).
  - apply (cons_pivots s Hs).
  - apply (cons_pivot_keys s Hs).
  - intros i c. destruct (decide (i = target)) as [->|Hne].
    + rewrite lookup_insert_eq. intros [= <-]. simpl.
      destruct (cons_column s Hs target ct Hct) as (? & _ & _). done.
    + rewrite lookup_insert_ne by done. apply (cons_column s Hs).
  - intros i c j Hc Hp.
    assert (exists c0, matrix_ s !! i = Some c0 /\ pairedColumn_ c0 = Some j) as (c0 & Hc0 & Hp0).
    { destruct (decide (i = target)) as [->|Hne].
      - rewrite lookup_insert_eq in Hc. injection Hc as <-. eauto.
      - rewrite lookup_insert_ne in Hc by done. eauto. }
    destruct (cons_paired s Hs i c0 j Hc0 Hp0) as (Hij & c' & Hc' & Hp').
    split; [done|]. destruct (decide (j = target)) as [->|Hne].
    + rewrite lookup_insert_eq. eexists. split; [done|]. simpl. congruence.
    + rewrite lookup_insert_ne by done. eauto.
  - apply (cons_bar_keys s Hs).
  - intros i c Hc.
    assert (exists c0, matrix_ s !! i = Some c0 /\ pairedColumn_ c0 = pairedColumn_ c)
      as (c0 & Hc0 & Hp0).
    { destruct (decide (i = target)) as [->|Hne].
      - rewrite lookup_insert_eq in Hc. injection Hc as <-. eauto.
      - rewrite lookup_insert_ne in Hc by done. eauto. }
    destruct (cons_bar s Hs i c0 Hc0) as (pos & d & Hpos & Hbar).
    exists pos, d. split; [done|]. unfold birth_of, death_of in *. by rewrite <- Hp0.
Qed.

(** Adding a column with a smaller pivot: only the cells of the target change. *)
Lemma add_to_run (s : Chain_matrix) (source target : nat) (ct cs : Column_type) :
  consistent s ->
  matrix_ s !! target = Some ct -> matrix_ s !! source = Some cs ->
  source < target ->
  exists cells,
    add_to impl source target s =
      (Ok tt, set_matrix
                <[target := mkColumn cells (dim_ ct) (pivot_ ct) (pairedColumn_ ct)]> s) /\
    StronglySorted lt cells /\ last cells = Some target.
Proof.
  intros Hs Hct Hcs Hlt.
  destruct (cons_column s Hs target ct Hct) as (Hpt & Hlt_t & Hst).
  destruct (cons_column s Hs source cs Hcs) as (Hps & Hlt_s & Hss).
  pose proof (_add_z2_cells true false (pivot_ ct) _ _ Hst Hss) as [Hsorted Hmem].
  pose proof (_add_z2_flag true false (pivot_ ct) (column_ ct) (column_ cs)) as Hflag.
  assert (Htin : target ∈ column_ ct) by (by apply last_strictly_sorted in Hlt_t as [? _]).
  assert (Hnotin : target ∉ column_ cs).
  { intros Hin. apply last_strictly_sorted in Hlt_s as [_ Hmax]; [|done].
    specialize (Hmax _ Hin). lia. }
  exists (ListColumn._add_z2 true false (pivot_ ct) (column_ ct) (column_ cs)).1.
  split; [|split; [done|]].
  - unfold add_to.
    erewrite bind_reads; [|by apply at_Some].
    erewrite bind_reads; [|by apply at_Some].
    rewrite decide_False by lia.
    destruct (ListColumn._add_z2 true false (pivot_ ct) (column_ ct) (column_ cs))
      as [cells z] eqn:Hadd. simpl in *.
    assert (z = false) as ->.
    { destruct z; [|done]. destruct (Hflag eq_refl) as (r & Hr & _ & Hrs).
      rewrite Hpt in Hr. injection Hr as <-. contradiction. }
    destruct impl.
    + rewrite bind_modify. rewrite Hpt. simpl.
      rewrite bool_decide_eq_true_2; [done|]. apply Hmem. left. done.
    + reflexivity.
  - apply last_strictly_sorted; [done|]. split.
    + apply Hmem. left. done.
    + intros x Hx. apply Hmem in Hx as [[Hx _]|[_ Hx]].
      * apply last_strictly_sorted in Hlt_t as [_ Hmax]; auto.
      * apply last_strictly_sorted in Hlt_s as [_ Hmax]; [|done].
        specialize (Hmax _ Hx). lia.
Qed.

Lemma frame_refl fp s : frame fp s s.
Proof. repeat split; eauto. Qed.

Lemma frame_trans fp s1 s2 s3 : frame fp s1 s2 -> frame fp s2 s3 -> frame fp s1 s3.
Proof.
  intros (E1 & E2 & E3 & E4 & E5 & E6 & Ho & Hfp) (F1 & F2 & F3 & F4 & F5 & F6 & Ho' & Hfp').
  split; [by rewrite F1|]. split; [by rewrite F2|]. split; [by rewrite F3|].
  split; [by rewrite F4|]. split; [by rewrite F5|]. split; [by rewrite F6|]. split.
  - intros i Hi. rewrite Ho', Ho; done.
  - intros c Hc. destruct (Hfp c Hc) as (c' & Hc' & ? & ? & ?).
    destruct (Hfp' c' Hc') as (c'' & Hc'' & ? & ? & ?).
    exists c''. repeat split; congruence.
Qed.

Lemma frame_set_cells fp s c cells :
  matrix_ s !! fp = Some c ->
  frame fp s (set_matrix <[fp := mkColumn cells (dim_ c) (pivot_ c) (pairedColumn_ c)]> s).
Proof.
  intros Hc. repeat split; simpl_state.
  - intros i Hi. by rewrite lookup_insert_ne.
  - intros c0 Hc0. rewrite lookup_insert_eq. assert (c0 = c) as -> by congruence.
    eexists. split; [reflexivity|]. simpl. done.
Qed.

Lemma add_others_to_spec (fp : nat) (others : list nat) :
  forall s, consistent s -> fp < nextInsertIndex_ s ->
    (forall o, o ∈ others -> o < fp) ->
    exists s', add_others_to impl others fp s = (Ok tt, s') /\ consistent s' /\ frame fp s s'.
Proof.
  induction others as [|o others IH]; intros s Hs Hfp Hlt; simpl.
  - exists s. split; [done|]. split; [done|]. apply frame_refl.
  - destruct (cons_lookup s Hs fp Hfp) as [ct Hct].
    assert (Ho : o < fp) by (apply Hlt; left).
    destruct (cons_lookup s Hs o ltac:(lia)) as [cs Hcs].
    destruct (add_to_run s o fp ct cs Hs Hct Hcs Ho) as (cells & Hrun & Hsorted & Hlast).
    rewrite (bind_run _ _ _ _ _ Hrun).
    destruct (IH (set_matrix <[fp := mkColumn cells (dim_ ct) (pivot_ ct) (pairedColumn_ ct)]> s))
      as (s' & Hrun' & Hs' & Hframe).
    + by apply consistent_set_cells.
    + done.
    + intros o' Ho'. apply Hlt. by right.
    + exists s'. split; [done|]. split; [done|].
      eapply frame_trans; [|done]. by apply frame_set_cells.
Qed.

Lemma _add_to_sym_diff (c : Column_type) (column : gset nat) :
  StronglySorted lt (column_ c) -> _add_to c column = sym_diff column (rows c).
Proof.
  intros Hs. apply set_eq. intros x. rewrite elem_of_add_to by done.
  unfold sym_diff, rows.
  rewrite elem_of_union, !elem_of_difference, elem_of_list_to_set. tauto.
Qed.

Lemma add_chains_in_H_spec (s : Chain_matrix) (H : list (option nat)) :
  consistent s -> H_ok s H ->
  forall column,
    nextInsertIndex_ s ∈ column -> (forall x, x ∈ column -> x <= nextInsertIndex_ s) ->
    exists column',
      add_chains_in_H s column H = Ok column' /\
      column' = foldl sym_diff column (H_rows s <$> H) /\
      nextInsertIndex_ s ∈ column' /\ (forall x, x ∈ column' -> x <= nextInsertIndex_ s).
Proof.
  intros Hs. induction 1 as [|h H (j & c & -> & Hc & _) HH IH]; intros column Hn Hmax; simpl.
  - exists column. done.
  - rewrite (at_Some _ _ _ Hc). simpl.
    destruct (cons_column s Hs j c Hc) as (_ & _ & Hsorted).
    assert (Hj : j < nextInsertIndex_ s) by (apply (cons_columns s Hs); eauto).
    destruct (IH (_add_to c column)) as (column' & Hrun & Heq & Hn' & Hmax').
    + apply elem_of_add_to; [done|]. left. split; [done|].
      intros Hin. pose proof (cons_rows s Hs j c _ Hc Hin). lia.
    + intros x Hx. apply elem_of_add_to in Hx; [|done].
      destruct Hx as [[Hx _]|[_ Hx]].
      * by apply Hmax.
      * pose proof (cons_rows s Hs j c _ Hc Hx). lia.
    + exists column'. split; [done|]. split; [|done].
      rewrite Heq. rewrite Hc. by rewrite _add_to_sym_diff.
Qed.

Lemma list_to_set_ordered (c : gset nat) : list_to_set (ordered c) = c.
Proof. apply set_eq. intros x. by rewrite elem_of_list_to_set, elem_of_ordered. Qed.

Lemma H_ok_frame fp s s' H c :
  consistent s -> frame fp s s' ->
  matrix_ s !! fp = Some c -> pairedColumn_ c = None ->
  H_ok s H -> H_ok s' H /\ H_rows s' <$> H = H_rows s <$> H.
Proof.
  intros Hs (_ & _ & _ & _ & _ & _ & Ho & _) Hc Hp HH.
  induction HH as [|h H (j & cj & -> & Hcj & Hpj) HH [IH1 IH2]];
    [split; [constructor|done]|].
  assert (j ≠ fp).
  { intros ->. rewrite Hc in Hcj. injection Hcj as <-. rewrite Hp in Hpj.
    by destruct Hpj. }
  split.
  - constructor; [|done]. exists j, cj. by rewrite Ho.
  - rewrite !fmap_cons. f_equal; [|done]. simpl. by rewrite Ho.
Qed.

Lemma _reduce_boundary_ok (s : Chain_matrix) (boundary : list nat) :
  consistent s ->
  (forall x, x ∈ boundary -> x < nextInsertIndex_ s) ->
  exists H E s',
    reduction s boundary = Ok (H, E) /\
    _reduce_boundary impl boundary [] s = (Ok tt, s') /\
    consistent s' /\ inserted s boundary H E s' /\
    dimensions_ s' = dimensions_ s /\ maxDim_ s' = maxDim_ s.
Proof.
  intros Hs Hb. set (n := nextInsertIndex_ s) in *.
  set (d := Z.of_nat (boundary_dim boundary)).
  unfold _reduce_boundary, reduction. fold d.
  destruct (length boundary =? 0)%nat eqn:Hlen.
  { (* a vertex: the column is the new index alone *)
    apply Nat.eqb_eq, nil_length_inv in Hlen. subst boundary.
    rewrite bind_gets. fold n.
    set (chain := (list_to_set [] ∪ {[n]} : gset nat)).
    assert (Hchain : chain = {[n]}) by apply (left_id_L ∅ (∪)).
    assert (Hn : n ∈ chain) by (rewrite Hchain; by apply elem_of_singleton).
    assert (Hmax : forall x, x ∈ chain -> x <= n).
    { intros x Hx. rewrite Hchain in Hx. apply elem_of_singleton in Hx. lia. }
    exists [], [], (with_essential_chain chain d s).
    split; [done|]. split; [by apply _insert_chain_run|].
    split; [by apply consistent_with_essential_chain|].
    split; [|done].
    split; [done|]. eexists. unfold with_essential_chain. fold n.
    cbn [matrix_ barcode_ indexToBar_].
    split; [apply lookup_insert_eq|]. unfold new_column. cbn [pivot_ dim_ pairedColumn_].
    rewrite (proj2 (last_ordered _ n) (conj Hn Hmax)).
    split; [done|]. split; [done|]. split.
    { unfold rows. cbn [column_]. by rewrite list_to_set_ordered. }
    split; [done|]. split; [|done]. intros i Hi. by rewrite lookup_insert_ne. }
  set (column := list_to_set boundary : gset nat).
  assert (Hne : column ≠ ∅).
  { destruct boundary as [|x b]; [done|]. subst column.
    intros Hempty. assert (Hx : x ∈ (list_to_set (x :: b) : gset nat)).
    { apply elem_of_list_to_set. left. }
    rewrite Hempty in Hx. by apply not_elem_of_empty in Hx. }
  assert (Hcol : forall x, x ∈ column -> x < n).
  { intros x Hx. apply Hb. subst column. by apply elem_of_list_to_set in Hx. }
  destruct (get_last_Ok _ Hne) as (l & Hlast & Hl & Hmax).
  rewrite (bind_lift _ _ _ _ Hlast). rewrite Hlast. cbn [mbind result_bind rbind].
  pose proof (Hcol l Hl) as Hln.
  erewrite bind_reads; [|apply at_Some, (cons_pivots s Hs), Hln].
  rewrite (at_Some _ _ _ (cons_pivots s Hs l Hln)). cbn [mbind result_bind rbind].
  destruct (reduce_while_paired_spec s Hs (reduction_fuel s) column [] l)
    as (emptied & column' & H' & Hrun & HH' & Hbound & Hfinal); try done.
  { unfold reduction_fuel. fold n. lia. }
  { constructor. }
  erewrite bind_reads; [|exact Hrun]. rewrite Hrun. cbn [mbind result_bind rbind].
  destruct emptied.
  - (* reduced to zero by paired columns: a new essential chain *)
    subst column'.
    destruct (add_chains_in_H_spec s H' Hs HH' (∅ ∪ {[n]}))
      as (chain & Hbuild & Hchain & Hn & Hcmax).
    { rewrite (left_id_L ∅ (∪)). by apply elem_of_singleton. }
    { intros x Hx. rewrite (left_id_L ∅ (∪)) in Hx. apply elem_of_singleton in Hx. lia. }
    erewrite bind_reads; [|exact Hbuild].
    exists H', [], (with_essential_chain chain d s).
    split; [done|]. split; [by apply _insert_chain_run|].
    split; [by apply consistent_with_essential_chain|].
    split; [|done].
    split; [done|]. eexists. unfold with_essential_chain. fold n.
    cbn [matrix_ barcode_ indexToBar_].
    split; [apply lookup_insert_eq|]. unfold new_column. cbn [pivot_ dim_ pairedColumn_].
    rewrite (proj2 (last_ordered _ n) (conj Hn Hcmax)).
    split; [done|]. split; [done|]. split.
    { unfold rows. cbn [column_]. rewrite list_to_set_ordered, Hchain.
      by rewrite (left_id_L ∅ (∪)). }
    split; [done|]. split; [|done]. intros i Hi. by rewrite lookup_insert_ne.
  - (* an unpaired column was met: the new chain is paired with the first one *)
    destruct Hfinal as (l' & cl' & Hl' & Hmax' & Hcl' & Hunpaired).
    destruct (reduce_until_empty_spec s Hs (reduction_fuel s) column' H' [])
      as (H'' & E2 & Hrun2 & HH'' & HE & Hfirst); try done.
    { intros x Hx. specialize (Hbound x Hx). unfold reduction_fuel. fold n. lia. }
    { unfold reduction_fuel. lia. }
    { intros x Hx. specialize (Hbound x Hx). fold n. lia. }
    { split; constructor. }
    { intros e x He. by apply elem_of_nil in He. }
    destruct (Hfirst l' cl' Hl' Hmax' Hcl' Hunpaired) as [others ->].
    cbn [app] in Hrun2, HE.
    erewrite bind_reads; [|exact Hrun2]. rewrite Hrun2. cbn [mbind result_bind rbind].
    rewrite (bind_lift _ _ _ l' eq_refl).
    unfold _update_largest_death_in_F.
    assert (Hl'n : l' < n) by (apply (cons_columns s Hs); eauto).
    destruct HE as [HE1 HE2]. apply StronglySorted_inv in HE2 as [_ Hothers].
    destruct (add_others_to_spec l' others s Hs Hl'n) as (s1 & Hupd & Hs1 & Hframe).
    { rewrite Forall_forall in Hothers. intros o Ho. specialize (Hothers o Ho). lia. }
    rewrite (bind_run _ _ _ _ _ Hupd).
    destruct (H_ok_frame l' s s1 H'' cl' Hs Hframe Hcl' Hunpaired HH'') as [HH1 Hrows].
    destruct Hframe as (Fn & Fp & Fd & Fm & Fb & Fi & Fo & Ffp).
    destruct (Ffp cl' Hcl') as (p & Hp & Hpd & Hpp & Hppaired).
    rewrite Hunpaired in Hppaired.
    destruct (add_chains_in_H_spec s1 H'' Hs1 HH1 (∅ ∪ {[nextInsertIndex_ s1]}))
      as (chain & Hbuild & Hchain & Hn & Hcmax).
    { rewrite (left_id_L ∅ (∪)). by apply elem_of_singleton. }
    { intros x Hx. rewrite (left_id_L ∅ (∪)) in Hx. apply elem_of_singleton in Hx. lia. }
    erewrite bind_reads; [|exact Hbuild].
    destruct (cons_bar s1 Hs1 l' p Hp) as (pos & d0 & Hpos & Hbar).
    destruct (birth_death_unpaired l' p Hppaired) as [Hbirth Hdeath].
    rewrite Hbirth, Hdeath in Hbar.
    exists H'', (l' :: others),
      (with_paired_chain chain d l' p pos (mkBar d0 (Z.of_nat l') (-1)) s1).
    split; [done|]. split; [by apply _insert_chain_paired_run|].
    split; [by apply consistent_with_paired_chain|].
    split; [|by rewrite <- Fd, <- Fm].
    unfold inserted, with_paired_chain. rewrite Fn. fold n. rewrite Fn in Hn, Hcmax, Hchain.
    fold n in Hn, Hcmax, Hchain. cbn [matrix_ barcode_ indexToBar_ nextInsertIndex_].
    split; [done|]. eexists.
    split; [rewrite lookup_insert_ne by lia; apply lookup_insert_eq|].
    unfold new_column, assign_paired_chain. cbn [pivot_ dim_ pairedColumn_ column_ dim birth].
    rewrite (proj2 (last_ordered _ n) (conj Hn Hcmax)).
    split; [done|]. split; [done|]. split.
    { unfold rows. cbn [column_]. rewrite list_to_set_ordered, Hchain, Hrows.
      by rewrite (left_id_L ∅ (∪)). }
    split; [done|]. split.
    { eapply Forall_impl; [exact Hothers|]. simpl. lia. }
    split.
    { exists cl'. eexists. split; [done|]. split; [done|].
      split; [apply lookup_insert_eq|]. cbn [pivot_ pairedColumn_]. split; [done|].
      rewrite Hpp. by destruct (cons_column s Hs l' cl' Hcl'). }
    split.
    { intros i Hi1 Hi2. rewrite !lookup_insert_ne by done. by apply Fo. }
    exists pos, d0. rewrite <- Fi, <- Fb. done.
Qed.

(** The bookkeeping of dimensions at the beginning of [insert_boundary] is not
    seen by the reduction. *)
Lemma reduction_dims dims m s boundary :
  reduction (set_dimensions dims m s) boundary = reduction s boundary.
Proof. reflexivity. Qed.

Lemma consistent_set_dimensions dims m s :
  consistent s -> consistent (set_dimensions dims m s).
Proof. intros [? ? ? ? ? ? ?]. split; done. Qed.

Lemma insert_boundary_counted boundary s :
  insert_boundary impl boundary s = _reduce_boundary impl boundary [] (counted boundary s).
Proof. reflexivity. Qed.

(** A boundary whose faces are all in the matrix is inserted. *)
Lemma insert_boundary_ok (s : Chain_matrix) (boundary : list nat) :
  consistent s ->
  (forall x, x ∈ boundary -> x < nextInsertIndex_ s) ->
  exists H E s',
    reduction s boundary = Ok (H, E) /\
    insert_boundary impl boundary s = (Ok tt, s') /\
    consistent s' /\ inserted s boundary H E s'.
Proof.
  intros Hs Hb. rewrite insert_boundary_counted.
  destruct (_reduce_boundary_ok (counted boundary s) boundary)
    as (H & E & s' & Hred & Hrun & Hs' & Hins & _).
  { by apply consistent_set_dimensions. }
  { exact Hb. }
  exists H, E, s'. unfold counted in Hred. rewrite reduction_dims in Hred.
  split; [done|]. split; [done|]. split; [done|]. exact Hins.
Qed.

(** A boundary that names a face that is not in the matrix is refused with
    [std::out_of_range]; no column is touched. *)
Lemma insert_boundary_throw (s : Chain_matrix) (boundary : list nat) :
  consistent s ->
  ~ (forall x, x ∈ boundary -> x < nextInsertIndex_ s) ->
  insert_boundary impl boundary s = (Throw out_of_range, counted boundary s).
Proof.
  intros Hs Hb. rewrite insert_boundary_counted. unfold _reduce_boundary.
  destruct (length boundary =? 0)%nat eqn:Hlen.
  { apply Nat.eqb_eq, nil_length_inv in Hlen. subst boundary.
    exfalso. apply Hb. intros x Hx. by apply elem_of_nil in Hx. }
  assert (Hne : (list_to_set boundary : gset nat) ≠ ∅).
  { destruct boundary as [|x b]; [done|].
    intros Hempty. assert (Hx : x ∈ (list_to_set (x :: b) : gset nat)).
    { apply elem_of_list_to_set. left. }
    rewrite Hempty in Hx. by apply not_elem_of_empty in Hx. }
  destruct (get_last_Ok _ Hne) as (l & Hlast & Hl & Hmax).
  rewrite (bind_lift _ _ _ _ Hlast).
  apply bind_reads_throw. apply at_None.
  apply (cons_pivot_keys s Hs).
  destruct (Nat.le_gt_cases (nextInsertIndex_ s) l) as [|Hlt]; [done|].
  exfalso. apply Hb. intros x Hx.
  specialize (Hmax x ltac:(by apply elem_of_list_to_set)). lia.
Qed.

Lemma insert_boundary_consistent (s : Chain_matrix) (boundary : list nat) :
  consistent s ->
  exists r s', insert_boundary impl boundary s = (r, s') /\
               (r = Ok tt \/ r = Throw out_of_range) /\ consistent s'.
Proof.
  intros Hs.
  destruct (decide (Forall (fun x => x < nextInsertIndex_ s) boundary)) as [Hb|Hb];
    rewrite Forall_forall in Hb.
  - destruct (insert_boundary_ok s boundary Hs Hb) as (H & E & s' & _ & Hrun & Hs' & _).
    exists (Ok tt), s'. eauto.
  - exists (Throw out_of_range), (counted boundary s).
    split; [by apply insert_boundary_throw|]. split; [by right|].
    by apply consistent_set_dimensions.
Qed.

Lemma insert_boundaries_consistent (boundaries : list (list nat)) :
  forall s, consistent s ->
    exists s', insert_boundaries impl boundaries s = Some s' /\ consistent s'.
Proof.
  induction boundaries as [|b boundaries IH]; intros s Hs; simpl.
  - eauto.
  - destruct (insert_boundary_consistent s b Hs) as (r & s' & Hrun & [-> | ->] & Hs');
      rewrite Hrun; by apply IH.
Qed.

End ChainMatrixSteps.

Section ChainMatrixTheorems.
Import ChainMatrix.

Lemma consistent_pivot_bijection (s : Chain_matrix) :
  consistent s ->
  pivot_bijection s /\ forall i c, matrix_ s !! i = Some c -> column_ c ≠ [].
Proof.
  intros Hs.
  assert (Hnonempty : forall i c, matrix_ s !! i = Some c -> column_ c ≠ []).
  { intros i c Hc Hnil. destruct (cons_column s Hs i c Hc) as (_ & Hlast & _).
    by rewrite Hnil in Hlast. }
  split; [|done]. split; [|split].
  - intros i j ci cj Hci Hcj _ _ Heq.
    destruct (cons_column s Hs i ci Hci) as (Hi & _ & _).
    destruct (cons_column s Hs j cj Hcj) as (Hj & _ & _).
    unfold get_pivot in Heq. congruence.
  - intros i ci Hci _.
    destruct (cons_column s Hs i ci Hci) as (Hi & _ & _).
    exists i. split; [done|]. apply (cons_pivots s Hs), (cons_columns s Hs). eauto.
  - intros p i Hp.
    destruct (Nat.lt_ge_cases p (nextInsertIndex_ s)) as [Hlt|Hge].
    + rewrite (cons_pivots s Hs p Hlt) in Hp. injection Hp as <-.
      destruct (cons_lookup s Hs p Hlt) as [c Hc]. exists c.
      split; [done|]. split; [by eapply Hnonempty|].
      by destruct (cons_column s Hs p c Hc).
    + by rewrite (cons_pivot_keys s Hs p Hge) in Hp.
Qed.

End ChainMatrixTheorems.

(** C1: whatever boundaries are passed to [insert_boundary], one call after
    the other on a matrix that starts empty (calls that throw included, with
    either chain column class), every call returns or throws, and in the
    matrix they leave no two non-empty columns have the same pivot:
    [pivotToColumnIndex_] sends the pivot of every non-empty column to that
    column, and every key of it is the pivot of the column it is sent to.
    No column is empty. *)
Theorem chain_matrix_pivot_bijection
    (impl : ChainMatrix.column_impl) (boundaries : list (list nat)) :
  exists s,
    ChainMatrix.insert_boundaries impl boundaries ChainMatrix.empty_matrix = Some s /\
    pivot_bijection s /\
    forall i c, ChainMatrix.matrix_ s !! i = Some c -> ChainMatrix.column_ c ≠ [].
Proof.
  destruct (insert_boundaries_consistent impl boundaries ChainMatrix.empty_matrix
              consistent_empty) as (s & Hrun & Hs).
  exists s. split; [done|]. by apply consistent_pivot_bijection.
Qed.




(** C5, as amended: inserting the boundaries of two vertices and of the edge
    between them gives the barcode made of the essential bar [(0, 0, -1)] and
    of the finite bar [(0, 1, 2)]: the younger vertex dies with the edge. *)
Theorem two_point_barcode (impl : ChainMatrix.column_impl) :
  exists s,
    ChainMatrix.insert_boundaries impl [[]; []; [0; 1]] ChainMatrix.empty_matrix = Some s /\
    ChainMatrix.barcode_ s = [ChainMatrix.mkBar 0 0 (-1); ChainMatrix.mkBar 0 1 2].
Proof.
  destruct impl; eexists; (split; [vm_compute; reflexivity|reflexivity]).
Qed.

(** C5, as stated, fails: the bar [(0, 0, 2)] is not in the barcode, and vertex
    0 is the birth of the essential bar only. *)
Lemma two_point_barcode_no_bar_0_0_2 :
  ChainMatrix.insert_boundaries ChainMatrix.Wrapper [[]; []; [0; 1]] ChainMatrix.empty_matrix
    = Some two_vertices_and_edge /\
  ChainMatrix.mkBar 0 0 2 ∉ ChainMatrix.barcode_ two_vertices_and_edge.
Proof.
  split; [vm_compute; reflexivity|].
  change (ChainMatrix.barcode_ two_vertices_and_edge)
    with [ChainMatrix.mkBar 0 0 (-1); ChainMatrix.mkBar 0 1 2].
  intros Hin. apply elem_of_cons in Hin as [Hin|Hin]; [discriminate|].
  apply elem_of_cons in Hin as [Hin|Hin]; [discriminate|].
  by apply elem_of_nil in Hin.
Qed.

(** ** Representative cycles of a matrix built by insertions *)






(** ** Partial inverses of the shared multi-field *)

Section NumberTheory.
Local Open Scope Z_scope.

Lemma is_prime_Z_correct (n : Z) : MultiField.is_prime_Z n = true -> Z.prime n.
Proof.
  unfold MultiField.is_prime_Z. intros H. apply andb_true_iff in H as [H1 H2].
  apply Z.ltb_lt in H1. split; [done|].
  intros d Hd Hdiv. rewrite forallb_forall in H2.
  specialize (H2 (Z.to_nat d)). rewrite Z2Nat.id in H2 by lia.
  assert (Hin : In (Z.to_nat d) (seq 2 (Z.to_nat n - 2))) by (apply in_seq; lia).
  specialize (H2 Hin). apply negb_true_iff, Z.eqb_neq in H2.
  apply H2. apply Z.mod_divide; [lia|done].
Qed.

Lemma elem_of_list_filter (f : Z -> bool) (l : list Z) (x : Z) :
  x ∈ List.filter f l <-> x ∈ l /\ f x = true.
Proof. rewrite !list_elem_of_In. apply filter_In. Qed.

Lemma NoDup_list_filter (f : Z -> bool) (l : list Z) :
  NoDup l -> NoDup (List.filter f l).
Proof.
  induction 1 as [|p l Hnotin Hnd IH]; simpl; [constructor|].
  destruct (f p); [|done]. constructor; [|done].
  rewrite elem_of_list_filter. tauto.
Qed.

Lemma Forall_list_filter (P : Z -> Prop) (f : Z -> bool) (l : list Z) :
  Forall P l -> Forall P (List.filter f l).
Proof.
  rewrite !Forall_forall. intros H x Hx. apply elem_of_list_filter in Hx as [Hx _]. auto.
Qed.

Lemma fold_left_mul (l : list Z) (a : Z) :
  fold_left (fun acc p => acc * p) l a = a * list_product l.
Proof.
  revert a. induction l as [|p l IH]; intros a; simpl; [lia|].
  rewrite IH. lia.
Qed.

Lemma list_product_pos (l : list Z) : Forall Z.prime l -> 0 < list_product l.
Proof.
  induction 1 as [|p l Hp _ IH]; simpl; [lia|].
  pose proof (Z.prime_ge_2 p Hp). lia.
Qed.

Lemma list_product_Permutation (l1 l2 : list Z) :
  l1 ≡ₚ l2 -> list_product l1 = list_product l2.
Proof. induction 1; simpl; lia. Qed.

Lemma divide_list_product (p : Z) (l : list Z) : p ∈ l -> (p | list_product l).
Proof.
  induction 1 as [p l|p q l _ IH]; simpl.
  - apply Z.divide_factor_l.
  - by apply Z.divide_mul_r.
Qed.

Lemma prime_divide_list_product (p : Z) (l : list Z) :
  Z.prime p -> Forall Z.prime l -> (p | list_product l) -> p ∈ l.
Proof.
  intros Hp. induction 1 as [|q l Hq _ IH]; simpl; intros Hdiv.
  - apply Z.divide_1_r in Hdiv. pose proof (Z.prime_ge_2 p Hp). lia.
  - apply Z.divide_prime_mul in Hdiv; [|done].
    destruct Hdiv as [Hdiv|Hdiv]; [|by right; apply IH].
    apply Z.divide_prime_prime in Hdiv; [|done..]. subst q. left.
Qed.

Lemma list_product_split (f : Z -> bool) (l : list Z) :
  list_product l =
    list_product (List.filter f l) * list_product (List.filter (fun p => negb (f p)) l).
Proof.
  induction l as [|p l IH]; simpl; [done|].
  destruct (f p); simpl; rewrite IH; lia.
Qed.

Lemma divides_spec (x p : Z) : p ≠ 0 -> divides x p = true <-> (p | x).
Proof. intros Hp. unfold divides. rewrite Z.eqb_eq. by apply Z.mod_divide. Qed.

(** Distinct primes that divide [x]: their product divides [x]. *)
Lemma list_product_divide (x : Z) (l : list Z) :
  NoDup l -> Forall Z.prime l -> Forall (fun p => (p | x)) l -> (list_product l | x).
Proof.
  intros Hnd Hpr. revert x. induction Hnd as [|p l Hnotin Hnd IH]; intros x Hdiv; simpl.
  - apply Z.divide_1_l.
  - apply Forall_cons in Hpr as [Hp Hpr]. apply Forall_cons in Hdiv as [[k ->] Hdiv].
    rewrite (Z.mul_comm k p). apply Z.mul_divide_mono_l. apply IH; [done|].
    rewrite Forall_forall in *. intros q Hq.
    specialize (Hdiv q Hq). specialize (Hpr q Hq).
    apply Z.divide_prime_mul in Hdiv; [|done].
    destruct Hdiv as [Hdiv|Hdiv]; [done|].
    apply Z.divide_prime_prime in Hdiv; [|done..]. subst q. contradiction.
Qed.

Lemma coprime_list_product (x : Z) (l : list Z) :
  Forall Z.prime l -> Forall (fun p => ~ (p | x)) l -> Z.gcd x (list_product l) = 1.
Proof.
  induction 1 as [|p l Hp _ IH]; intros Hndiv; simpl.
  - apply Z.gcd_1_r.
  - apply Forall_cons in Hndiv as [Hpx Hndiv].
    apply Z.coprime_mul_r; [|by apply IH].
    apply Z.Symmetric_coprime. by apply Z.coprime_prime_l.
Qed.

Lemma coprime_not_dividing (x : Z) (l : list Z) :
  Forall Z.prime l ->
  Z.gcd x (list_product (List.filter (fun p => negb (divides x p)) l)) = 1.
Proof.
  intros Hpr. apply coprime_list_product; [by apply Forall_list_filter|].
  apply Forall_forall. intros p Hp. apply elem_of_list_filter in Hp as [Hp Hd].
  apply negb_true_iff in Hd. intros Hdiv. apply divides_spec in Hdiv; [congruence|].
  rewrite Forall_forall in Hpr. pose proof (Z.prime_ge_2 p (Hpr p Hp)). lia.
Qed.

(** The gcd of [x] with a product of distinct primes is the product of those
    that divide [x]. *)
Lemma gcd_list_product (x : Z) (l : list Z) :
  NoDup l -> Forall Z.prime l ->
  Z.gcd x (list_product l) = list_product (List.filter (divides x) l).
Proof.
  intros Hnd Hpr.
  assert (HA : (list_product (List.filter (divides x) l) | x)).
  { apply list_product_divide;
      [by apply NoDup_list_filter|by apply Forall_list_filter|].
    apply Forall_forall. intros p Hp. apply elem_of_list_filter in Hp as [Hp Hd].
    apply divides_spec in Hd; [done|].
    rewrite Forall_forall in Hpr. pose proof (Z.prime_ge_2 p (Hpr p Hp)). lia. }
  pose proof (coprime_not_dividing x l Hpr) as HB.
  apply Z.gcd_unique.
  - pose proof (list_product_pos _ (Forall_list_filter _ (divides x) _ Hpr)). lia.
  - done.
  - rewrite (list_product_split (divides x) l). apply Z.divide_factor_l.
  - intros q Hqx Hql. rewrite (list_product_split (divides x) l) in Hql.
    rewrite Z.mul_comm in Hql. apply Z.gauss in Hql; [done|].
    apply Z.bezout_1_gcd.
    destruct (Z.gcd_bezout x _ _ HB) as (a & b & Hab).
    destruct Hqx as [k ->]. exists (a * k), b. rewrite <- Hab. ring.
Qed.

End NumberTheory.

Section CRT.
Local Open Scope Z_scope.
Import MultiField.

Variable st : state.
Hypothesis Hinit : initialized st.

Let M : Z := productOfAllCharacteristics_ st.

Lemma primes_prime (p : Z) : p ∈ primes_ st -> Z.prime p.
Proof. destruct Hinit as (_ & Hpr & _). rewrite Forall_forall in Hpr. apply Hpr. Qed.

Lemma primes_ge_2 (p : Z) : p ∈ primes_ st -> 2 <= p.
Proof. intros Hp. apply Z.prime_ge_2. by apply primes_prime. Qed.

Lemma product_pos : 0 < M.
Proof.
  destruct Hinit as (_ & Hpr & HM & _). subst M. rewrite HM. by apply list_product_pos.
Qed.

Lemma prime_divides_product (p : Z) : p ∈ primes_ st -> (p | M).
Proof.
  destruct Hinit as (_ & _ & HM & _). subst M. rewrite HM. apply divide_list_product.
Qed.

(** The partial of [p] is 1 modulo [p] and 0 modulo the other primes. *)
Lemma partial_mod (p q : Z) :
  p ∈ primes_ st -> q ∈ primes_ st ->
  mpz_powm_ui (M / p) (p - 1) M mod q = Z.b2z (bool_decide (p = q)).
Proof.
  intros Hp Hq.
  pose proof product_pos as HM. pose proof (primes_ge_2 p Hp) as Hp2.
  pose proof (primes_ge_2 q Hq) as Hq2.
  unfold mpz_powm_ui, mpz_mod. rewrite Z.abs_eq by lia.
  rewrite Z.mod_mod_divide by (by apply prime_divides_product).
  destruct Hinit as (Hnd & Hpr & HMeq & _). fold M in HMeq.
  destruct (elem_of_Permutation (primes_ st) p) as [[rest Hperm] _]; [done|].
  assert (Hdiv : M / p = list_product rest).
  { rewrite HMeq, (list_product_Permutation _ _ Hperm). simpl.
    rewrite Z.mul_comm. apply Z.div_mul. lia. }
  rewrite Hperm in Hnd, Hpr. apply NoDup_cons in Hnd as [Hnotin _].
  apply Forall_cons in Hpr as [Hpp Hprest].
  rewrite Hdiv. destruct (decide (p = q)) as [<-|Hne].
  - rewrite bool_decide_eq_true_2 by done. simpl.
    apply Z.fermat_nz; [done|]. intros Hmod. apply Z.mod_divide in Hmod; [|lia].
    apply prime_divide_list_product in Hmod; done.
  - rewrite bool_decide_eq_false_2 by done. simpl.
    apply Z.mod_divide; [lia|].
    assert (Hqrest : q ∈ rest).
    { rewrite Hperm in Hq. apply elem_of_cons in Hq as [->|Hq]; done. }
    transitivity (list_product rest); [by apply divide_list_product|].
    apply Z.divide_pow_same_r. lia.
Qed.

Lemma identity_loop_mod (Q q : Z) (L : list Z) :
  0 <= Q -> q ∈ primes_ st ->
  NoDup L -> (forall p, p ∈ L -> p ∈ primes_ st) ->
  forall acc,
    element_ (fold_left (identity_step st Q) (map (with_partial st) L) acc) mod q =
    (element_ acc + Z.b2z (bool_decide (q ∈ L) && divides Q q)) mod q.
Proof.
  intros HQ Hq Hnd. pose proof product_pos as HM.
  pose proof (primes_ge_2 q Hq) as Hq2.
  induction Hnd as [|p L Hnotin Hnd IH]; intros Hin acc; simpl.
  { by rewrite Z.add_0_r. }
  assert (Hp : p ∈ primes_ st) by (apply Hin; left).
  pose proof (primes_ge_2 p Hp) as Hp2.
  rewrite IH by (intros p' Hp'; apply Hin; by right).
  rewrite Z.rem_mod_nonneg by lia.
  assert (Hstep : forall b : Z,
             (element_ (if Q mod p =? 0
                        then add_z st acc (mpz_powm_ui (M / p) (p - 1) M) else acc)
              + b) mod q =
             (element_ acc + Z.b2z ((Q mod p =? 0) && bool_decide (p = q)) + b) mod q).
  { intros b. destruct (Q mod p =? 0); cbn [andb]; [|by rewrite Z.add_0_r].
    unfold add_z. cbn [element_]. unfold mpz_mod at 1. fold M.
    rewrite Z.abs_eq by lia.
    pose proof (partial_mod p q Hp Hq) as HP.
    set (P := mpz_powm_ui (M / p) (p - 1) M) in *.
    rewrite <- Z.add_mod_idemp_l by lia.
    rewrite Z.mod_mod_divide by (by apply prime_divides_product).
    rewrite <- (Z.add_mod_idemp_r _ P) by lia. rewrite HP.
    by rewrite Z.add_mod_idemp_l by lia. }
  rewrite Hstep. f_equal. rewrite <- Z.add_assoc. f_equal.
  unfold divides.
  destruct (decide (p = q)) as [->|Hne].
  - rewrite (bool_decide_eq_true_2 (q = q)) by done.
    rewrite (bool_decide_eq_false_2 (q ∈ L)) by done.
    rewrite (bool_decide_eq_true_2 (q ∈ q :: L)) by left.
    simpl. rewrite andb_true_r. lia.
  - rewrite (bool_decide_eq_false_2 (p = q)) by done. rewrite andb_false_r. simpl.
    rewrite Z.add_0_l. do 2 f_equal.
    apply bool_decide_ext. rewrite elem_of_cons.
    split; [by right|]. intros [Heq|HqL]; [by subst|done].
Qed.

(** The partial multiplicative identity of a non-zero product [Q]: 1 modulo
    the primes that divide [Q], 0 modulo the others. *)
Lemma partial_identity_mod (Q q : Z) :
  0 < Q -> q ∈ primes_ st ->
  element_ (get_partial_multiplicative_identity st Q) mod q = Z.b2z (divides Q q).
Proof.
  intros HQ Hq. pose proof (primes_ge_2 q Hq) as Hq2.
  unfold get_partial_multiplicative_identity.
  destruct (Z.eqb_spec Q 0) as [|_]; [lia|].
  destruct Hinit as (Hnd & _ & _ & Hpartials). fold M in Hpartials.
  assert (Hcombine : combine (primes_ st) (partials_ st) = map (with_partial st) (primes_ st)).
  { rewrite Hpartials. clear. induction (primes_ st) as [|p l IH]; simpl; [done|].
    by rewrite IH. }
  rewrite Hcombine.
  change (fold_left _ (map (with_partial st) (primes_ st)) (zero))
    with (fold_left (identity_step st Q) (map (with_partial st) (primes_ st)) zero).
  rewrite identity_loop_mod; [|lia|done|done|done].
  rewrite bool_decide_eq_true_2 by done. simpl.
  destruct (divides Q q); simpl; apply Z.mod_small; lia.
Qed.


Lemma invertible_factors_nil (x : Z) (sub : list Z) :
  NoDup sub -> (forall p, p ∈ sub -> p ∈ primes_ st) ->
  invertible_factors x sub = [] <-> Z.gcd x (list_product sub) = list_product sub.
Proof.
  intros Hnd Hsub.
  assert (Hpr : Forall Z.prime sub).
  { apply Forall_forall. intros p Hp. by apply primes_prime, Hsub. }
  rewrite gcd_list_product by done.
  rewrite (list_product_split (divides x) sub).
  fold (invertible_factors x sub).
  pose proof (list_product_pos _ (Forall_list_filter _ (divides x) _ Hpr)) as HD.
  assert (Hinv : Forall Z.prime (invertible_factors x sub))
    by (by apply Forall_list_filter).
  split.
  - intros ->. simpl. lia.
  - intros Heq. destruct (invertible_factors x sub) as [|p l]; [done|].
    apply Forall_cons in Hinv as [Hp Hl].
    pose proof (Z.prime_ge_2 p Hp). pose proof (list_product_pos l Hl).
    simpl in Heq. assert (Hk : 1 < p * list_product l) by nia.
    set (k := p * list_product l) in *. nia.
Qed.

Lemma partial_inverse_fail (x : Shared_multi_field_element) (sub : list Z) :
  NoDup sub -> (forall p, p ∈ sub -> p ∈ primes_ st) ->
  invertible_factors (element_ x) sub = [] ->
  get_partial_inverse st x (list_product sub) = Some (zero, multiplicativeID_).
Proof.
  intros Hnd Hsub Hnil. apply invertible_factors_nil in Hnil; [|done..].
  unfold get_partial_inverse, mpz_gcd. cbv zeta. by rewrite Hnil, Z.eqb_refl.
Qed.

Lemma partial_inverse_success (x : Shared_multi_field_element) (sub : list Z) :
  NoDup sub -> (forall p, p ∈ sub -> p ∈ primes_ st) ->
  invertible_factors (element_ x) sub <> [] ->
  exists r,
    get_partial_inverse st x (list_product sub) =
      Some (r, list_product (invertible_factors (element_ x) sub)) /\
    (forall p, p ∈ invertible_factors (element_ x) sub ->
               (element_ x * element_ r) mod p = 1) /\
    (forall p, p ∈ primes_ st -> p ∉ invertible_factors (element_ x) sub ->
               element_ r mod p = 0).
Proof.
  intros Hnd Hsub Hne. pose proof product_pos as HM.
  assert (Hpr : Forall Z.prime sub).
  { apply Forall_forall. intros p Hp. by apply primes_prime, Hsub. }
  set (T := list_product (invertible_factors (element_ x) sub)).
  set (D := list_product (List.filter (divides (element_ x)) sub)).
  assert (Hinv : Forall Z.prime (invertible_factors (element_ x) sub))
    by (by apply Forall_list_filter).
  assert (HD : 0 < D) by (by apply list_product_pos, Forall_list_filter).
  assert (HT : 2 <= T).
  { subst T. destruct (invertible_factors (element_ x) sub) as [|p l]; [done|].
    apply Forall_cons in Hinv as [Hp Hl].
    pose proof (Z.prime_ge_2 p Hp). pose proof (list_product_pos l Hl).
    simpl. nia. }
  assert (HQ : list_product sub = D * T) by apply list_product_split.
  assert (Hgcd : Z.gcd (element_ x) (list_product sub) = D) by (by apply gcd_list_product).
  assert (Hcop : Z.gcd (element_ x) T = 1) by (by apply coprime_not_dividing).
  assert (Hin_primes : forall p, p ∈ invertible_factors (element_ x) sub -> p ∈ primes_ st).
  { intros p Hp. apply elem_of_list_filter in Hp as [Hp _]. by apply Hsub. }
  unfold get_partial_inverse, mpz_gcd. cbv zeta. rewrite Hgcd.
  destruct (Z.eqb_spec D (list_product sub)) as [Heq|_]; [nia|].
  rewrite HQ, (Z.mul_comm D T), Z.quot_mul by lia.
  unfold mpz_invert. destruct (Z.eqb_spec T 0) as [|_]; [lia|].
  rewrite Hcop, Z.eqb_refl, Z.abs_eq by lia.
  set (inv_qt := Z.invmod (element_ x) T).
  set (res := get_partial_multiplicative_identity st T).
  exists (mul_z st res inv_qt). split; [done|].
  assert (Hr : forall p, p ∈ primes_ st ->
             element_ (mul_z st res inv_qt) mod p =
             (Z.b2z (divides T p) * inv_qt) mod p).
  { intros p Hp. pose proof (primes_ge_2 p Hp). unfold mul_z. cbn [element_].
    unfold mpz_mod. fold M. rewrite Z.abs_eq by lia.
    rewrite Z.mod_mod_divide by (by apply prime_divides_product).
    rewrite <- Z.mul_mod_idemp_l by lia. subst res.
    rewrite partial_identity_mod by (done || lia). done. }
  split.
  - intros p Hp. pose proof (Hin_primes p Hp) as Hp'.
    pose proof (primes_ge_2 p Hp').
    assert (HpT : (p | T)) by (by apply divide_list_product).
    rewrite <- Z.mul_mod_idemp_r, Hr by (done || lia).
    assert (HdT : divides T p = true) by (apply divides_spec; [lia|done]).
    rewrite HdT. cbn [Z.b2z]. rewrite Z.mul_1_l, Z.mul_mod_idemp_r by lia.
    rewrite <- (Z.mod_mod_divide _ T p) by done.
    rewrite (Z.mul_comm (element_ x)). subst inv_qt.
    rewrite Z.invmod_coprime by done. apply Z.mod_small. lia.
  - intros p Hp Hnot. pose proof (primes_ge_2 p Hp). rewrite Hr by done.
    assert (HdT : divides T p = false).
    { apply not_true_is_false. intros Hd. apply divides_spec in Hd; [|lia].
      apply Hnot. apply prime_divide_list_product; [by apply primes_prime|done..]. }
    rewrite HdT. cbn [Z.b2z]. by rewrite Z.mul_0_l, Z.mod_0_l by lia.
Qed.

End CRT.

Section Initialize.
Local Open Scope Z_scope.
Import MultiField.

Lemma nextprime_search_spec (fuel : nat) :
  forall c r, nextprime_search fuel c = Some r ->
    is_prime_Z r = true /\ c <= r /\
    forall P, is_prime_Z P = true -> c <= P -> r <= P.
Proof.
  induction fuel as [|fuel IH]; intros c r; simpl; [done|].
  destruct (is_prime_Z c) eqn:Hc.
  - intros [= <-]. split; [done|]. split; [lia|]. intros P _ HP. lia.
  - intros Hr. destruct (IH _ _ Hr) as (Hprime & Hle & Hleast).
    split; [done|]. split; [lia|]. intros P HP HcP. apply Hleast; [done|].
    assert (P <> c) by (intros ->; congruence). lia.
Qed.

Lemma mpz_nextprime_spec (n r : Z) :
  mpz_nextprime n = Some r ->
  is_prime_Z r = true /\ n < r /\ forall P, is_prime_Z P = true -> n < P -> r <= P.
Proof.
  unfold mpz_nextprime. intros Hr.
  destruct (nextprime_search_spec _ _ _ Hr) as (Hprime & Hle & Hleast).
  split; [done|]. split; [lia|]. intros P HP HnP. apply Hleast; [done|].
  pose proof (Z.prime_ge_2 P (is_prime_Z_correct P HP)). lia.
Qed.

Lemma to_uint_small (z : Z) : 0 <= z < 2 ^ 32 -> to_uint z = z.
Proof. intros Hz. unfold to_uint. by apply Z.mod_small. Qed.

(** The loop of [initialize] below a prime bound [P] that fits an
    [unsigned int]: the values collected are distinct primes. *)
Lemma collect_primes_spec (P maximum : Z) (fuel : nat) :
  is_prime_Z P = true -> P < 2 ^ 32 -> maximum < P ->
  forall tmp acc primes,
    collect_primes fuel tmp tmp maximum acc = Some primes ->
    is_prime_Z tmp = true -> tmp <= P ->
    Forall Z.prime acc -> Forall (fun q => q < tmp) acc -> NoDup acc ->
    Forall Z.prime primes /\ NoDup primes.
Proof.
  intros HP HP32 Hmax.
  induction fuel as [|fuel IH]; intros tmp acc primes; simpl; [done|].
  destruct (tmp <=? maximum) eqn:Hle; [|by intros [= <-]].
  apply Z.leb_le in Hle.
  destruct (mpz_nextprime tmp) as [np|] eqn:Hnp; [|done].
  destruct (mpz_nextprime_spec _ _ Hnp) as (Hprime & Hlt & Hleast).
  intros Hrun Htmp HtmpP Hacc Hbelow Hnd.
  assert (HnpP : np <= P) by (apply Hleast; [done|lia]).
  pose proof (Z.prime_ge_2 tmp (is_prime_Z_correct tmp Htmp)) as Htmp2.
  rewrite to_uint_small in Hrun by lia.
  apply (IH np (acc ++ [tmp]) primes Hrun Hprime HnpP).
  - apply Forall_app. split; [done|]. by apply Forall_singleton, is_prime_Z_correct.
  - apply Forall_app. split.
    + eapply Forall_impl; [exact Hbelow|]. cbv beta. intros q Hq. lia.
    + apply Forall_singleton. lia.
  - apply NoDup_app. split; [done|]. split; [|apply NoDup_singleton].
    intros q Hq Hq'. apply list_elem_of_singleton in Hq' as ->.
    rewrite Forall_forall in Hbelow. specialize (Hbelow _ Hq). lia.
Qed.

(** What [initialize] returns is an initialised field, as long as the
    characteristics stay below a prime that fits an [unsigned int]. *)
Lemma initialize_initialized (P minimum maximum : Z) (st : state) :
  is_prime_Z P = true -> P < 2 ^ 32 -> maximum < P ->
  initialize minimum maximum = Ok st ->
  initialized st.
Proof.
  intros HP HP32 Hmax. unfold initialize.
  destruct (maximum <? 2); [done|].
  destruct (maximum <? minimum) eqn:Hmm; [done|]. apply Z.ltb_ge in Hmm.
  destruct (if minimum =? maximum then of_option (_is_prime (to_int minimum)) else Ok true)
    as [b| | |]; cbn [mbind result_bind rbind]; try done.
  destruct ((minimum =? maximum) && negb b); [done|].
  unfold mpz_probab_prime_p.
  assert (Hstart : forall tmp primes,
             is_prime_Z tmp = true -> tmp <= P ->
             of_option (collect_primes (Z.to_nat maximum + 1) tmp tmp maximum []) = Ok primes ->
             Forall Z.prime primes /\ NoDup primes).
  { intros tmp primes Htmp HtmpP Hrun.
    destruct (collect_primes _ tmp tmp maximum []) as [l|] eqn:Hl; [|done].
    injection Hrun as ->.
    eapply (collect_primes_spec P maximum); try done; constructor. }
  assert (Hend : forall primes,
             Forall Z.prime primes /\ NoDup primes ->
             (if (length primes =? 0)%nat then Throw invalid_argument
              else Ok (mkState primes (fold_left (fun acc p => acc * p) primes 1)
                         (map (fun p => mpz_powm_ui
                                 (fold_left (fun acc p => acc * p) primes 1 / p) (p - 1)
                                 (fold_left (fun acc p => acc * p) primes 1)) primes)))
             = Ok st -> initialized st).
  { intros primes [Hpr Hnd]. destruct (length primes =? 0)%nat; [done|].
    intros [= <-]. unfold initialized. cbn [primes_ productOfAllCharacteristics_ partials_].
    split; [done|]. split; [done|]. split; [|done].
    rewrite fold_left_mul. lia. }
  destruct (is_prime_Z minimum) eqn:Hmin; cbn [Z.eqb mbind result_bind rbind].
  - destruct (of_option (collect_primes _ minimum minimum maximum [])) as [primes| | |] eqn:Hrun;
      cbn [mbind result_bind rbind]; try done.
    apply Hend. apply (Hstart minimum); [done|lia|done].
  - destruct (mpz_nextprime minimum) as [np|] eqn:Hnp; cbn [of_option mbind result_bind rbind];
      [|done].
    destruct (mpz_nextprime_spec _ _ Hnp) as (Hprime & Hlt & Hleast).
    assert (HnpP : np <= P) by (apply Hleast; [done|lia]).
    pose proof (Z.prime_ge_2 np (is_prime_Z_correct np Hprime)) as Hnp2.
    rewrite to_uint_small by lia.
    destruct (of_option (collect_primes _ np np maximum [])) as [primes| | |] eqn:Hrun;
      cbn [mbind result_bind rbind]; try done.
    apply Hend. by apply (Hstart np).
Qed.

End Initialize.

Lemma initialized_2_7 : initialized MultiField.st_2_7.
Proof.
  apply (initialize_initialized 11 2 7); [reflexivity|lia|lia|exact initialize_2_7].
Qed.

(** C8 (amended): let the field be initialised, [sub] be distinct
    characteristics and [Q] their product.  The characteristics of [sub] that
    do not divide [x] are the invertible ones.  There is none exactly when
    [gcd(x, Q) = Q], and then [get_partial_inverse(Q)] returns the zero element
    with the weight [multiplicativeID_], that is 1.  Otherwise it returns an
    element [r] together with the product of the invertible characteristics,
    where [x * r] is 1 modulo each invertible characteristic and [r] is 0
    modulo every other characteristic of the field. *)
Theorem partial_inverse_shape (st : MultiField.state)
    (x : MultiField.Shared_multi_field_element) (sub : list Z) :
  initialized st ->
  NoDup sub ->
  (forall p, p ∈ sub -> p ∈ MultiField.primes_ st) ->
  (invertible_factors (MultiField.element_ x) sub = [] <->
   Z.gcd (MultiField.element_ x) (list_product sub) = list_product sub) /\
  (invertible_factors (MultiField.element_ x) sub = [] ->
   MultiField.get_partial_inverse st x (list_product sub) =
     Some (MultiField.zero, MultiField.multiplicativeID_)) /\
  (invertible_factors (MultiField.element_ x) sub <> [] ->
   exists r,
     MultiField.get_partial_inverse st x (list_product sub) =
       Some (r, list_product (invertible_factors (MultiField.element_ x) sub)) /\
     (forall p, p ∈ invertible_factors (MultiField.element_ x) sub ->
                (MultiField.element_ x * MultiField.element_ r) mod p = 1)%Z /\
     (forall p, p ∈ MultiField.primes_ st ->
                p ∉ invertible_factors (MultiField.element_ x) sub ->
                (MultiField.element_ r mod p = 0)%Z)).
Proof.
  intros Hinit Hnd Hsub. split; [|split].
  - by apply (invertible_factors_nil st).
  - by apply partial_inverse_fail.
  - by apply partial_inverse_success.
Qed.

Lemma partial_inverse_shape_witness :
  invertible_factors 10 [2; 3; 7]%Z = [3; 7]%Z /\
  exists r,
    MultiField.get_partial_inverse MultiField.st_2_7 (MultiField.mkElt 10) 42 =
      Some (r, 21%Z) /\
    (forall p, p ∈ [3; 7]%Z -> (10 * MultiField.element_ r) mod p = 1)%Z /\
    (forall p, p ∈ [2; 3; 5; 7]%Z -> p ∉ [3; 7]%Z -> (MultiField.element_ r mod p = 0)%Z).
Proof.
  split; [reflexivity|].
  apply (partial_inverse_shape MultiField.st_2_7 (MultiField.mkElt 10) [2; 3; 7]%Z).
  - exact initialized_2_7.
  - apply (bool_decide_unpack _). vm_compute. exact I.
  - intros p Hp. apply (bool_decide_unpack _).
    revert p Hp. apply Forall_forall. apply (bool_decide_unpack _). vm_compute. exact I.
  - vm_compute. discriminate.
Defined.

(** C8, the failure weight: on the zero element and the full product 210,
    the gcd test succeeds and the returned weight is 1, not 210. *)
Lemma partial_inverse_failure_weight_is_one :
  Z.gcd (MultiField.element_ MultiField.zero) 210 = 210%Z /\
  MultiField.get_partial_inverse MultiField.st_2_7 MultiField.zero 210 =
    Some (MultiField.zero, 1%Z) /\
  (1 <> MultiField.productOfAllCharacteristics_ MultiField.st_2_7)%Z.
Proof. split; [|split]; vm_compute; [reflexivity|reflexivity|discriminate]. Qed.

(** * Further properties of the code *)

(** ** Z2 field element: arithmetic *)

Section Z2Arithmetic.
Import Z2Field.
Local Open Scope Z_scope.

Lemma Z2_rem_2 (n : Z) : (Z.rem n 2 =? 0) = (n mod 2 =? 0).
Proof.
  destruct (Z.eqb_spec (Z.rem n 2) 0) as [H|H]; destruct (Z.eqb_spec (n mod 2) 0) as [H'|H'];
    try done; exfalso.
  - apply H'. apply Z.rem_divide in H; [|lia]. by apply Z.mod_divide.
  - apply H. apply Z.mod_divide in H'; [|lia]. by apply Z.rem_divide.
Qed.

Lemma Z2_value_of_int (n : Z) : get_value (of_int n) = n mod 2.
Proof.
  unfold get_value, of_int. cbn [element_]. rewrite Z2_rem_2.
  pose proof (Z.mod_pos_bound n 2 ltac:(lia)).
  destruct (Z.eqb_spec (n mod 2) 0); simpl; lia.
Qed.

Lemma Z2_of_int_value (x : Z2_field_element) : of_int (get_value x) = x.
Proof. by destruct x as [[]]. Qed.

End Z2Arithmetic.

(** X1: the value of [Z2_field_element(n)] is [n] modulo 2 for every integer
    [n], negative ones included, and the constructor turns sums and products
    of integers into [+] and [*] of elements; [-] is [+]; the values of a sum
    and of a product are the sum and the product modulo 2. *)
Theorem Z2_field_arithmetic_mod_2 :
  (forall n : Z, Z2Field.get_value (Z2Field.of_int n) = n mod 2)%Z /\
  (forall m n : Z, Z2Field.of_int (m + n) = Z2Field.add (Z2Field.of_int m) (Z2Field.of_int n)) /\
  (forall m n : Z, Z2Field.of_int (m - n) = Z2Field.sub (Z2Field.of_int m) (Z2Field.of_int n)) /\
  (forall m n : Z, Z2Field.of_int (m * n) = Z2Field.mul (Z2Field.of_int m) (Z2Field.of_int n)) /\
  (forall a b, Z2Field.sub a b = Z2Field.add a b) /\
  (forall a b, Z2Field.get_value (Z2Field.add a b)
               = (Z2Field.get_value a + Z2Field.get_value b) mod 2)%Z /\
  (forall a b, Z2Field.get_value (Z2Field.mul a b)
               = (Z2Field.get_value a * Z2Field.get_value b) mod 2)%Z.
Proof.
  assert (Hhom : forall (op : Z -> Z -> Z) (f : bool -> bool -> bool),
             (forall m n, (op m n) mod 2 = (op (m mod 2) (n mod 2)) mod 2)%Z ->
             (forall a b : bool, (op (Z.b2z a) (Z.b2z b) mod 2 =? 0)%Z = negb (f a b)) ->
             forall m n, Z2Field.of_int (op m n) =
                         Z2Field.mk (f (Z2Field.element_ (Z2Field.of_int m))
                                       (Z2Field.element_ (Z2Field.of_int n)))).
  { intros op f Hmod Hf m n. unfold Z2Field.of_int. cbn [Z2Field.element_].
    rewrite !Z2_rem_2, Hmod. f_equal.
    pose proof (Z.mod_pos_bound m 2 ltac:(lia)) as Hm.
    pose proof (Z.mod_pos_bound n 2 ltac:(lia)) as Hn.
    assert (Hbm : (m mod 2 = Z.b2z (negb (m mod 2 =? 0)))%Z)
      by (destruct (Z.eqb_spec (m mod 2) 0); simpl; lia).
    assert (Hbn : (n mod 2 = Z.b2z (negb (n mod 2 =? 0)))%Z)
      by (destruct (Z.eqb_spec (n mod 2) 0); simpl; lia).
    rewrite Hbm, Hbn at 1. rewrite Hf. by rewrite negb_involutive. }
  split; [exact Z2_value_of_int|].
  split; [|split; [|split; [|split; [|split]]]].
  - apply (Hhom Z.add xorb); [intros; by apply Z.add_mod|by intros [] []].
  - apply (Hhom Z.sub xorb); [intros; by apply Zminus_mod|by intros [] []].
  - apply (Hhom Z.mul andb); [intros; by apply Z.mul_mod|by intros [] []].
  - done.
  - by intros [[]] [[]].
  - by intros [[]] [[]].
Qed.

(** ** Primality test of the multi-field *)

Section IsPrime.
Import MultiField.
Local Open Scope Z_scope.

Lemma rem_divides (p i : Z) : 0 < i -> (Z.rem p i =? 0) = true <-> (i | p).
Proof. intros Hi. rewrite Z.eqb_eq. apply Z.rem_divide. lia. Qed.

(** The divisors tried by the loop of [_is_prime]: [j] and [j + 2] for the
    [j = 5, 11, 17, ...] whose square is at most [p]. *)
Lemma _is_prime_loop_spec (p : Z) (fuel : nat) :
  forall i, 5 <= i -> i mod 6 = 5 -> p < Z.of_nat fuel + i ->
    (forall j, 5 <= j < i -> j mod 6 = 5 -> ~ (j | p) /\ ~ (j + 2 | p)) ->
    exists b, _is_prime_loop (S fuel) i p = Some b /\
              (b = true <->
               forall j, 5 <= j -> j mod 6 = 5 -> j * j <= p -> ~ (j | p) /\ ~ (j + 2 | p)).
Proof.
  induction fuel as [|fuel IH]; intros i Hi Hi6 Hfuel Htested;
    cbn [_is_prime_loop]; destruct (Z.leb_spec (i * i) p) as [Hsq|Hsq].
  - nia.
  - exists true. split; [done|]. split; [|done]. intros _ j Hj Hj6 Hjp.
    apply Htested; [nia|done].
  - destruct ((Z.rem p i =? 0) || (Z.rem p (i + 2) =? 0)) eqn:Hdiv.
    + exists false. split; [done|]. split; [done|]. intros Hall.
      destruct (Hall i Hi Hi6 Hsq) as [H1 H2].
      apply orb_true_iff in Hdiv as [Hdiv|Hdiv]; apply rem_divides in Hdiv; [done|lia|done|lia].
    + apply orb_false_iff in Hdiv as [Hd1 Hd2].
      apply IH; [lia| |lia|].
      * rewrite <- Z.add_mod_idemp_l, Hi6 by lia. done.
      * intros j Hj Hj6. destruct (Z.lt_ge_cases j i) as [Hlt|Hge].
        { apply Htested; [lia|done]. }
        assert (j = i) as ->.
        { pose proof (Z.div_mod j 6 ltac:(lia)) as Hjd. rewrite Hj6 in Hjd.
          pose proof (Z.div_mod i 6 ltac:(lia)) as Hid. rewrite Hi6 in Hid. lia. }
        split; intros Hd; apply rem_divides in Hd; try lia; congruence.
  - exists true. split; [done|]. split; [|done]. intros _ j Hj Hj6 Hjp.
    apply Htested; [nia|done].
Qed.

Lemma prime_by_trial (p : Z) :
  3 < p -> ~ (2 | p) -> ~ (3 | p) ->
  (forall j, 5 <= j -> j mod 6 = 5 -> j * j <= p -> ~ (j | p) /\ ~ (j + 2 | p)) ->
  Z.prime p.
Proof.
  intros Hp H2 H3 Hall. split; [lia|]. intros n Hn [m Hm].
  assert (Hmpos : 1 < m < p) by nia.
  (* the smaller of the two factors *)
  assert (Hd : exists d, 1 < d /\ d * d <= p /\ (d | p)).
  { destruct (Z.le_gt_cases n m).
    - exists n. split; [lia|]. split; [nia|]. exists m. lia.
    - exists m. split; [lia|]. split; [nia|]. exists n. lia. }
  destruct Hd as (d & Hd1 & Hdd & Hdp).
  pose proof (Z.mod_pos_bound d 6 ltac:(lia)) as Hr.
  pose proof (Z.div_mod d 6 ltac:(lia)) as Hdm.
  assert (Hcase : d mod 6 = 0 \/ d mod 6 = 2 \/ d mod 6 = 4 \/ d mod 6 = 3 \/
                  d mod 6 = 5 \/ d mod 6 = 1) by lia.
  destruct Hcase as [Hc|[Hc|[Hc|[Hc|[Hc|Hc]]]]].
  - apply H2. transitivity d; [|done]. exists (3 * (d / 6)). lia.
  - apply H2. transitivity d; [|done]. exists (3 * (d / 6) + 1). lia.
  - apply H2. transitivity d; [|done]. exists (3 * (d / 6) + 2). lia.
  - apply H3. transitivity d; [|done]. exists (2 * (d / 6) + 1). lia.
  - destruct (Hall d) as [Hnd _]; [lia|done|done|done].
  - destruct (Hall (d - 2)) as [_ Hnd]; [lia| |nia|].
    + replace (d - 2) with (5 + (d / 6 - 1) * 6) by lia.
      by rewrite Z.mod_add by lia.
    + apply Hnd. by replace (d - 2 + 2) with d by lia.
Qed.

End IsPrime.

Lemma _is_prime_spec (p : Z) :
  exists b, MultiField._is_prime p = Some b /\ (b = true <-> Z.prime p).
Proof.
  unfold MultiField._is_prime.
  destruct (Z.leb_spec p 1) as [H1|H1].
  { exists false. split; [done|]. split; [done|]. intros [Hp _]. lia. }
  destruct (Z.leb_spec p 3) as [H3|H3].
  { exists true. split; [done|]. split; [|done]. intros _.
    assert (p = 2 \/ p = 3)%Z as [-> | ->] by lia; [apply Z.prime_2|apply Z.prime_3]. }
  destruct ((Z.rem p 2 =? 0)%Z || (Z.rem p 3 =? 0)%Z) eqn:Hdiv.
  { exists false. split; [done|]. split; [done|]. intros [_ Hp].
    apply orb_true_iff in Hdiv as [Hdiv|Hdiv]; apply rem_divides in Hdiv; try lia; exfalso.
    - by apply (Hp 2%Z ltac:(lia)).
    - by apply (Hp 3%Z ltac:(lia)). }
  apply orb_false_iff in Hdiv as [Hd2 Hd3].
  assert (H2 : ~ (2 | p)%Z) by (intros Hd; apply rem_divides in Hd; [congruence|lia]).
  assert (H3' : ~ (3 | p)%Z) by (intros Hd; apply rem_divides in Hd; [congruence|lia]).
  assert (Hfuel : Z.to_nat p = S (Z.to_nat (p - 1))) by lia.
  rewrite Hfuel.
  destruct (_is_prime_loop_spec p (Z.to_nat (p - 1)) 5%Z) as (b & Hb & Hiff);
    [lia|done|lia| |].
  { intros j Hj. lia. }
  exists b. split; [done|]. rewrite Hiff. split.
  - by apply prime_by_trial.
  - intros [_ Hp] j Hj Hj6 Hjp. split; apply Hp; nia.
Qed.

(** X2: [_is_prime(p)] returns, and its answer is [true] exactly when [p] is a
    prime number; in particular it is [false] for every [p <= 1]. *)
Theorem _is_prime_decides_primality (p : Z) :
  exists b, MultiField._is_prime p = Some b /\ (b = true <-> Z.prime p).
Proof. apply _is_prime_spec. Qed.

(** ** [initialize]: the characteristics it collects *)

Section InitializeFacts.
Import MultiField.
Local Open Scope Z_scope.

Lemma is_prime_Z_complete (n : Z) : Z.prime n -> is_prime_Z n = true.
Proof.
  intros [Hn Hdiv]. unfold is_prime_Z. apply andb_true_iff. split; [by apply Z.ltb_lt|].
  apply forallb_forall. intros d Hd. apply in_seq in Hd.
  apply negb_true_iff, Z.eqb_neq. intros Hmod.
  apply (Hdiv (Z.of_nat d)); [lia|]. apply Z.mod_divide; [lia|done].
Qed.

Lemma is_prime_Z_iff (n : Z) : is_prime_Z n = true <-> Z.prime n.
Proof. split; [apply is_prime_Z_correct|apply is_prime_Z_complete]. Qed.

(** The loop of [initialize] from a prime [tmp]: it adds to [acc] the primes
    from [tmp] to [maximum], in increasing order. *)
Lemma collect_primes_complete (P lo maximum : Z) (fuel : nat) :
  is_prime_Z P = true -> P < 2 ^ 32 -> maximum < P ->
  forall tmp acc primes,
    collect_primes fuel tmp tmp maximum acc = Some primes ->
    is_prime_Z tmp = true -> lo <= tmp <= P ->
    StronglySorted Z.lt acc ->
    (forall q, q ∈ acc <-> Z.prime q /\ lo <= q < tmp /\ q <= maximum) ->
    StronglySorted Z.lt primes /\
    (forall q, q ∈ primes <-> Z.prime q /\ lo <= q <= maximum).
Proof.
  intros HP HP32 Hmax.
  induction fuel as [|fuel IH]; intros tmp acc primes; simpl; [done|].
  destruct (Z.leb_spec tmp maximum) as [Hle|Hgt].
  - destruct (mpz_nextprime tmp) as [np|] eqn:Hnp; [|done].
    destruct (mpz_nextprime_spec _ _ Hnp) as (Hprime & Hlt & Hleast).
    intros Hrun Htmp HtmpP Hsorted Hacc.
    assert (HnpP : np <= P) by (apply Hleast; [done|lia]).
    pose proof (Z.prime_ge_2 tmp (is_prime_Z_correct tmp Htmp)) as Htmp2.
    rewrite to_uint_small in Hrun by lia.
    apply (IH np (acc ++ [tmp]) primes Hrun Hprime); [lia| |].
    + apply StronglySorted_app_2; [|done|repeat constructor].
      intros x1 x2 Hx1 Hx2. apply list_elem_of_singleton in Hx2 as ->.
      apply Hacc in Hx1. lia.
    + intros q. rewrite elem_of_app, list_elem_of_singleton, Hacc. split.
      * intros [(Hq & Hrange & Hqm)|Hq].
        { split; [done|lia]. }
        subst q. split; [by apply is_prime_Z_correct|lia].
      * intros (Hq & Hrange & Hqm).
        destruct (Z.lt_trichotomy q tmp) as [Hc|[Hc|Hc]]; [left; split; [done|lia]|by right|].
        exfalso. apply is_prime_Z_complete in Hq. specialize (Hleast q Hq Hc). lia.
  - intros [= <-] Htmp HtmpP Hsorted Hacc. split; [done|].
    intros q. rewrite Hacc. split; [intros (? & ? & ?); split; [done|lia]|].
    intros (? & ?). split; [done|lia].
Qed.

(** What [initialize] computes from the list of primes it collected. *)
Lemma initialize_inv (P minimum maximum : Z) (st : state) :
  is_prime_Z P = true -> P < 2 ^ 32 -> maximum < P ->
  initialize minimum maximum = Ok st ->
  2 <= maximum /\ minimum <= maximum /\
  primes_ st <> [] /\
  productOfAllCharacteristics_ st = list_product (primes_ st) /\
  partials_ st =
    map (fun p => mpz_powm_ui (productOfAllCharacteristics_ st / p) (p - 1)
                    (productOfAllCharacteristics_ st)) (primes_ st) /\
  exists first,
    is_prime_Z first = true /\ minimum <= first /\
    (forall q, Z.prime q -> minimum <= q -> first <= q) /\
    first <= P /\
    of_option (collect_primes (Z.to_nat maximum + 1) first first maximum [])
      = Ok (primes_ st).
Proof.
  intros HP HP32 HmaxP. unfold initialize.
  destruct (Z.ltb_spec maximum 2) as [|Hmax2]; [done|].
  destruct (Z.ltb_spec maximum minimum) as [|Hmm]; [done|].
  destruct (if minimum =? maximum then of_option (_is_prime (to_int minimum)) else Ok true)
    as [b| | |]; cbn [mbind result_bind rbind]; try done.
  destruct ((minimum =? maximum) && negb b); [done|].
  unfold mpz_probab_prime_p.
  assert (Hend : forall first primes,
             is_prime_Z first = true -> minimum <= first ->
             (forall q, Z.prime q -> minimum <= q -> first <= q) ->
             first <= P ->
             of_option (collect_primes (Z.to_nat maximum + 1) first first maximum [])
               = Ok primes ->
             (if (length primes =? 0)%nat then Throw invalid_argument
              else Ok (mkState primes (fold_left (fun acc p => acc * p) primes 1)
                         (map (fun p => mpz_powm_ui
                                 (fold_left (fun acc p => acc * p) primes 1 / p) (p - 1)
                                 (fold_left (fun acc p => acc * p) primes 1)) primes)))
             = Ok st ->
             2 <= maximum /\ minimum <= maximum /\
             primes_ st <> [] /\
             productOfAllCharacteristics_ st = list_product (primes_ st) /\
             partials_ st =
               map (fun p => mpz_powm_ui (productOfAllCharacteristics_ st / p) (p - 1)
                               (productOfAllCharacteristics_ st)) (primes_ st) /\
             exists first,
               is_prime_Z first = true /\ minimum <= first /\
               (forall q, Z.prime q -> minimum <= q -> first <= q) /\
               first <= P /\
               of_option (collect_primes (Z.to_nat maximum + 1) first first maximum [])
                 = Ok (primes_ st)).
  { intros first primes Hfirst Hle Hleast HfirstP Hrun.
    destruct primes as [|p0 primes]; [done|]. cbn [length Nat.eqb].
    intros [= <-]. cbn [primes_ productOfAllCharacteristics_ partials_].
    split; [done|]. split; [done|]. split; [done|].
    split; [rewrite fold_left_mul; unfold list_product; simpl; lia|]. split; [done|]. by exists first. }
  destruct (is_prime_Z minimum) eqn:Hmin; cbn [Z.eqb mbind result_bind rbind].
  - destruct (of_option (collect_primes _ minimum minimum maximum [])) as [primes| | |] eqn:Hrun;
      cbn [mbind result_bind rbind]; try done.
    apply (Hend minimum primes); [done|lia|intros; lia|lia|done].
  - destruct (mpz_nextprime minimum) as [np|] eqn:Hnp; cbn [of_option mbind result_bind rbind];
      [|done].
    destruct (mpz_nextprime_spec _ _ Hnp) as (Hprime & Hlt & Hleast).
    assert (HnpP : np <= P) by (apply Hleast; [done|lia]).
    pose proof (Z.prime_ge_2 np (is_prime_Z_correct np Hprime)) as Hnp2.
    rewrite to_uint_small by lia.
    destruct (of_option (collect_primes _ np np maximum [])) as [primes| | |] eqn:Hrun;
      cbn [mbind result_bind rbind]; try done.
    apply (Hend np primes); [done|lia| |done|done].
    intros q Hq Hqmin. apply Hleast; [by apply is_prime_Z_complete|].
    assert (q <> minimum); [|lia]. intros ->. apply is_prime_Z_complete in Hq. congruence.
Qed.

Lemma initialize_primes (P minimum maximum : Z) (st : state) :
  is_prime_Z P = true -> P < 2 ^ 32 -> maximum < P ->
  initialize minimum maximum = Ok st ->
  StronglySorted Z.lt (primes_ st) /\
  (forall q, q ∈ primes_ st <-> Z.prime q /\ minimum <= q <= maximum).
Proof.
  intros HP HP32 HmaxP Hinit.
  destruct (initialize_inv P _ _ _ HP HP32 HmaxP Hinit)
    as (_ & _ & _ & _ & _ & first & Hfirst & Hle & Hleast & HfirstP & Hrun).
  destruct (collect_primes _ first first maximum []) as [l|] eqn:Hl; [|done].
  injection Hrun as ->.
  destruct (collect_primes_complete P first maximum _ HP HP32 HmaxP first [] _ Hl Hfirst)
    as [Hsorted Hmem]; [lia|constructor| |].
  { intros q. split; [by intros ?%elem_of_nil|]. intros (_ & ? & _). lia. }
  split; [done|]. intros q. rewrite Hmem. split.
  - intros [Hq ?]. split; [done|lia].
  - intros [Hq ?]. split; [done|]. specialize (Hleast q Hq). lia.
Qed.



Lemma to_int_small (u : Z) : 0 <= u < 2 ^ 31 -> to_int u = u.
Proof.
  intros Hu. unfold to_int. rewrite Z.mod_small by lia.
  destruct (Z.ltb_spec u (2 ^ 31)); lia.
Qed.

Lemma to_int_large (u : Z) : 2 ^ 31 <= u < 2 ^ 32 -> to_int u < 0.
Proof.
  intros Hu. unfold to_int. rewrite Z.mod_small by lia.
  destruct (Z.ltb_spec u (2 ^ 31)); lia.
Qed.

Lemma initialize_throws (minimum maximum : Z) :
  0 <= minimum < 2 ^ 32 ->
  maximum < 2 \/ maximum < minimum \/
  (minimum = maximum /\ (~ Z.prime minimum \/ 2 ^ 31 <= minimum)) ->
  initialize minimum maximum = Throw invalid_argument.
Proof.
  intros Hmin Hcases. unfold initialize.
  destruct (Z.ltb_spec maximum 2) as [|Hmax2]; [done|].
  destruct (Z.ltb_spec maximum minimum) as [|Hmm]; [done|].
  destruct Hcases as [?|[?|[<- Hnp]]]; [lia|lia|].
  rewrite Z.eqb_refl.
  destruct (_is_prime_spec (to_int minimum)) as (b & -> & Hb).
  cbn [of_option mbind result_bind rbind].
  assert (b = false) as ->; [|done].
  destruct b; [|done]. exfalso. destruct (proj1 Hb eq_refl) as [Hgt Hdiv].
  destruct (Z.lt_ge_cases minimum (2 ^ 31)) as [Hsmall|Hlarge].
  - rewrite to_int_small in * by lia. destruct Hnp as [Hnp|]; [|lia].
    apply Hnp. by split.
  - pose proof (to_int_large minimum ltac:(lia)). lia.
Qed.

End InitializeFacts.

(** X3: when [initialize(minimum, maximum)] returns, with [maximum] below a
    prime that fits an [unsigned int], [primes_] lists in increasing order
    exactly the prime numbers of the interval, which has at least one;
    [productOfAllCharacteristics_] is their product and [partials_] holds, for
    each prime [p], the power [p - 1] of the product of the other primes,
    reduced modulo the product. *)
Theorem initialize_lists_the_primes (P minimum maximum : Z) (st : MultiField.state) :
  MultiField.is_prime_Z P = true -> (P < 2 ^ 32)%Z -> (maximum < P)%Z ->
  MultiField.initialize minimum maximum = Ok st ->
  StronglySorted Z.lt (MultiField.primes_ st) /\
  (forall q, q ∈ MultiField.primes_ st <-> Z.prime q /\ (minimum <= q <= maximum)%Z) /\
  MultiField.primes_ st <> [] /\
  MultiField.productOfAllCharacteristics_ st = list_product (MultiField.primes_ st) /\
  MultiField.partials_ st =
    map (fun p => MultiField.mpz_powm_ui
                    (MultiField.productOfAllCharacteristics_ st / p) (p - 1)
                    (MultiField.productOfAllCharacteristics_ st))%Z
        (MultiField.primes_ st).
Proof.
  intros HP HP32 HmaxP Hinit.
  destruct (initialize_primes P _ _ _ HP HP32 HmaxP Hinit) as [Hsorted Hmem].
  destruct (initialize_inv P _ _ _ HP HP32 HmaxP Hinit) as (_ & _ & Hne & Hprod & Hpart & _).
  done.
Qed.

Lemma initialize_lists_the_primes_witness :
  StronglySorted Z.lt (MultiField.primes_ MultiField.st_2_7) /\
  (forall q, q ∈ MultiField.primes_ MultiField.st_2_7 <-> Z.prime q /\ (2 <= q <= 7)%Z) /\
  MultiField.primes_ MultiField.st_2_7 <> [] /\
  MultiField.productOfAllCharacteristics_ MultiField.st_2_7
    = list_product (MultiField.primes_ MultiField.st_2_7) /\
  MultiField.partials_ MultiField.st_2_7 =
    map (fun p => MultiField.mpz_powm_ui
                    (MultiField.productOfAllCharacteristics_ MultiField.st_2_7 / p) (p - 1)
                    (MultiField.productOfAllCharacteristics_ MultiField.st_2_7))%Z
        (MultiField.primes_ MultiField.st_2_7).
Proof.
  apply (initialize_lists_the_primes 11 2 7 MultiField.st_2_7).
  - reflexivity.
  - reflexivity.
  - reflexivity.
  - vm_compute. reflexivity.
Defined.

(** X4: [initialize(minimum, maximum)] throws [std::invalid_argument] when
    [maximum] is below 2, when the interval is empty, and when it is the single
    value [minimum] and that value is not a prime number or does not fit an
    [int] (its conversion for [_is_prime] is then negative). *)
Theorem initialize_rejects (minimum maximum : Z) :
  (0 <= minimum < 2 ^ 32)%Z ->
  (maximum < 2)%Z \/ (maximum < minimum)%Z \/
  (minimum = maximum /\ (~ Z.prime minimum \/ (2 ^ 31 <= minimum)%Z)) ->
  MultiField.initialize minimum maximum = Throw invalid_argument.
Proof. apply initialize_throws. Qed.

Lemma initialize_rejects_witness :
  MultiField.initialize 2147483659 2147483659 = Throw invalid_argument.
Proof.
  apply (initialize_rejects 2147483659 2147483659).
  - lia.
  - right. right. split; [reflexivity|]. right. lia.
Defined.

(** ** Inverses and partial identities of the multi-field, in general *)

Section GeneralInverse.
Local Open Scope Z_scope.
Import MultiField.

Variable st : state.
Hypothesis Hinit : initialized st.

Let M : Z := productOfAllCharacteristics_ st.

(** Chinese remainders: two integers that agree modulo every characteristic
    agree modulo their product. *)
Lemma crt_unique (a b : Z) :
  (forall p, p ∈ primes_ st -> a mod p = b mod p) -> a mod M = b mod M.
Proof.
  intros Hall. pose proof (product_pos st Hinit) as HM. fold M in HM.
  destruct Hinit as (Hnd & Hpr & HMeq & _). fold M in HMeq.
  assert (Hdiv : (M | a - b)).
  { rewrite HMeq. apply list_product_divide; [done..|].
    apply Forall_forall. intros p Hp.
    rewrite Forall_forall in Hpr. pose proof (Z.prime_ge_2 p (Hpr p Hp)).
    apply Z.mod_divide; [lia|]. rewrite Zminus_mod, (Hall p Hp), Z.sub_diag. apply Z.mod_0_l. lia. }
  destruct Hdiv as [k Hk]. replace a with (b + k * M) by lia.
  apply Z.mod_add. lia.
Qed.

Lemma mpz_mod_M (n : Z) : mpz_mod n M = n mod M.
Proof.
  pose proof (product_pos st Hinit) as HM. fold M in HM.
  unfold mpz_mod. by rewrite Z.abs_eq by lia.
Qed.

Lemma mod_M_mod (n p : Z) : p ∈ primes_ st -> (n mod M) mod p = n mod p.
Proof. intros Hp. apply Z.mod_mod_divide. by apply prime_divides_product. Qed.

Lemma partial_inverse_reduced (x r : Shared_multi_field_element) (Q w : Z) :
  get_partial_inverse st x Q = Some (r, w) -> reduced st r.
Proof.
  pose proof (product_pos st Hinit) as HM. fold M in HM.
  unfold get_partial_inverse, reduced. fold M.
  destruct (mpz_gcd (element_ x) Q =? Q).
  { intros [= <- _]. simpl. lia. }
  destruct (mpz_invert _ _); [|done]. intros [= <- _].
  unfold mul_z. cbn [element_]. fold M. rewrite mpz_mod_M. apply Z.mod_pos_bound. lia.
Qed.

Lemma invertible_factors_divides (x p : Z) (sub : list Z) :
  p ∈ sub -> p ∉ invertible_factors x sub -> divides x p = true.
Proof.
  intros Hp Hnot. destruct (divides x p) eqn:Hd; [done|].
  exfalso. apply Hnot. apply elem_of_list_filter. by rewrite Hd.
Qed.

Lemma get_inverse_unit (x : Shared_multi_field_element) :
  Z.gcd (element_ x) M = 1 ->
  exists inv, get_inverse st x = Some inv /\
              mul st x inv = get_multiplicative_identity st.
Proof.
  intros Hgcd. pose proof (product_pos st Hinit) as HM. fold M in HM.
  pose proof Hinit as (Hnd & Hpr & HMeq & _). fold M in HMeq.
  unfold get_inverse. fold M. rewrite HMeq.
  destruct (decide (invertible_factors (element_ x) (primes_ st) = [])) as [Hnil|Hne].
  - rewrite (partial_inverse_fail st Hinit x (primes_ st) Hnd (fun p H => H) Hnil).
    exists zero. split; [done|].
    apply (invertible_factors_nil st Hinit) in Hnil; [|done..].
    rewrite <- HMeq, Hgcd in Hnil.
    unfold mul, get_multiplicative_identity, make, multiplicativeID_. fold M.
    rewrite !mpz_mod_M, <- Hnil. by rewrite !Z.mod_1_r.
  - destruct (partial_inverse_success st Hinit x (primes_ st) Hnd (fun p H => H) Hne)
      as (r & -> & Hone & _).
    exists r. split; [done|].
    unfold mul, get_multiplicative_identity, make, multiplicativeID_. fold M.
    rewrite !mpz_mod_M. f_equal. apply crt_unique. intros p Hp.
    pose proof (primes_ge_2 st Hinit p Hp).
    rewrite Hone; [by rewrite Z.mod_small by lia|].
    apply elem_of_list_filter. split; [done|]. apply negb_true_iff.
    destruct (divides (element_ x) p) eqn:Hd; [|done]. exfalso.
    apply divides_spec in Hd; [|lia].
    assert (Hp1 : (p | 1)).
    { rewrite <- Hgcd. apply Z.gcd_greatest; [done|by apply prime_divides_product]. }
    apply Z.divide_1_r in Hp1. lia.
Qed.

Lemma get_inverse_pseudo (x : Shared_multi_field_element) :
  reduced st x ->
  exists inv, get_inverse st x = Some inv /\ reduced st inv /\
              mul st (mul st x inv) x = x.
Proof.
  intros Hx. pose proof (product_pos st Hinit) as HM. fold M in HM.
  pose proof Hinit as (Hnd & Hpr & HMeq & _). fold M in HMeq.
  unfold reduced in Hx. fold M in Hx.
  unfold get_inverse. fold M. rewrite HMeq.
  destruct (get_partial_inverse st x (list_product (primes_ st))) as [[r w]|] eqn:Hrun.
  2:{ destruct (decide (invertible_factors (element_ x) (primes_ st) = [])) as [Hnil|Hne].
      - by rewrite (partial_inverse_fail st Hinit x (primes_ st) Hnd (fun p H => H) Hnil) in Hrun.
      - destruct (partial_inverse_success st Hinit x (primes_ st) Hnd (fun p H => H) Hne)
          as (r & Hr & _). by rewrite Hr in Hrun. }
  exists r. split; [done|]. split; [by eapply partial_inverse_reduced|].
  destruct x as [x]. cbn [element_] in *.
  unfold mul. cbn [element_]. fold M. rewrite !mpz_mod_M. f_equal.
  rewrite <- (Z.mod_small x M) at 3 by lia. apply crt_unique. intros p Hp.
  pose proof (primes_ge_2 st Hinit p Hp).
  rewrite <- Z.mul_mod_idemp_l, mod_M_mod by (done || lia).
  destruct (decide (invertible_factors x (primes_ st) = [])) as [Hnil|Hne].
  - apply (invertible_factors_nil st Hinit) in Hnil; [|done..].
    assert (Hdiv : (M | x)) by (rewrite HMeq, <- Hnil; apply Z.gcd_divide_l).
    assert (x = 0) as ->.
    { destruct Hdiv as [k Hk]. destruct (Z.lt_trichotomy k 0) as [?|[->|?]]; [nia|lia|nia]. }
    by rewrite Z.mul_0_r.
  - destruct (partial_inverse_success st Hinit (mkElt x) (primes_ st) Hnd (fun p H => H) Hne)
      as (r' & Hr' & Hone & Hzero).
    rewrite Hrun in Hr'. injection Hr' as <- _. cbn [element_] in *.
    destruct (decide (p ∈ invertible_factors x (primes_ st))) as [Hin|Hnin].
    + rewrite (Hone p Hin). f_equal. lia.
    + pose proof (invertible_factors_divides x p _ Hp Hnin) as Hd.
      apply divides_spec in Hd; [|lia]. apply Z.mod_divide in Hd; [|lia].
      rewrite <- Z.mul_mod_idemp_r, Hd, Z.mul_0_r by lia. done.
Qed.

Lemma divides_list_product (sub : list Z) (q : Z) :
  NoDup sub -> (forall p, p ∈ sub -> p ∈ primes_ st) -> q ∈ primes_ st ->
  divides (list_product sub) q = bool_decide (q ∈ sub).
Proof.
  intros Hnd Hsub Hq. pose proof (primes_ge_2 st Hinit q Hq).
  assert (Hpr : Forall Z.prime sub).
  { apply Forall_forall. intros p Hp. by apply (primes_prime st Hinit), Hsub. }
  destruct (decide (q ∈ sub)) as [Hin|Hnin].
  - rewrite bool_decide_eq_true_2 by done. apply divides_spec; [lia|].
    by apply divide_list_product.
  - rewrite bool_decide_eq_false_2 by done. apply not_true_is_false. intros Hd.
    apply divides_spec in Hd; [|lia]. apply Hnin.
    apply prime_divide_list_product; [by apply (primes_prime st Hinit)|done..].
Qed.

Lemma partial_identity_reduced (Q : Z) :
  reduced st (get_partial_multiplicative_identity st Q).
Proof.
  pose proof (product_pos st Hinit) as HM. fold M in HM.
  unfold get_partial_multiplicative_identity, reduced. fold M.
  destruct (Q =? 0).
  { unfold make. cbn [element_]. fold M. rewrite mpz_mod_M. apply Z.mod_pos_bound. lia. }
  assert (Hz : 0 <= element_ zero < M) by (simpl; lia).
  revert Hz. generalize zero. generalize (combine (primes_ st) (partials_ st)).
  intros l. induction l as [|[p partial] l IH]; intros acc Hacc; simpl; [done|].
  apply IH. destruct (Z.rem Q p =? 0); [|done].
  unfold add_z. cbn [element_]. fold M. rewrite mpz_mod_M. apply Z.mod_pos_bound. lia.
Qed.

Lemma partial_identity_values (sub : list Z) (q : Z) :
  NoDup sub -> (forall p, p ∈ sub -> p ∈ primes_ st) -> q ∈ primes_ st ->
  element_ (get_partial_multiplicative_identity st (list_product sub)) mod q
    = Z.b2z (bool_decide (q ∈ sub)).
Proof.
  intros Hnd Hsub Hq.
  assert (Hpr : Forall Z.prime sub).
  { apply Forall_forall. intros p Hp. by apply (primes_prime st Hinit), Hsub. }
  rewrite (partial_identity_mod st Hinit) by (done || by apply list_product_pos).
  by rewrite divides_list_product.
Qed.

Lemma partial_identity_idem (sub : list Z) :
  NoDup sub -> (forall p, p ∈ sub -> p ∈ primes_ st) ->
  let e := get_partial_multiplicative_identity st (list_product sub) in
  mul st e e = e.
Proof.
  intros Hnd Hsub e. pose proof (partial_identity_reduced (list_product sub)) as He.
  fold e in He. unfold reduced in He. fold M in He.
  unfold mul. fold M. rewrite mpz_mod_M. destruct e as [v] eqn:Heq. cbn [element_] in *.
  f_equal. rewrite <- (Z.mod_small v M) at 3 by lia. apply crt_unique. intros p Hp.
  pose proof (primes_ge_2 st Hinit p Hp).
  pose proof (partial_identity_values sub p Hnd Hsub Hp) as Hv.
  fold e in Hv. rewrite Heq in Hv. cbn [element_] in Hv.
  rewrite Z.mul_mod, Hv by lia. destruct (bool_decide (p ∈ sub)); simpl; by rewrite Z.mod_small by lia.
Qed.

Lemma partial_identity_full :
  get_partial_multiplicative_identity st M = get_multiplicative_identity st.
Proof.
  pose proof (product_pos st Hinit) as HM. fold M in HM.
  pose proof Hinit as (Hnd & Hpr & HMeq & _). fold M in HMeq.
  pose proof (partial_identity_reduced M) as He. unfold reduced in He. fold M in He.
  unfold get_multiplicative_identity, make, multiplicativeID_. fold M. rewrite mpz_mod_M.
  destruct (get_partial_multiplicative_identity st M) as [v] eqn:Heq. cbn [element_] in *.
  f_equal. rewrite <- (Z.mod_small v M) by lia. apply crt_unique. intros p Hp.
  pose proof (primes_ge_2 st Hinit p Hp).
  pose proof (partial_identity_values (primes_ st) p Hnd (fun p H => H) Hp) as Hv.
  rewrite <- HMeq, Heq in Hv. cbn [element_] in Hv.
  rewrite Hv, bool_decide_eq_true_2 by done. simpl. by rewrite Z.mod_small by lia.
Qed.

End GeneralInverse.

Section Arithmetic.
Local Open Scope Z_scope.
Import MultiField MultiFieldArith.

Variable st : state.
Let M : Z := productOfAllCharacteristics_ st.
Hypothesis HM : 0 < M.

Lemma mpz_mod_pos (n : Z) : mpz_mod n M = n mod M.
Proof. unfold mpz_mod. by rewrite Z.abs_eq by lia. Qed.

Lemma mpz_mod_reduced (n : Z) : reduced st (mkElt (mpz_mod n M)).
Proof. unfold reduced. cbn [element_]. fold M. rewrite mpz_mod_pos. apply Z.mod_pos_bound. lia. Qed.

Lemma sub_add_cancel (a b : Shared_multi_field_element) :
  reduced st a -> sub st (add st a b) b = a /\ add st (sub st a b) b = a.
Proof.
  unfold reduced. fold M. destruct a as [a], b as [b]. cbn [element_]. intros Ha.
  unfold sub, add. cbn [element_]. fold M. rewrite !mpz_mod_pos.
  split; f_equal.
  - rewrite Zminus_mod_idemp_l. replace (a + b - b) with a by lia. by apply Z.mod_small.
  - rewrite Z.add_mod_idemp_l by lia. replace (a - b + b) with a by lia. by apply Z.mod_small.
Qed.

Lemma z_sub_nonneg (v : Z) (f : Shared_multi_field_element) :
  reduced st f -> 0 <= v -> z_sub st v f = (v - element_ f) mod M.
Proof.
  unfold reduced. fold M. destruct f as [f]. cbn [element_]. intros Hf Hv.
  unfold z_sub. cbn [element_]. fold M.
  assert (Hcase : forall e, 0 <= e < M -> e mod M = v mod M ->
             (if e <? f then e + M else e) - f = (v - f) mod M).
  { intros e He Hev. rewrite <- Zminus_mod_idemp_l, <- Hev, Zminus_mod_idemp_l.
    destruct (Z.ltb_spec e f).
    - rewrite <- (Z.mod_add (e - f) 1 M) by lia. rewrite Z.mod_small; lia.
    - rewrite Z.mod_small; lia. }
  destruct (Z.leb_spec M v).
  - apply Hcase; rewrite mpz_mod_pos; [apply Z.mod_pos_bound; lia|by rewrite Z.mod_mod by lia].
  - by apply Hcase.
Qed.

Lemma z_sub_negative (v : Z) (f : Shared_multi_field_element) :
  reduced st f -> v < 0 -> z_sub st v f = v + M - element_ f.
Proof.
  unfold reduced. fold M. destruct f as [f]. cbn [element_]. intros Hf Hv.
  unfold z_sub. cbn [element_]. fold M.
  destruct (Z.leb_spec M v); [lia|]. destruct (Z.ltb_spec v f); lia.
Qed.

Lemma eq_z_nonneg (v : Z) (f : Shared_multi_field_element) :
  0 <= v -> eq_z st v f = true <-> make st v = f.
Proof.
  destruct f as [f]. intros Hv. unfold eq_z, make. cbn [element_]. fold M.
  rewrite mpz_mod_pos. destruct (Z.ltb_spec v M).
  - rewrite Z.mod_small by lia. rewrite Z.eqb_eq. split; [by intros ->|by intros [= ->]].
  - rewrite Z.eqb_eq. split; [by intros ->|by intros [= ->]].
Qed.

Lemma eq_z_negative (v : Z) (f : Shared_multi_field_element) :
  reduced st f -> v < 0 -> eq_z st v f = false.
Proof.
  unfold reduced. fold M. destruct f as [f]. cbn [element_]. intros Hf Hv.
  unfold eq_z. cbn [element_]. fold M.
  destruct (Z.ltb_spec v M); [|lia]. apply Z.eqb_neq. lia.
Qed.

End Arithmetic.

(** X5: in an initialised multi-field, [get_inverse] of an element whose value
    is coprime to the product of the characteristics is its inverse: the
    product of the two is the multiplicative identity. *)
Theorem get_inverse_of_unit (st : MultiField.state) (x : MultiField.Shared_multi_field_element) :
  initialized st ->
  Z.gcd (MultiField.element_ x) (MultiField.productOfAllCharacteristics_ st) = 1%Z ->
  exists inv,
    MultiField.get_inverse st x = Some inv /\
    MultiField.mul st x inv = MultiField.get_multiplicative_identity st.
Proof. intros Hinit. by apply get_inverse_unit. Qed.

Lemma get_inverse_of_unit_witness :
  exists inv,
    MultiField.get_inverse MultiField.st_2_7 (MultiField.mkElt 11) = Some inv /\
    MultiField.mul MultiField.st_2_7 (MultiField.mkElt 11) inv
      = MultiField.get_multiplicative_identity MultiField.st_2_7.
Proof.
  apply (get_inverse_of_unit MultiField.st_2_7 (MultiField.mkElt 11)).
  - exact initialized_2_7.
  - reflexivity.
Defined.

(** X6: in an initialised multi-field, [get_inverse] is defined on every
    reduced element [x], invertible or not; its result [y] is reduced and is a
    generalised inverse of [x]: [x * y * x = x]. *)
Theorem get_inverse_is_generalised_inverse
    (st : MultiField.state) (x : MultiField.Shared_multi_field_element) :
  initialized st ->
  reduced st x ->
  exists inv,
    MultiField.get_inverse st x = Some inv /\ reduced st inv /\
    MultiField.mul st (MultiField.mul st x inv) x = x.
Proof. intros Hinit. by apply get_inverse_pseudo. Qed.

Lemma get_inverse_is_generalised_inverse_witness :
  exists inv,
    MultiField.get_inverse MultiField.st_2_7 (MultiField.mkElt 10) = Some inv /\
    reduced MultiField.st_2_7 inv /\
    MultiField.mul MultiField.st_2_7
      (MultiField.mul MultiField.st_2_7 (MultiField.mkElt 10) inv) (MultiField.mkElt 10)
    = MultiField.mkElt 10.
Proof.
  apply (get_inverse_is_generalised_inverse MultiField.st_2_7 (MultiField.mkElt 10)).
  - exact initialized_2_7.
  - unfold reduced. simpl. lia.
Defined.

(** X7: in an initialised multi-field, the partial multiplicative identity of
    the product of some of the characteristics is reduced, idempotent, equal to
    1 modulo each of these characteristics and to 0 modulo the others; for the
    product of all the characteristics it is the multiplicative identity. *)
Theorem partial_identity_idempotent (st : MultiField.state) (sub : list Z) :
  initialized st ->
  NoDup sub ->
  (forall p, p ∈ sub -> p ∈ MultiField.primes_ st) ->
  let e := MultiField.get_partial_multiplicative_identity st (list_product sub) in
  reduced st e /\
  MultiField.mul st e e = e /\
  (forall q, q ∈ MultiField.primes_ st ->
     (MultiField.element_ e mod q = if bool_decide (q ∈ sub) then 1 else 0)%Z) /\
  MultiField.get_partial_multiplicative_identity st (MultiField.productOfAllCharacteristics_ st)
    = MultiField.get_multiplicative_identity st.
Proof.
  intros Hinit Hnd Hsub e.
  split; [by apply partial_identity_reduced|].
  split; [by apply partial_identity_idem|].
  split; [|by apply partial_identity_full].
  intros q Hq. unfold e. rewrite (partial_identity_values st Hinit) by done.
  by destruct (bool_decide (q ∈ sub)).
Qed.

Lemma partial_identity_idempotent_witness :
  let e := MultiField.get_partial_multiplicative_identity MultiField.st_2_7 15 in
  reduced MultiField.st_2_7 e /\
  MultiField.mul MultiField.st_2_7 e e = e /\
  (forall q, q ∈ [2; 3; 5; 7]%Z ->
     (MultiField.element_ e mod q = if bool_decide (q ∈ [3; 5]%Z) then 1 else 0)%Z) /\
  MultiField.get_partial_multiplicative_identity MultiField.st_2_7 210
    = MultiField.get_multiplicative_identity MultiField.st_2_7.
Proof.
  apply (partial_identity_idempotent MultiField.st_2_7 [3; 5]%Z).
  - exact initialized_2_7.
  - apply (bool_decide_unpack _). vm_compute. exact I.
  - apply Forall_forall. apply (bool_decide_unpack _). vm_compute. exact I.
Defined.

(** X8: once the characteristics are set, every constructor and operator
    returns a value reduced modulo their product, and on a reduced element
    subtraction undoes addition and addition undoes subtraction. *)
Theorem multi_field_values_stay_reduced
    (st : MultiField.state) (a b : MultiField.Shared_multi_field_element) (v : Z) :
  (0 < MultiField.productOfAllCharacteristics_ st)%Z ->
  reduced st (MultiField.make st v) /\
  reduced st (MultiFieldArith.assign_z st v) /\
  reduced st (MultiField.add st a b) /\ reduced st (MultiField.add_z st a v) /\
  reduced st (MultiFieldArith.sub st a b) /\ reduced st (MultiFieldArith.sub_z st a v) /\
  reduced st (MultiField.mul st a b) /\ reduced st (MultiField.mul_z st a v) /\
  reduced st (MultiField.mkElt (MultiFieldArith.z_add st v a)) /\
  reduced st (MultiField.mkElt (MultiFieldArith.z_mul st v a)) /\
  (reduced st a ->
   MultiFieldArith.sub st (MultiField.add st a b) b = a /\
   MultiField.add st (MultiFieldArith.sub st a b) b = a).
Proof.
  intros HM. repeat (split; [by apply mpz_mod_reduced|]). by apply sub_add_cancel.
Qed.

Lemma multi_field_values_stay_reduced_witness :
  reduced MultiField.st_2_7 (MultiField.make MultiField.st_2_7 (-1)) /\
  MultiFieldArith.sub MultiField.st_2_7
    (MultiField.add MultiField.st_2_7 (MultiField.mkElt 200) (MultiField.mkElt 100))
    (MultiField.mkElt 100) = MultiField.mkElt 200.
Proof.
  destruct (multi_field_values_stay_reduced MultiField.st_2_7
              (MultiField.mkElt 200) (MultiField.mkElt 100) (-1))
    as (H1 & _ & _ & _ & _ & _ & _ & _ & _ & _ & H2).
  - reflexivity.
  - split; [exact H1|]. apply H2. unfold reduced. simpl. lia.
Defined.

(** X9: [v - f] for an integer [v] and a reduced element [f] is the reduced
    difference when [v] is not negative; a negative [v] is not reduced first,
    the result is [v + M - f], which is negative as soon as [v < -M]. *)
Theorem integer_minus_element
    (st : MultiField.state) (v : Z) (f : MultiField.Shared_multi_field_element) :
  (0 < MultiField.productOfAllCharacteristics_ st)%Z ->
  reduced st f ->
  ((0 <= v)%Z ->
   MultiFieldArith.z_sub st v f
     = ((v - MultiField.element_ f) mod MultiField.productOfAllCharacteristics_ st)%Z) /\
  ((v < 0)%Z ->
   MultiFieldArith.z_sub st v f
     = (v + MultiField.productOfAllCharacteristics_ st - MultiField.element_ f)%Z /\
   ((v < - MultiField.productOfAllCharacteristics_ st)%Z ->
    (MultiFieldArith.z_sub st v f < 0)%Z)).
Proof.
  intros HM Hf. split.
  - by apply z_sub_nonneg.
  - intros Hv. rewrite z_sub_negative by done. split; [done|].
    unfold reduced in Hf. lia.
Qed.

Lemma integer_minus_element_witness :
  MultiFieldArith.z_sub MultiField.st_2_7 500 (MultiField.mkElt 100) = 190%Z /\
  MultiFieldArith.z_sub MultiField.st_2_7 (-500) (MultiField.mkElt 100) = (-390)%Z.
Proof.
  destruct (integer_minus_element MultiField.st_2_7 500 (MultiField.mkElt 100)) as [H1 _];
    [reflexivity|unfold reduced; simpl; lia|].
  destruct (integer_minus_element MultiField.st_2_7 (-500) (MultiField.mkElt 100)) as [_ H2];
    [reflexivity|unfold reduced; simpl; lia|].
  split.
  - rewrite H1 by lia. reflexivity.
  - destruct H2 as [H2 _]; [lia|]. rewrite H2. reflexivity.
Defined.

(** X10: comparing an integer [v] with a reduced element [f]: a [v] that is not
    negative is equal to [f] exactly when the element built from [v] is [f];
    a negative [v] is never equal to [f], even when they are congruent. *)
Theorem integer_equals_element
    (st : MultiField.state) (v : Z) (f : MultiField.Shared_multi_field_element) :
  (0 < MultiField.productOfAllCharacteristics_ st)%Z ->
  reduced st f ->
  ((0 <= v)%Z -> MultiFieldArith.eq_z st v f = true <-> MultiField.make st v = f) /\
  ((v < 0)%Z -> MultiFieldArith.eq_z st v f = false).
Proof.
  intros HM Hf. split.
  - by apply eq_z_nonneg.
  - by apply eq_z_negative.
Qed.

Lemma integer_equals_element_witness :
  MultiFieldArith.eq_z MultiField.st_2_7 (-1) (MultiField.make MultiField.st_2_7 (-1)) = false.
Proof.
  destruct (integer_equals_element MultiField.st_2_7 (-1)
              (MultiField.make MultiField.st_2_7 (-1))) as [_ H].
  - reflexivity.
  - unfold reduced. vm_compute. split; [discriminate|reflexivity].
  - apply H. lia.
Defined.

(** ** Z2 set column: pivot, addition, reordering *)

Section Z2SetColumnFacts.
Import Z2SetColumn Z2SetColumnOps.

(** The row indices that [int get_pivot()] returns unchanged. *)
Lemma get_pivot_last (c : Z2_set_column) (r : nat) :
  set_Forall (fun x => (Z.of_nat x < 2 ^ 31)%Z) (column_ c) ->
  last (ordered (column_ c)) = Some r -> get_pivot c = Z.of_nat r.
Proof.
  intros Hsmall Hlast. unfold get_pivot. rewrite Hlast. apply to_int_small.
  apply last_ordered in Hlast as [Hin _]. specialize (Hsmall r Hin). cbn in Hsmall. lia.
Qed.

Lemma get_pivot_None (c : Z2_set_column) :
  set_Forall (fun x => (Z.of_nat x < 2 ^ 31)%Z) (column_ c) ->
  get_pivot c = (-1)%Z <-> column_ c = ∅.
Proof.
  intros Hsmall. destruct (last (ordered (column_ c))) as [r|] eqn:Hlast.
  - rewrite (get_pivot_last c r Hsmall Hlast).
    split; [lia|]. intros Hempty. apply ordered_empty in Hempty. by rewrite Hempty in Hlast.
  - unfold get_pivot. rewrite Hlast.
    split; [|done]. intros _. apply ordered_empty. by apply last_None.
Qed.

Lemma get_pivot_Some (c : Z2_set_column) (r : nat) :
  set_Forall (fun x => (Z.of_nat x < 2 ^ 31)%Z) (column_ c) ->
  get_pivot c = Z.of_nat r <-> r ∈ column_ c /\ forall x, x ∈ column_ c -> x <= r.
Proof.
  intros Hsmall. rewrite <- last_ordered.
  destruct (last (ordered (column_ c))) as [r'|] eqn:Hlast.
  - rewrite (get_pivot_last c r' Hsmall Hlast). split.
    + intros Hr. f_equal. lia.
    + by intros [= ->].
  - unfold get_pivot. rewrite Hlast. split; [lia|done].
Qed.

Lemma elem_of_add (a b : Z2_set_column) (x : nat) :
  x ∈ column_ (add a b) <->
  (x ∈ column_ a /\ x ∉ column_ b) \/ ((x ∉ column_ a) /\ x ∈ column_ b).
Proof.
  unfold add. cbn [column_]. rewrite elem_of_foldl_toggle by apply NoDup_ordered.
  by rewrite elem_of_ordered.
Qed.

Lemma get_pivot_cases (c : Z2_set_column) :
  set_Forall (fun x => (Z.of_nat x < 2 ^ 31)%Z) (column_ c) ->
  get_pivot c = (-1)%Z \/ exists r, get_pivot c = Z.of_nat r.
Proof.
  intros Hsmall. destruct (last (ordered (column_ c))) as [r|] eqn:Hlast.
  - right. exists r. by apply get_pivot_last.
  - left. unfold get_pivot. by rewrite Hlast.
Qed.

Lemma add_small (a b : Z2_set_column) :
  set_Forall (fun x => (Z.of_nat x < 2 ^ 31)%Z) (column_ a) ->
  set_Forall (fun x => (Z.of_nat x < 2 ^ 31)%Z) (column_ b) ->
  set_Forall (fun x => (Z.of_nat x < 2 ^ 31)%Z) (column_ (add a b)).
Proof.
  intros Ha Hb x Hx. apply elem_of_add in Hx as [[Hx _]|[_ Hx]]; [by apply Ha|by apply Hb].
Qed.

Lemma reorder_loop_spec (valueMap : list nat) (cells : list nat) :
  forall newSet,
    (Forall (fun x => x < length valueMap) cells ->
     exists s, reorder_loop valueMap cells newSet = Ok s /\
               forall w, w ∈ s <-> w ∈ newSet \/ exists x, x ∈ cells /\ valueMap !! x = Some w) /\
    (~ Forall (fun x => x < length valueMap) cells ->
     reorder_loop valueMap cells newSet = Throw out_of_range).
Proof.
  induction cells as [|v cells IH]; intros newSet; simpl.
  - split; [|intros H; by destruct H].
    intros _. exists newSet. split; [done|]. intros w. split; [by left|].
    intros [?|(x & Hx & _)]; [done|]. by apply elem_of_nil in Hx.
  - destruct (valueMap !! v) as [w0|] eqn:Hv.
    + destruct (IH ({[w0]} ∪ newSet)) as [IHok IHthrow]. split.
      * intros Hall. apply Forall_cons in Hall as [_ Hall].
        destruct (IHok Hall) as (s & -> & Hs). exists s. split; [done|].
        intros w. rewrite Hs, elem_of_union, elem_of_singleton. split.
        -- intros [[->|?]|(x & Hx & Hw)]; [right; exists v; split; [left|done]|by left|].
           right. exists x. split; [by right|done].
        -- intros [?|(x & Hx & Hw)]; [left; by right|].
           apply elem_of_cons in Hx as [->|Hx]; [left; left; congruence|].
           right. by exists x.
      * intros Hnot. apply IHthrow. intros Hall. apply Hnot. constructor; [|done].
        by apply lookup_lt_Some in Hv.
    + split; [|done]. intros Hall. apply Forall_cons in Hall as [Hlt _].
      apply lookup_ge_None in Hv. lia.
Qed.

End Z2SetColumnFacts.

(** X11: [int Z2_set_column::get_pivot()].  On a column whose row indices are
    below 2^31 it returns -1 exactly on the empty column, and otherwise a row
    index of the column that no other row index of the column exceeds.  A
    largest row index from 2^31 on is returned as a negative number, the
    [unsigned int] converted to [int]: for 2^32 - 1 this is -1, the value of
    the empty column. *)
Theorem Z2_set_column_pivot_is_largest_row (c : Z2SetColumn.Z2_set_column) :
  (set_Forall (fun x => (Z.of_nat x < 2 ^ 31)%Z) (Z2SetColumn.column_ c) ->
   (Z2SetColumn.get_pivot c = (-1)%Z <-> Z2SetColumnOps.is_empty c = true) /\
   (forall r : nat, Z2SetColumn.get_pivot c = Z.of_nat r <->
      Z2SetColumn.is_non_zero c r = true /\
      forall x, Z2SetColumn.is_non_zero c x = true -> x <= r) /\
   (Z2SetColumn.get_pivot c = (-1)%Z \/
    exists r : nat, Z2SetColumn.get_pivot c = Z.of_nat r)) /\
  (forall r : nat,
     Z2SetColumn.is_non_zero c r = true ->
     (forall x, Z2SetColumn.is_non_zero c x = true -> x <= r) ->
     (2 ^ 31 <= Z.of_nat r < 2 ^ 32)%Z ->
     Z2SetColumn.get_pivot c = (Z.of_nat r - 2 ^ 32)%Z).
Proof.
  split.
  - intros Hsmall. split; [|split; [|by apply get_pivot_cases]].
    + rewrite get_pivot_None by done. unfold Z2SetColumnOps.is_empty.
      by rewrite bool_decide_eq_true.
    + intros r. rewrite get_pivot_Some by done. unfold Z2SetColumn.is_non_zero.
      rewrite bool_decide_eq_true. split; intros [Hr Hmax]; (split; [done|]);
        intros x Hx; apply Hmax; [by apply bool_decide_eq_true in Hx|by apply bool_decide_eq_true].
  - intros r Hr Hmax Hlarge. unfold Z2SetColumn.is_non_zero in *.
    apply bool_decide_eq_true in Hr.
    assert (Hlast : last (ordered (Z2SetColumn.column_ c)) = Some r).
    { apply last_ordered. split; [done|]. intros x Hx. apply Hmax.
      by apply bool_decide_eq_true. }
    unfold Z2SetColumn.get_pivot. rewrite Hlast. unfold MultiField.to_int.
    rewrite Z.mod_small by lia. destruct (Z.ltb_spec (Z.of_nat r) (2 ^ 31)); lia.
Qed.

Lemma Z2_set_column_pivot_is_largest_row_witness :
  (Z2SetColumn.get_pivot (Z2SetColumn.mk 1 {[0; 2]}) = (-1)%Z <->
   Z2SetColumnOps.is_empty (Z2SetColumn.mk 1 {[0; 2]}) = true) /\
  (forall r : nat, Z2SetColumn.get_pivot (Z2SetColumn.mk 1 {[0; 2]}) = Z.of_nat r <->
     Z2SetColumn.is_non_zero (Z2SetColumn.mk 1 {[0; 2]}) r = true /\
     forall x, Z2SetColumn.is_non_zero (Z2SetColumn.mk 1 {[0; 2]}) x = true -> x <= r) /\
  (Z2SetColumn.get_pivot (Z2SetColumn.mk 1 {[0; 2]}) = (-1)%Z \/
   exists r : nat, Z2SetColumn.get_pivot (Z2SetColumn.mk 1 {[0; 2]}) = Z.of_nat r).
Proof.
  apply (proj1 (Z2_set_column_pivot_is_largest_row (Z2SetColumn.mk 1 {[0; 2]}))).
  apply (bool_decide_unpack _). vm_compute. reflexivity.
Defined.

(** X12: for Z2 set columns whose row indices are below 2^31, adding a column
    with the same pivot gives a column whose pivot is strictly smaller (-1
    when the sum is empty); adding a column with a larger pivot gives a column
    with that larger pivot. *)
Theorem Z2_set_column_add_lowers_pivot (a b : Z2SetColumn.Z2_set_column) :
  set_Forall (fun x => (Z.of_nat x < 2 ^ 31)%Z) (Z2SetColumn.column_ a) ->
  set_Forall (fun x => (Z.of_nat x < 2 ^ 31)%Z) (Z2SetColumn.column_ b) ->
  (Z2SetColumn.get_pivot a = Z2SetColumn.get_pivot b ->
   Z2SetColumn.get_pivot a <> (-1)%Z ->
   (Z2SetColumn.get_pivot (Z2SetColumn.add a b) < Z2SetColumn.get_pivot a)%Z) /\
  ((Z2SetColumn.get_pivot a < Z2SetColumn.get_pivot b)%Z ->
   Z2SetColumn.get_pivot (Z2SetColumn.add a b) = Z2SetColumn.get_pivot b).
Proof.
  intros Hsa Hsb. pose proof (add_small a b Hsa Hsb) as Hsab. split.
  - intros Heq Hne.
    destruct (get_pivot_cases a Hsa) as [?|[r Hr]]; [done|]. rewrite Hr in *.
    symmetry in Heq. apply (get_pivot_Some a r Hsa) in Hr as [Hra Hmaxa].
    apply (get_pivot_Some b r Hsb) in Heq as [Hrb Hmaxb].
    destruct (get_pivot_cases (Z2SetColumn.add a b) Hsab) as [->|[r' Hr']]; [lia|].
    rewrite Hr'. apply (get_pivot_Some _ r' Hsab) in Hr' as [Hin _].
    apply elem_of_add in Hin as [[Hin Hnin]|[Hnin Hin]].
    + assert (r' ≠ r) by (intros ->; done). specialize (Hmaxa _ Hin). lia.
    + assert (r' ≠ r) by (intros ->; done). specialize (Hmaxb _ Hin). lia.
  - intros Hlt.
    destruct (get_pivot_cases b Hsb) as [Hb|[r Hr]].
    { rewrite Hb in Hlt. destruct (get_pivot_cases a Hsa) as [Ha|[r Hr]]; lia. }
    rewrite Hr in *. apply (get_pivot_Some b r Hsb) in Hr as [Hrb Hmaxb].
    apply (get_pivot_Some _ r Hsab). split.
    + apply elem_of_add. right. split; [|done]. intros Hra.
      destruct (get_pivot_cases a Hsa) as [Ha|[ra Ha]].
      * apply (get_pivot_None a Hsa) in Ha. rewrite Ha in Hra.
        by apply not_elem_of_empty in Hra.
      * rewrite Ha in Hlt. apply (get_pivot_Some a ra Hsa) in Ha as [_ Hmaxa].
        specialize (Hmaxa _ Hra). lia.
    + intros x Hx. apply elem_of_add in Hx as [[Hx _]|[_ Hx]]; [|by apply Hmaxb].
      destruct (get_pivot_cases a Hsa) as [Ha|[ra Ha]].
      * apply (get_pivot_None a Hsa) in Ha. rewrite Ha in Hx.
        by apply not_elem_of_empty in Hx.
      * rewrite Ha in Hlt. apply (get_pivot_Some a ra Hsa) in Ha as [_ Hmaxa].
        specialize (Hmaxa _ Hx). lia.
Qed.

Lemma Z2_set_column_add_lowers_pivot_witness :
  Z.lt (Z2SetColumn.get_pivot
          (Z2SetColumn.add (Z2SetColumn.mk 1 {[0; 2]}) (Z2SetColumn.mk 1 {[1; 2]})))
       (Z2SetColumn.get_pivot (Z2SetColumn.mk 1 {[0; 2]})).
Proof.
  apply (proj1 (Z2_set_column_add_lowers_pivot
                  (Z2SetColumn.mk 1 {[0; 2]}) (Z2SetColumn.mk 1 {[1; 2]})
                  ltac:(apply (bool_decide_unpack _); vm_compute; reflexivity)
                  ltac:(apply (bool_decide_unpack _); vm_compute; reflexivity))).
  - vm_compute. reflexivity.
  - vm_compute. discriminate.
Defined.

(** X13: [Z2_set_column::reorder(valueMap)]: when every row index of the column
    is below the size of [valueMap], the column becomes the set of the images
    of its row indices and keeps its dimension; otherwise the call throws
    [std::out_of_range] and leaves the column as it was. *)
Theorem Z2_set_column_reorder (self : Z2SetColumn.Z2_set_column) (valueMap : list nat) :
  ((forall x, x ∈ Z2SetColumn.column_ self -> x < length valueMap) ->
   exists c,
     Z2SetColumnOps.reorder self valueMap = (Ok tt, c) /\
     Z2SetColumn.dim_ c = Z2SetColumn.dim_ self /\
     forall w, w ∈ Z2SetColumn.column_ c <->
               exists x, x ∈ Z2SetColumn.column_ self /\ valueMap !! x = Some w) /\
  (~ (forall x, x ∈ Z2SetColumn.column_ self -> x < length valueMap) ->
   Z2SetColumnOps.reorder self valueMap = (Throw out_of_range, self)).
Proof.
  unfold Z2SetColumnOps.reorder.
  destruct (reorder_loop_spec valueMap (ordered (Z2SetColumn.column_ self)) ∅) as [Hok Hthrow].
  assert (Hall : Forall (fun x => x < length valueMap) (ordered (Z2SetColumn.column_ self)) <->
                 forall x, x ∈ Z2SetColumn.column_ self -> x < length valueMap).
  { rewrite Forall_forall. split; intros H x Hx; apply H; by apply elem_of_ordered. }
  split.
  - intros Hin. destruct (Hok (proj2 Hall Hin)) as (s & -> & Hs).
    eexists. split; [done|]. split; [done|]. intros w. cbn [Z2SetColumn.column_].
    rewrite Hs. split.
    + intros [Hw|(x & Hx & Hw)]; [by apply not_elem_of_empty in Hw|].
      exists x. split; [by apply elem_of_ordered|done].
    + intros (x & Hx & Hw). right. exists x. split; [by apply elem_of_ordered|done].
  - intros Hnot. rewrite Hthrow; [done|]. intros H. apply Hnot. by apply Hall.
Qed.

Lemma Z2_set_column_reorder_witness :
  exists c,
    Z2SetColumnOps.reorder (Z2SetColumn.mk 1 {[0; 2]}) [5; 6; 7] = (Ok tt, c) /\
    Z2SetColumn.dim_ c = Z2SetColumn.dim_ (Z2SetColumn.mk 1 {[0; 2]}) /\
    forall w, w ∈ Z2SetColumn.column_ c <->
              exists x, x ∈ Z2SetColumn.column_ (Z2SetColumn.mk 1 {[0; 2]}) /\
                        [5; 6; 7] !! x = Some w.
Proof.
  apply (proj1 (Z2_set_column_reorder (Z2SetColumn.mk 1 {[0; 2]}) [5; 6; 7])).
  intros x Hx. cbn in Hx. apply elem_of_union in Hx as [Hx|Hx];
    apply elem_of_singleton in Hx; subst x; simpl; lia.
Defined.

(** ** Intrusive list column over Z2 *)

Section ListColumnZ2Facts.
Import ListColumn ListColumnOps.

Variables (nb bt : bool).

(** The flag returned by [_add]: the pivot row of a chain column was in both
    columns. *)
Lemma _add_z2_flag_iff (p : option nat) (t src : list nat) :
  StronglySorted lt t -> StronglySorted lt src ->
  (_add_z2 nb bt p t src).2 = true <->
  is_chain nb bt = true /\ exists r, p = Some r /\ r ∈ t /\ r ∈ src.
Proof.
  intros Ht. revert src. induction Ht as [|t0 t Ht IHt Ht0]; intros src Hs.
  { rewrite _add_z2_nil_l. simpl. split; [done|].
    intros (_ & r & _ & Hr & _). by apply elem_of_nil in Hr. }
  induction Hs as [|s0 src Hs IHs Hs0].
  { rewrite _add_z2_nil_r. simpl. split; [done|].
    intros (_ & r & _ & _ & Hr). by apply elem_of_nil in Hr. }
  rewrite Forall_forall in Ht0, Hs0.
  rewrite _add_z2_cons.
  destruct (Nat.ltb_spec t0 s0) as [Hlt|Hge].
  - specialize (IHt (s0 :: src) ltac:(by constructor; [|apply Forall_forall])).
    destruct (_add_z2 nb bt p t (s0 :: src)) as [r z]. simpl in *.
    rewrite IHt. split; intros (Hc & x & Hp & Hxt & Hxs); (split; [done|]);
      exists x; (split; [done|]).
    + split; [by right|done].
    + split; [|done]. apply elem_of_cons in Hxt as [->|Hxt]; [|done].
      exfalso. apply elem_of_cons in Hxs as [->|Hxs]; [lia|].
      specialize (Hs0 _ Hxs). lia.
  - destruct (Nat.ltb_spec s0 t0) as [Hlt|Hge'].
    + destruct (_add_z2 nb bt p (t0 :: t) src) as [r z]. simpl in *.
      rewrite IHs. split; intros (Hc & x & Hp & Hxt & Hxs); (split; [done|]);
        exists x; (split; [done|]).
      * split; [done|by right].
      * split; [done|]. apply elem_of_cons in Hxs as [->|Hxs]; [|done].
        exfalso. apply elem_of_cons in Hxt as [->|Hxt]; [lia|].
        specialize (Ht0 _ Hxt). lia.
    + assert (s0 = t0) as -> by lia.
      specialize (IHt src Hs).
      destruct (_add_z2 nb bt p t src) as [r z]. simpl in *.
      rewrite orb_true_iff, andb_true_iff, bool_decide_eq_true, IHt. split.
      * intros [[Hc Hp]|(Hc & x & Hp & Hxt & Hxs)]; (split; [done|]).
        -- exists t0. split; [done|]. split; left.
        -- exists x. split; [done|]. split; by right.
      * intros (Hc & x & Hp & Hxt & Hxs).
        apply elem_of_cons in Hxt as [->|Hxt]; [by left|].
        apply elem_of_cons in Hxs as [->|Hxs]; [specialize (Ht0 _ Hxt); lia|].
        right. split; [done|]. by exists x.
Qed.

Lemma _add_z2_comm (p p' : option nat) (t src : list nat) :
  StronglySorted lt t -> StronglySorted lt src ->
  (_add_z2 nb bt p t src).1 = (_add_z2 nb bt p' src t).1.
Proof.
  intros Ht Hs.
  destruct (_add_z2_cells nb bt p t src Ht Hs) as [H1 M1].
  destruct (_add_z2_cells nb bt p' src t Hs Ht) as [H2 M2].
  apply strictly_sorted_ext; [done..|]. intros x. rewrite M1, M2. tauto.
Qed.


End ListColumnZ2Facts.

Section ListColumnZ2More.
Import ListColumn ListColumnOps.



End ListColumnZ2More.

(** X14: the Z2 addition of two list columns whose cells are strictly
    increasing by row index gives cells that are strictly increasing again;
    the cells of [a += b] and of [b += a] are the same, and the cells of the
    source are not touched. *)
Theorem list_column_addition_keeps_order
    (isNonBasic is_of_boundary_type : bool) (a b : ListColumn.Z2_column) :
  StronglySorted lt (ListColumn.z2_cells a) ->
  StronglySorted lt (ListColumn.z2_cells b) ->
  let ab := ListColumn.add_assign_z2 isNonBasic is_of_boundary_type a b in
  let ba := ListColumn.add_assign_z2 isNonBasic is_of_boundary_type b a in
  StronglySorted lt (ListColumn.z2_cells ab.1) /\
  ListColumn.z2_cells ab.1 = ListColumn.z2_cells ba.1 /\
  ListColumn.z2_cells ab.2 = ListColumn.z2_cells b.
Proof.
  intros Ha Hb ab ba.
  destruct (add_assign_z2_cells isNonBasic is_of_boundary_type a b) as [H1 H2].
  destruct (add_assign_z2_cells isNonBasic is_of_boundary_type b a) as [H3 _].
  fold ab in H1, H2. fold ba in H3. rewrite H1, H2, H3.
  split; [|split; [|done]].
  - by apply _add_z2_cells.
  - by apply _add_z2_comm.
Qed.

Lemma list_column_addition_keeps_order_witness :
  let a := ListColumn.mkZ2 [0; 2; 5] 2 (Some 5) in
  let b := ListColumn.mkZ2 [2; 3; 5] 2 (Some 3) in
  let ab := ListColumn.add_assign_z2 true false a b in
  let ba := ListColumn.add_assign_z2 true false b a in
  StronglySorted lt (ListColumn.z2_cells ab.1) /\
  ListColumn.z2_cells ab.1 = ListColumn.z2_cells ba.1 /\
  ListColumn.z2_cells ab.2 = [2; 3; 5].
Proof.
  apply (list_column_addition_keeps_order true false
           (ListColumn.mkZ2 [0; 2; 5] 2 (Some 5)) (ListColumn.mkZ2 [2; 3; 5] 2 (Some 3))).
  - simpl. repeat constructor; lia.
  - simpl. repeat constructor; lia.
Defined.

(** X15: [operator+=] on Z2 list columns with strictly increasing cells: the
    target and the source exchange their pivots and their dimensions exactly
    when the columns are chain columns and the pivot row of the target is a row
    of both columns (the addition zeroes it); in every other case pivots and
    dimensions stay and the source is untouched. *)
Theorem list_column_addition_swaps_pivots
    (isNonBasic is_of_boundary_type : bool) (a b : ListColumn.Z2_column) :
  StronglySorted lt (ListColumn.z2_cells a) ->
  StronglySorted lt (ListColumn.z2_cells b) ->
  let zeroed :=
    ListColumn.is_chain isNonBasic is_of_boundary_type = true /\
    exists r, ListColumn.z2_pivot a = Some r /\
              r ∈ ListColumn.z2_cells a /\ r ∈ ListColumn.z2_cells b in
  let ab := ListColumn.add_assign_z2 isNonBasic is_of_boundary_type a b in
  (zeroed ->
   ListColumn.z2_pivot ab.1 = ListColumn.z2_pivot b /\
   ListColumn.z2_dim ab.1 = ListColumn.z2_dim b /\
   ListColumn.z2_pivot ab.2 = ListColumn.z2_pivot a /\
   ListColumn.z2_dim ab.2 = ListColumn.z2_dim a /\
   forall r, ListColumn.z2_pivot a = Some r -> r ∉ ListColumn.z2_cells ab.1) /\
  (~ zeroed ->
   ListColumn.z2_pivot ab.1 = ListColumn.z2_pivot a /\
   ListColumn.z2_dim ab.1 = ListColumn.z2_dim a /\
   ab.2 = b).
Proof.
  intros Ha Hb zeroed ab. subst ab. unfold ListColumn.add_assign_z2.
  pose proof (_add_z2_flag_iff isNonBasic is_of_boundary_type (ListColumn.z2_pivot a)
                _ _ Ha Hb) as Hflag.
  destruct (_add_z2_cells isNonBasic is_of_boundary_type (ListColumn.z2_pivot a) _ _ Ha Hb)
    as [_ Hmem].
  destruct (ListColumn._add_z2 _ _ _ _ _) as [r z]. cbn [fst snd] in *.
  fold zeroed in Hflag. split.
  - intros Hz. pose proof Hz as [Hc _]. rewrite (proj2 Hflag Hz), Hc. cbn.
    split; [done|]. split; [done|]. split; [done|]. split; [done|].
    intros x Hx. destruct Hz as (_ & x' & Hx' & ? & ?).
    assert (x' = x) as -> by congruence. rewrite Hmem. tauto.
  - intros Hz. destruct z.
    + exfalso. by apply Hz, Hflag.
    + rewrite andb_false_r. done.
Qed.

Lemma list_column_addition_swaps_pivots_witness :
  let a := ListColumn.mkZ2 [0; 2; 5] 2 (Some 5) in
  let b := ListColumn.mkZ2 [2; 3; 5; 7] 3 (Some 7) in
  let ab := ListColumn.add_assign_z2 true false a b in
  ListColumn.z2_pivot ab.1 = Some 7 /\ ListColumn.z2_dim ab.1 = 3%Z /\
  ListColumn.z2_pivot ab.2 = Some 5 /\ ListColumn.z2_dim ab.2 = 2%Z.
Proof.
  destruct (list_column_addition_swaps_pivots true false
              (ListColumn.mkZ2 [0; 2; 5] 2 (Some 5)) (ListColumn.mkZ2 [2; 3; 5; 7] 3 (Some 7)))
    as [H _].
  - simpl. repeat constructor; lia.
  - simpl. repeat constructor; lia.
  - destruct H as (H1 & H2 & H3 & H4 & _).
    + split; [reflexivity|]. exists 5. split; [reflexivity|].
      split; apply (bool_decide_unpack _); vm_compute; exact I.
    + repeat split; assumption.
Defined.



(** ** Chain matrix: refused boundaries, shape of the columns, column additions *)

Section ChainMatrixMore.
Import ChainMatrix ChainMatrixOps.
Variable impl : column_impl.

Lemma reachable_consistent (boundaries : list (list nat)) (s : Chain_matrix) :
  insert_boundaries impl boundaries empty_matrix = Some s -> consistent s.
Proof.
  intros Hrun.
  destruct (insert_boundaries_consistent impl boundaries empty_matrix consistent_empty)
    as (s' & Hrun' & Hs').
  congruence.
Qed.

(** The counter of the dimension of a boundary after [insert_boundary] has
    counted it. *)
Lemma counted_dimensions (boundary : list nat) (s : Chain_matrix) :
  dimensions_ (counted boundary s) !! boundary_dim boundary
    = Some (S (default 0 (dimensions_ s !! boundary_dim boundary))) /\
  (forall d, d ≠ boundary_dim boundary -> d < length (dimensions_ s) ->
             dimensions_ (counted boundary s) !! d = dimensions_ s !! d) /\
  maxDim_ (counted boundary s) = Z.max (maxDim_ s) (Z.of_nat (boundary_dim boundary)).
Proof.
  unfold counted. simpl_state. set (d := boundary_dim boundary).
  split; [|split].
  - destruct (Nat.leb_spec (length (dimensions_ s)) d) as [Hle|Hlt].
    + rewrite (lookup_ge_None_2 (dimensions_ s) d) by done. simpl.
      unfold resize. rewrite take_ge by lia.
      rewrite list_lookup_alter_eq, lookup_app_r by lia.
      rewrite lookup_replicate_2 by lia. done.
    + destruct (lookup_lt_is_Some_2 (dimensions_ s) d Hlt) as [c Hc].
      rewrite Hc. simpl. by rewrite list_lookup_alter_eq, Hc.
  - intros d' Hne Hd'.
    destruct (Nat.leb_spec (length (dimensions_ s)) d) as [Hle|Hlt].
    + rewrite list_lookup_alter_ne by done. unfold resize. rewrite take_ge by lia.
      by rewrite lookup_app_l by lia.
    + by rewrite list_lookup_alter_ne by done.
  - destruct (Z.ltb_spec (maxDim_ s) (Z.of_nat d)); lia.
Qed.

(** [add_to(source, target)] from an earlier column: the cells of the target
    are merged with those of the source, nothing else changes. *)
Lemma add_to_cells (s : Chain_matrix) (source target : nat) (ct cs : Column_type) :
  consistent s ->
  matrix_ s !! target = Some ct -> matrix_ s !! source = Some cs ->
  source < target ->
  add_to impl source target s =
    (Ok tt, set_matrix
              <[target := mkColumn
                  (ListColumn._add_z2 true false (pivot_ ct) (column_ ct) (column_ cs)).1
                  (dim_ ct) (pivot_ ct) (pairedColumn_ ct)]> s).
Proof.
  intros Hs Hct Hcs Hlt.
  destruct (cons_column s Hs target ct Hct) as (Hpt & Hlt_t & Hst).
  destruct (cons_column s Hs source cs Hcs) as (Hps & Hlt_s & Hss).
  pose proof (_add_z2_cells true false (pivot_ ct) _ _ Hst Hss) as [Hsorted Hmem].
  pose proof (_add_z2_flag true false (pivot_ ct) (column_ ct) (column_ cs)) as Hflag.
  assert (Htin : target ∈ column_ ct) by (by apply last_strictly_sorted in Hlt_t as [? _]).
  assert (Hnotin : target ∉ column_ cs).
  { intros Hin. apply last_strictly_sorted in Hlt_s as [_ Hmax]; [|done].
    specialize (Hmax _ Hin). lia. }
  unfold add_to.
  erewrite bind_reads; [|by apply at_Some].
  erewrite bind_reads; [|by apply at_Some].
  rewrite decide_False by lia.
  destruct (ListColumn._add_z2 true false (pivot_ ct) (column_ ct) (column_ cs))
    as [cells z] eqn:Hadd. simpl in *.
  assert (z = false) as ->.
  { destruct z; [|done]. destruct (Hflag eq_refl) as (r & Hr & _ & Hrs).
    rewrite Hpt in Hr. injection Hr as <-. contradiction. }
  destruct impl.
  - rewrite bind_modify. rewrite Hpt. simpl.
    rewrite bool_decide_eq_true_2; [done|]. apply Hmem. left. done.
  - reflexivity.
Qed.

Lemma add_to_unknown (s : Chain_matrix) (source target : nat) :
  matrix_ s !! target = None \/ matrix_ s !! source = None ->
  add_to impl source target s = (Throw out_of_range, s).
Proof.
  intros Hmiss. unfold add_to.
  destruct (matrix_ s !! target) as [ct|] eqn:Hct.
  - erewrite bind_reads; [|by apply at_Some].
    destruct Hmiss as [?|Hcs]; [done|]. apply bind_reads_throw. by apply at_None.
  - apply bind_reads_throw. by apply at_None.
Qed.

End ChainMatrixMore.

(** X17: on a matrix reached by insertions, [insert_boundary] of a boundary
    that names a face that is not a column of the matrix throws
    [std::out_of_range]; the columns, the pivots, the barcode and the number of
    columns are left as they were, but the dimension of the refused boundary
    has already been counted in [dimensions_] and in the maximal dimension. *)
Theorem insert_boundary_rejects_unknown_face
    (impl : ChainMatrix.column_impl) (boundaries : list (list nat))
    (s : ChainMatrix.Chain_matrix) (boundary : list nat) :
  ChainMatrix.insert_boundaries impl boundaries ChainMatrix.empty_matrix = Some s ->
  Exists (fun x => ChainMatrix.nextInsertIndex_ s <= x) boundary ->
  exists s',
    ChainMatrix.insert_boundary impl boundary s = (Throw out_of_range, s') /\
    ChainMatrix.matrix_ s' = ChainMatrix.matrix_ s /\
    ChainMatrix.pivotToColumnIndex_ s' = ChainMatrix.pivotToColumnIndex_ s /\
    ChainMatrix.nextInsertIndex_ s' = ChainMatrix.nextInsertIndex_ s /\
    ChainMatrix.barcode_ s' = ChainMatrix.barcode_ s /\
    ChainMatrix.indexToBar_ s' = ChainMatrix.indexToBar_ s /\
    ChainMatrix.dimensions_ s' !! ChainMatrix.boundary_dim boundary
      = Some (S (default 0 (ChainMatrix.dimensions_ s !! ChainMatrix.boundary_dim boundary))) /\
    ChainMatrixOps.get_max_dimension s'
      = Z.max (ChainMatrixOps.get_max_dimension s)
              (Z.of_nat (ChainMatrix.boundary_dim boundary)).
Proof.
  intros Hreach Hbad. pose proof (reachable_consistent impl _ _ Hreach) as Hs.
  exists (counted boundary s). split.
  - apply insert_boundary_throw; [done|]. intros Hall.
    apply Exists_exists in Hbad as (x & Hx & Hge). specialize (Hall x Hx). lia.
  - destruct (counted_dimensions boundary s) as (Hd & _ & Hm). done.
Qed.

Lemma insert_boundary_rejects_unknown_face_witness :
  exists s',
    ChainMatrix.insert_boundary ChainMatrix.Wrapper [0; 5] two_vertices
      = (Throw out_of_range, s') /\
    ChainMatrix.matrix_ s' = ChainMatrix.matrix_ two_vertices /\
    ChainMatrix.pivotToColumnIndex_ s' = ChainMatrix.pivotToColumnIndex_ two_vertices /\
    ChainMatrix.nextInsertIndex_ s' = ChainMatrix.nextInsertIndex_ two_vertices /\
    ChainMatrix.barcode_ s' = ChainMatrix.barcode_ two_vertices /\
    ChainMatrix.indexToBar_ s' = ChainMatrix.indexToBar_ two_vertices /\
    ChainMatrix.dimensions_ s' !! ChainMatrix.boundary_dim [0; 5]
      = Some (S (default 0 (ChainMatrix.dimensions_ two_vertices
                              !! ChainMatrix.boundary_dim [0; 5]))) /\
    ChainMatrixOps.get_max_dimension s'
      = Z.max (ChainMatrixOps.get_max_dimension two_vertices)
              (Z.of_nat (ChainMatrix.boundary_dim [0; 5])).
Proof.
  apply (insert_boundary_rejects_unknown_face ChainMatrix.Wrapper [[]; []] two_vertices [0; 5]).
  - vm_compute. reflexivity.
  - apply Exists_cons_tl, Exists_cons_hd. vm_compute. lia.
Defined.

(** X18: whatever boundaries were passed to [insert_boundary] from the empty
    matrix, every column [i] below the number of columns has pivot [i], its
    cells are strictly increasing and end with row [i] (the matrix is upper
    triangular with a full diagonal, no column is zero), and
    [get_column_with_pivot(i)] is [i]; the accessors throw
    [std::out_of_range] at any other index. *)
Theorem chain_matrix_is_triangular
    (impl : ChainMatrix.column_impl) (boundaries : list (list nat)) :
  exists s,
    ChainMatrix.insert_boundaries impl boundaries ChainMatrix.empty_matrix = Some s /\
    (forall i, i < ChainMatrix.get_number_of_columns s ->
       exists c,
         ChainMatrix.get_column s i = Ok c /\
         ChainMatrixOps.get_pivot_of s i = Ok (Some i) /\
         ChainMatrix.get_column_with_pivot s i = Ok i /\
         StronglySorted lt (ChainMatrix.column_ c) /\
         last (ChainMatrix.column_ c) = Some i /\
         (forall r, r ∈ ChainMatrix.column_ c -> r <= i) /\
         ChainMatrixOps.is_zero_cell s i i = Ok false /\
         ChainMatrixOps.is_zero_column s i = Ok false) /\
    (forall i, ChainMatrix.get_number_of_columns s <= i ->
       ChainMatrix.get_column s i = Throw out_of_range /\
       ChainMatrix.get_column_with_pivot s i = Throw out_of_range /\
       ChainMatrixOps.get_column_dimension s i = Throw out_of_range).
Proof.
  destruct (insert_boundaries_consistent impl boundaries ChainMatrix.empty_matrix
              consistent_empty) as (s & Hrun & Hs).
  exists s. split; [done|]. unfold ChainMatrix.get_number_of_columns. split.
  - intros i Hi. destruct (cons_lookup s Hs i Hi) as [c Hc]. exists c.
    destruct (cons_column s Hs i c Hc) as (Hp & Hlast & Hsorted).
    destruct (last_strictly_sorted _ i Hsorted) as [Hin _].
    destruct (Hin Hlast) as [Hi_in Hmax].
    unfold ChainMatrix.get_column, ChainMatrixOps.get_pivot_of,
      ChainMatrix.get_column_with_pivot, ChainMatrixOps.is_zero_cell,
      ChainMatrixOps.is_zero_column.
    rewrite (at_Some _ _ _ Hc), (at_Some _ _ _ (cons_pivots s Hs i Hi)).
    cbn [mbind result_bind rbind ChainMatrix.is_non_zero].
    split; [done|]. split; [by rewrite <- Hp|]. split; [done|]. split; [done|].
    split; [done|]. split; [done|]. split.
    + by rewrite bool_decide_eq_true_2.
    + destruct (ChainMatrix.column_ c); [by apply elem_of_nil in Hi_in|done].
  - intros i Hi.
    assert (Hnone : ChainMatrix.matrix_ s !! i = None).
    { destruct (ChainMatrix.matrix_ s !! i) eqn:Hc; [|done].
      assert (i < ChainMatrix.nextInsertIndex_ s) by (apply (cons_columns s Hs); eauto). lia. }
    unfold ChainMatrix.get_column, ChainMatrix.get_column_with_pivot,
      ChainMatrixOps.get_column_dimension.
    rewrite (at_None _ _ Hnone), (at_None _ _ (cons_pivot_keys s Hs i Hi)). done.
Qed.

(** X19: on a matrix reached by insertions, [add_to(source, target)] with
    [source < target], both columns of the matrix, returns; the cells of the
    target become the symmetric difference of the two columns, its dimension,
    pivot and pairing stay, every other column and the rest of the matrix are
    untouched.  With an index that is not a column, [add_to] throws
    [std::out_of_range] and changes nothing. *)
Theorem add_to_earlier_column
    (impl : ChainMatrix.column_impl) (boundaries : list (list nat))
    (s : ChainMatrix.Chain_matrix) (source target : nat) :
  ChainMatrix.insert_boundaries impl boundaries ChainMatrix.empty_matrix = Some s ->
  (source < target < ChainMatrix.nextInsertIndex_ s ->
   exists ct cs ct',
     ChainMatrix.matrix_ s !! target = Some ct /\
     ChainMatrix.matrix_ s !! source = Some cs /\
     ChainMatrix.add_to impl source target s
       = (Ok tt, ChainMatrix.set_matrix <[target := ct']> s) /\
     (forall x, x ∈ ChainMatrix.column_ ct' <->
                (x ∈ ChainMatrix.column_ ct /\ x ∉ ChainMatrix.column_ cs) \/
                ((x ∉ ChainMatrix.column_ ct) /\ x ∈ ChainMatrix.column_ cs)) /\
     StronglySorted lt (ChainMatrix.column_ ct') /\
     ChainMatrix.dim_ ct' = ChainMatrix.dim_ ct /\
     ChainMatrix.pivot_ ct' = Some target /\
     ChainMatrix.pairedColumn_ ct' = ChainMatrix.pairedColumn_ ct) /\
  (ChainMatrix.nextInsertIndex_ s <= source \/ ChainMatrix.nextInsertIndex_ s <= target ->
   ChainMatrix.add_to impl source target s = (Throw out_of_range, s)).
Proof.
  intros Hreach. pose proof (reachable_consistent impl _ _ Hreach) as Hs. split.
  - intros [Hlt Htn].
    destruct (cons_lookup s Hs target Htn) as [ct Hct].
    destruct (cons_lookup s Hs source ltac:(lia)) as [cs Hcs].
    destruct (cons_column s Hs target ct Hct) as (Hpt & _ & Hst).
    destruct (cons_column s Hs source cs Hcs) as (_ & _ & Hss).
    destruct (_add_z2_cells true false (ChainMatrix.pivot_ ct) _ _ Hst Hss) as [Hsorted Hmem].
    exists ct, cs. eexists. split; [done|]. split; [done|].
    split; [by apply add_to_cells|]. done.
  - intros Hout. apply add_to_unknown.
    destruct Hout as [Hout|Hout]; [right|left];
      (destruct (ChainMatrix.matrix_ s !! _) eqn:Hc; [|done]);
      (assert (Hlt : _ < ChainMatrix.nextInsertIndex_ s) by (apply (cons_columns s Hs); eauto));
      lia.
Qed.

Lemma add_to_earlier_column_witness :
  exists ct cs ct',
    ChainMatrix.matrix_ two_vertices_and_edge !! 2 = Some ct /\
    ChainMatrix.matrix_ two_vertices_and_edge !! 0 = Some cs /\
    ChainMatrix.add_to ChainMatrix.Wrapper 0 2 two_vertices_and_edge
      = (Ok tt, ChainMatrix.set_matrix <[2 := ct']> two_vertices_and_edge) /\
    (forall x, x ∈ ChainMatrix.column_ ct' <->
               (x ∈ ChainMatrix.column_ ct /\ x ∉ ChainMatrix.column_ cs) \/
               ((x ∉ ChainMatrix.column_ ct) /\ x ∈ ChainMatrix.column_ cs)) /\
    StronglySorted lt (ChainMatrix.column_ ct') /\
    ChainMatrix.dim_ ct' = ChainMatrix.dim_ ct /\
    ChainMatrix.pivot_ ct' = Some 2 /\
    ChainMatrix.pairedColumn_ ct' = ChainMatrix.pairedColumn_ ct.
Proof.
  apply (add_to_earlier_column ChainMatrix.Wrapper [[]; []; [0; 1]] two_vertices_and_edge 0 2).
  - vm_compute. reflexivity.
  - vm_compute. lia.
Defined.

(** ** Chain matrix: the barcode *)

Section ChainMatrixDims.
Import ChainMatrix ChainMatrixOps.
Variable impl : column_impl.

(** The reduction and insertion of a boundary leaves the dimension of every
    column that was in the matrix. *)
Lemma _reduce_boundary_keeps_dims (s : Chain_matrix) (boundary : list nat) :
  consistent s ->
  (forall x, x ∈ boundary -> x < nextInsertIndex_ s) ->
  exists s',
    _reduce_boundary impl boundary [] s = (Ok tt, s') /\
    forall i c, matrix_ s !! i = Some c ->
      exists c', matrix_ s' !! i = Some c' /\ dim_ c' = dim_ c.
Proof.
  intros Hs Hb. set (n := nextInsertIndex_ s) in *.
  set (d := Z.of_nat (boundary_dim boundary)).
  assert (Hold : forall i c, matrix_ s !! i = Some c -> i ≠ n).
  { intros i c Hc. assert (i < n) by (apply (cons_columns s Hs); eauto). lia. }
  unfold _reduce_boundary. fold d.
  destruct (length boundary =? 0)%nat eqn:Hlen.
  { apply Nat.eqb_eq, nil_length_inv in Hlen. subst boundary.
    rewrite bind_gets. fold n.
    set (chain := (list_to_set [] ∪ {[n]} : gset nat)).
    assert (Hchain : chain = {[n]}) by apply (left_id_L ∅ (∪)).
    assert (Hn : n ∈ chain) by (rewrite Hchain; by apply elem_of_singleton).
    assert (Hmax : forall x, x ∈ chain -> x <= n).
    { intros x Hx. rewrite Hchain in Hx. apply elem_of_singleton in Hx. lia. }
    exists (with_essential_chain chain d s).
    split; [by apply _insert_chain_run|].
    intros i c Hc. exists c. split; [|done].
    unfold with_essential_chain. cbn [matrix_]. fold n.
    rewrite lookup_insert_ne; [done|]. intros <-. by eapply Hold. }
  set (column := list_to_set boundary : gset nat).
  assert (Hne : column ≠ ∅).
  { destruct boundary as [|x b]; [done|]. subst column.
    intros Hempty. assert (Hx : x ∈ (list_to_set (x :: b) : gset nat)).
    { apply elem_of_list_to_set. left. }
    rewrite Hempty in Hx. by apply not_elem_of_empty in Hx. }
  assert (Hcol : forall x, x ∈ column -> x < n).
  { intros x Hx. apply Hb. subst column. by apply elem_of_list_to_set in Hx. }
  destruct (get_last_Ok _ Hne) as (l & Hlast & Hl & Hmax).
  rewrite (bind_lift _ _ _ _ Hlast).
  pose proof (Hcol l Hl) as Hln.
  erewrite bind_reads; [|apply at_Some, (cons_pivots s Hs), Hln].
  destruct (reduce_while_paired_spec s Hs (reduction_fuel s) column [] l)
    as (emptied & column' & H' & Hrun & HH' & Hbound & Hfinal); try done.
  { unfold reduction_fuel. fold n. lia. }
  { constructor. }
  erewrite bind_reads; [|exact Hrun].
  destruct emptied.
  - subst column'.
    destruct (add_chains_in_H_spec s H' Hs HH' (∅ ∪ {[n]}))
      as (chain & Hbuild & Hchain & Hn & Hcmax).
    { rewrite (left_id_L ∅ (∪)). by apply elem_of_singleton. }
    { intros x Hx. rewrite (left_id_L ∅ (∪)) in Hx. apply elem_of_singleton in Hx. lia. }
    erewrite bind_reads; [|exact Hbuild].
    exists (with_essential_chain chain d s).
    split; [by apply _insert_chain_run|].
    intros i c Hc. exists c. split; [|done].
    unfold with_essential_chain. cbn [matrix_]. fold n.
    rewrite lookup_insert_ne; [done|]. intros <-. by eapply Hold.
  - destruct Hfinal as (l' & cl' & Hl' & Hmax' & Hcl' & Hunpaired).
    destruct (reduce_until_empty_spec s Hs (reduction_fuel s) column' H' [])
      as (H'' & E2 & Hrun2 & HH'' & HE & Hfirst); try done.
    { intros x Hx. specialize (Hbound x Hx). unfold reduction_fuel. fold n. lia. }
    { unfold reduction_fuel. lia. }
    { intros x Hx. specialize (Hbound x Hx). fold n. lia. }
    { split; constructor. }
    { intros e x He. by apply elem_of_nil in He. }
    destruct (Hfirst l' cl' Hl' Hmax' Hcl' Hunpaired) as [others ->].
    cbn [app] in Hrun2, HE.
    erewrite bind_reads; [|exact Hrun2]. cbn beta iota.
    rewrite (bind_lift _ _ _ l' eq_refl).
    unfold _update_largest_death_in_F.
    assert (Hl'n : l' < n) by (apply (cons_columns s Hs); eauto).
    destruct HE as [HE1 HE2]. apply StronglySorted_inv in HE2 as [_ Hothers].
    destruct (add_others_to_spec impl l' others s Hs Hl'n) as (s1 & Hupd & Hs1 & Hframe).
    { rewrite Forall_forall in Hothers. intros o Ho. specialize (Hothers o Ho). lia. }
    rewrite (bind_run _ _ _ _ _ Hupd).
    destruct (H_ok_frame l' s s1 H'' cl' Hs Hframe Hcl' Hunpaired HH'') as [HH1 Hrows].
    destruct Hframe as (Fn & Fp & Fd & Fm & Fb & Fi & Fo & Ffp).
    destruct (Ffp cl' Hcl') as (p & Hp & Hpd & Hpp & Hppaired).
    rewrite Hunpaired in Hppaired.
    destruct (add_chains_in_H_spec s1 H'' Hs1 HH1 (∅ ∪ {[nextInsertIndex_ s1]}))
      as (chain & Hbuild & Hchain & Hn & Hcmax).
    { rewrite (left_id_L ∅ (∪)). by apply elem_of_singleton. }
    { intros x Hx. rewrite (left_id_L ∅ (∪)) in Hx. apply elem_of_singleton in Hx. lia. }
    erewrite bind_reads; [|exact Hbuild].
    destruct (cons_bar s1 Hs1 l' p Hp) as (pos & d0 & Hpos & Hbar).
    exists (with_paired_chain chain d l' p pos
              (mkBar d0 (birth_of l' p) (death_of l' p)) s1).
    split; [by apply _insert_chain_paired_run|].
    intros i c Hc. unfold with_paired_chain. cbn [matrix_]. rewrite Fn. fold n.
    destruct (decide (i = l')) as [->|Hne'].
    + rewrite lookup_insert_eq. eexists. split; [done|].
      unfold assign_paired_chain. cbn [dim_]. congruence.
    + rewrite lookup_insert_ne by done.
      rewrite lookup_insert_ne by (intros <-; by eapply Hold).
      exists c. split; [|done]. rewrite Fo by done. done.
Qed.

End ChainMatrixDims.

Section BarcodeInvariant.
Import ChainMatrix ChainMatrixOps.

Lemma surviving_birth_eq (s : Chain_matrix) (i : nat) :
  consistent s ->
  surviving_birth s i =
    match matrix_ s !! i with
    | Some c => match pairedColumn_ c with None => true | Some j => (i <? j)%nat end
    | None => false
    end.
Proof.
  intros Hs. unfold surviving_birth, pivot_owner.
  destruct (Nat.lt_ge_cases i (nextInsertIndex_ s)) as [Hlt|Hge].
  - by rewrite (cons_pivots s Hs i Hlt).
  - rewrite (cons_pivot_keys s Hs i Hge).
    destruct (matrix_ s !! i) as [c|] eqn:Hc; [|done].
    assert (i < nextInsertIndex_ s) by (apply (cons_columns s Hs); eauto). lia.
Qed.

Lemma elem_of_births (s : Chain_matrix) (i : nat) :
  i ∈ births s <-> i < nextInsertIndex_ s /\ surviving_birth s i = true.
Proof.
  unfold births. rewrite list_elem_of_In, filter_In, in_seq. split; intros [? ?]; split;
    (lia || done).
Qed.

Lemma NoDup_births (s : Chain_matrix) : NoDup (births s).
Proof.
  unfold births. apply NoDup_ListNoDup, List.NoDup_filter, NoDup_ListNoDup, NoDup_seq.
Qed.

Lemma births_ext (s s' : Chain_matrix) (n : nat) :
  (forall i, i < n -> surviving_birth s' i = surviving_birth s i) ->
  List.filter (surviving_birth s') (seq 0 n) = List.filter (surviving_birth s) (seq 0 n).
Proof. intros Hext. apply filter_ext_in. intros i Hi. apply in_seq in Hi. apply Hext. lia. Qed.

Lemma bar_of_ext (s s' : Chain_matrix) (i : nat) :
  matrix_ s' !! i = matrix_ s !! i -> bar_of s' i = bar_of s i.
Proof. intros H. unfold bar_of. by rewrite H. Qed.

Lemma barcode_matches_empty : barcode_matches empty_matrix.
Proof.
  split; [constructor|]. intros i c Hc. cbn in Hc. by rewrite lookup_empty in Hc.
Qed.

(** An insertion keeps the barcode in step with the births. *)
Lemma barcode_matches_inserted (s s' : Chain_matrix) (boundary : list nat)
    (H : list (option nat)) (E : list nat) :
  consistent s -> consistent s' -> barcode_matches s ->
  inserted s boundary H E s' ->
  (forall i c, matrix_ s !! i = Some c ->
     exists c', matrix_ s' !! i = Some c' /\ dim_ c' = dim_ c) ->
  barcode_matches s'.
Proof.
  intros Hs Hs' [Hbars Hidx] Hins Hdims.
  destruct Hins as (Hn & col & Hcol & Hpivot & Hdim & _ & Hcase).
  set (n := nextInsertIndex_ s) in *.
  assert (Hfresh : matrix_ s !! n = None).
  { destruct (matrix_ s !! n) eqn:Hc; [|done].
    assert (n < n) by (apply (cons_columns s Hs); eauto). lia. }
  assert (Hbirths_lt : forall k i, births s !! k = Some i -> i < n).
  { intros k i Hk. apply list_elem_of_lookup_2, elem_of_births in Hk as [? _]. done. }
  pose proof (Forall2_length _ _ _ Hbars) as Hlen.
  apply Forall2_same_length_lookup in Hbars as [_ Hbars].
  unfold barcode_matches, births. rewrite Hn, seq_S, List.filter_app. cbn [Nat.add].
  fold n. destruct E as [|fp others].
  - (* an essential column *)
    destruct Hcase as (Hpaired & Hsame & Hbar & Hitb).
    assert (Hsurv : List.filter (surviving_birth s') (seq 0 n) = births s).
    { apply births_ext. intros i Hi. rewrite !surviving_birth_eq by done.
      by rewrite Hsame by lia. }
    assert (Hlast : List.filter (surviving_birth s') [n] = [n]).
    { cbn [List.filter]. by rewrite surviving_birth_eq, Hcol, Hpaired by done. }
    rewrite Hsurv, Hlast, Hbar, Hitb. split.
    + apply Forall2_app.
      * apply Forall2_same_length_lookup. split; [done|]. intros k i y Hk Hy.
        rewrite (bar_of_ext s s'); [by eapply Hbars|].
        apply Hsame. specialize (Hbirths_lt k i Hk). lia.
      * constructor; [|constructor]. unfold bar_of. rewrite Hcol. simpl.
        by rewrite Hdim, Hpaired.
    + intros i c Hc. destruct (decide (i = n)) as [->|Hne].
      * rewrite lookup_insert_eq. eexists. split; [done|].
        rewrite Hcol in Hc. injection Hc as <-. unfold birth_index. rewrite Hpaired.
        rewrite <- Hlen. rewrite lookup_app_r by lia. by rewrite Nat.sub_diag.
      * rewrite lookup_insert_ne by done. rewrite Hsame in Hc by done.
        destruct (Hidx i c Hc) as (pos & Hpos & Hb). exists pos. split; [done|].
        apply lookup_app_l_Some. done.
  - (* a column paired with [fp] *)
    destruct Hcase as (Hpaired & _ & (cfp & cfp' & Hcfp & Hunp & Hcfp' & Hp' & _) & Hsame
                       & pos & d0 & Hpos & Hbar0 & Hbar & Hitb).
    assert (Hfpn : fp < n) by (apply (cons_columns s Hs); eauto).
    destruct (Hidx fp cfp Hcfp) as (pos' & Hpos' & Hbfp).
    assert (pos' = pos) as -> by congruence.
    unfold birth_index in Hbfp. rewrite Hunp in Hbfp.
    assert (Hsurv : List.filter (surviving_birth s') (seq 0 n) = births s).
    { apply births_ext. intros i Hi. rewrite !surviving_birth_eq by done.
      destruct (decide (i = fp)) as [->|Hne].
      - rewrite Hcfp, Hcfp', Hunp, Hp'. by apply Nat.ltb_lt.
      - by rewrite Hsame by lia. }
    assert (Hlast : List.filter (surviving_birth s') [n] = []).
    { cbn [List.filter]. rewrite surviving_birth_eq, Hcol, Hpaired by done.
      by rewrite (proj2 (Nat.ltb_ge n fp)) by lia. }
    rewrite Hsurv, Hlast, app_nil_r, Hbar, Hitb. split.
    + apply Forall2_same_length_lookup. split; [by rewrite length_insert|].
      intros k i y Hk Hy. apply list_lookup_insert_Some in Hy as [(<- & <- & _)|[Hne Hy]].
      * assert (i = fp) as -> by congruence.
        unfold bar_of. rewrite Hcfp'. simpl. rewrite Hp'.
        destruct (Hdims fp cfp Hcfp) as (c' & Hc' & Hd').
        assert (c' = cfp') as -> by congruence.
        pose proof (Hbars pos fp _ Hbfp Hbar0) as Hb0. unfold bar_of in Hb0.
        rewrite Hcfp in Hb0. simpl in Hb0. injection Hb0 as Hd0 _. congruence.
      * rewrite (bar_of_ext s s'); [by eapply Hbars|].
        apply Hsame; [specialize (Hbirths_lt k i Hk); lia|].
        intros ->. apply Hne. eapply NoDup_lookup; [apply NoDup_births|done..].
    + intros i c Hc. destruct (decide (i = n)) as [->|Hne].
      * rewrite lookup_insert_eq. exists pos. split; [done|].
        rewrite Hcol in Hc. injection Hc as <-. unfold birth_index. rewrite Hpaired.
        by rewrite Nat.min_r by lia.
      * rewrite lookup_insert_ne by done.
        destruct (decide (i = fp)) as [->|Hne'].
        -- exists pos. split; [done|]. rewrite Hcfp' in Hc. injection Hc as <-.
           unfold birth_index. rewrite Hp'. by rewrite Nat.min_l by lia.
        -- rewrite Hsame in Hc by done. by apply Hidx.
Qed.

Lemma barcode_matches_counted (boundary : list nat) (s : Chain_matrix) :
  barcode_matches s -> barcode_matches (counted boundary s).
Proof. intros H. exact H. Qed.

Lemma barcode_matches_insert (impl : column_impl) (s : Chain_matrix) (boundary : list nat) :
  consistent s -> barcode_matches s ->
  exists r s', insert_boundary impl boundary s = (r, s') /\
               (r = Ok tt \/ r = Throw out_of_range) /\
               consistent s' /\ barcode_matches s'.
Proof.
  intros Hs Hb.
  destruct (decide (Forall (fun x => x < nextInsertIndex_ s) boundary)) as [Hall|Hall];
    rewrite Forall_forall in Hall.
  - rewrite insert_boundary_counted.
    pose proof (consistent_set_dimensions _ _ _ Hs : consistent (counted boundary s)) as Hs0.
    destruct (_reduce_boundary_ok impl (counted boundary s) boundary Hs0 Hall)
      as (H & E & s' & _ & Hrun & Hs' & Hins & _).
    destruct (_reduce_boundary_keeps_dims impl (counted boundary s) boundary Hs0 Hall)
      as (s'' & Hrun' & Hdims).
    assert (s'' = s') as -> by congruence.
    exists (Ok tt), s'. split; [done|]. split; [by left|]. split; [done|].
    eapply barcode_matches_inserted; [exact Hs0|done|by apply barcode_matches_counted|done..].
  - exists (Throw out_of_range), (counted boundary s).
    split; [by apply insert_boundary_throw|]. split; [by right|].
    split; [by apply consistent_set_dimensions|by apply barcode_matches_counted].
Qed.

Lemma barcode_matches_insert_boundaries (impl : column_impl) (boundaries : list (list nat)) :
  forall s, consistent s -> barcode_matches s ->
    exists s', insert_boundaries impl boundaries s = Some s' /\
               consistent s' /\ barcode_matches s'.
Proof.
  induction boundaries as [|b boundaries IH]; intros s Hs Hb; simpl.
  - eauto.
  - destruct (barcode_matches_insert impl s b Hs Hb) as (r & s' & Hrun & [-> | ->] & Hs' & Hb');
      rewrite Hrun; by apply IH.
Qed.


End BarcodeInvariant.

(** X20: whatever boundaries were passed to [insert_boundary] from the empty
    matrix, the barcode lists one bar per column that is unpaired or paired
    with a later column, in increasing order of these columns: the dimension
    of the column, its index as birth, and as death the index of the column it
    is paired with, or -1.  [indexToBar_] sends every column to the position
    of the bar of its birth.  So births increase strictly along the barcode
    and every death is -1 or comes after the birth. *)
Theorem barcode_lists_the_births
    (impl : ChainMatrix.column_impl) (boundaries : list (list nat)) :
  exists s,
    ChainMatrix.insert_boundaries impl boundaries ChainMatrix.empty_matrix = Some s /\
    barcode_matches s /\
    StronglySorted Z.lt (ChainMatrix.birth <$> ChainMatrix.barcode_ s) /\
    Forall (fun bar => ChainMatrix.death bar = (-1)%Z \/
                       (ChainMatrix.birth bar < ChainMatrix.death bar)%Z)
           (ChainMatrix.barcode_ s).
Proof.
  destruct (barcode_matches_insert_boundaries impl boundaries ChainMatrix.empty_matrix
              consistent_empty barcode_matches_empty) as (s & Hrun & Hs & Hb).
  exists s. split; [done|]. split; [done|].
  destruct Hb as [Hbars _].
  assert (Hsorted : StronglySorted lt (births s)).
  { unfold births. generalize 0 (ChainMatrix.nextInsertIndex_ s). intros a n.
    revert a. induction n as [|n IH]; intros a; cbn [seq List.filter]; [constructor|].
    assert (Hrest : Forall (lt a) (List.filter (surviving_birth s) (seq (S a) n))).
    { apply Forall_forall. intros x Hx. apply list_elem_of_In, filter_In in Hx as [Hx _].
      apply in_seq in Hx. lia. }
    destruct (surviving_birth s a); [constructor|]; by try apply IH. }
  assert (Hsurv : Forall (fun i => surviving_birth s i = true) (births s)).
  { apply Forall_forall. intros i Hi. by apply elem_of_births in Hi as [_ Hi]. }
  induction Hbars as [|i bar others bars Hbar Hbars IH]; cbn [fmap list_fmap].
  - split; constructor.
  - apply StronglySorted_inv in Hsorted as [Hsorted Hlt].
    apply Forall_cons in Hsurv as [Hi Hsurv].
    destruct (IH Hsorted Hsurv) as [IH1 IH2].
    rewrite (surviving_birth_eq s i Hs) in Hi.
    unfold bar_of in Hbar. destruct (ChainMatrix.matrix_ s !! i) as [c|] eqn:Hc; [|done].
    cbn in Hbar. injection Hbar as <-. cbn [ChainMatrix.birth ChainMatrix.death].
    split.
    + constructor; [done|]. apply Forall_fmap, Forall_forall. intros bar' Hbar'.
      apply list_elem_of_lookup in Hbar' as [k Hk].
      destruct (Forall2_lookup_r _ _ _ _ _ Hbars Hk) as (j & Hj & Hbj).
      unfold bar_of in Hbj. destruct (ChainMatrix.matrix_ s !! j) as [cj|]; [|done].
      cbn in Hbj. injection Hbj as <-. cbn.
      rewrite Forall_forall in Hlt. apply list_elem_of_lookup_2 in Hj.
      specialize (Hlt j Hj). lia.
    + constructor; [|done].
      destruct (ChainMatrix.pairedColumn_ c) as [j|]; [|by left].
      right. cbn [ChainMatrix.birth ChainMatrix.death]. apply Nat.ltb_lt in Hi. lia.
Qed.

(** ** Chain matrix: [erase_last] *)

Section EraseLast.
Import ChainMatrix ChainMatrixOps.

Lemma bind_ret {B : Type} (k : unit -> M B) s : (ret tt ≫= k) s = k tt s.
Proof. reflexivity. Qed.

Lemma bind_reads_undefined {A B : Type} (f : Chain_matrix -> result A) (k : A -> M B) s :
  f s = Undefined -> (reads f ≫= k) s = (Undefined, s).
Proof. intros H. unfold mbind, M_bind, bind, reads. by rewrite H. Qed.

Lemma pop_zeros_rev_replicate (k : nat) (l : list nat) :
  pop_zeros_rev (replicate k 0 ++ l) = pop_zeros_rev l.
Proof. induction k as [|k IH]; simpl; done. Qed.

Lemma pop_zeros_app_zeros (l : list nat) (k c : nat) :
  last l = Some (S c) -> pop_zeros (l ++ replicate k 0) = Ok l.
Proof.
  intros Hlast. apply last_Some in Hlast as [l' ->].
  unfold pop_zeros. rewrite !rev_app_distr. cbn [rev app].
  assert (Hrev : rev (replicate k 0) = replicate k 0).
  { clear. induction k as [|k IH]; [done|]. cbn [replicate rev]. rewrite IH.
    clear. induction k as [|k IH]; [done|]. simpl. by rewrite IH. }
  rewrite Hrev, pop_zeros_rev_replicate. cbn.
  by rewrite rev_involutive.
Qed.

Lemma pop_zeros_all_zero (l : list nat) : Forall (eq 0) l -> pop_zeros l = Undefined.
Proof.
  intros Hall. unfold pop_zeros.
  assert (Hrev : Forall (eq 0) (rev l)).
  { apply Forall_forall. intros x Hx. rewrite Forall_forall in Hall. apply Hall.
    apply list_elem_of_In. apply in_rev. by apply list_elem_of_In. }
  induction Hrev as [|x r <- _ IH]; [done|]. simpl. by rewrite IH.
Qed.

(** [erase_last] step by step, on a state whose last column is known. *)
Lemma erase_last_run (s : Chain_matrix) (n d count pos : nat) (col : Column_type) (bar : Bar)
    (dimensions : list nat) :
  nextInsertIndex_ s = S n ->
  matrix_ s !! n = Some col ->
  dim_ col = Z.of_nat d ->
  dimensions_ s !! d = Some (S count) ->
  pop_zeros (<[d := count]> (dimensions_ s)) = Ok dimensions ->
  indexToBar_ s !! n = Some pos ->
  barcode_ s !! pos = Some bar ->
  pivotToColumnIndex_ s !! n = Some n ->
  (forall fp, pairedColumn_ col = Some fp -> is_Some (matrix_ s !! fp)) ->
  erase_last s =
    (Ok tt,
     mkMatrix
       (delete n
          (match pairedColumn_ col with
           | Some fp =>
               match matrix_ s !! fp with
               | Some p => <[fp := unassign_paired_chain p]> (matrix_ s)
               | None => matrix_ s
               end
           | None => matrix_ s
           end))
       (delete n (pivotToColumnIndex_ s))
       n dimensions (Z.of_nat (length dimensions) - 1)
       (if (death bar =? -1)%Z then delete pos (barcode_ s)
        else <[pos := mkBar (ChainMatrix.dim bar) (birth bar) (-1)]> (barcode_ s))
       (delete n
          (if (death bar =? -1)%Z
           then (fun q => if (pos <? q)%nat then q - 1 else q) <$> indexToBar_ s
           else indexToBar_ s))).
Proof.
  intros Hn Hcol Hdim Hcount Hpop Hpos Hbar Hpivot Hpaired.
  unfold erase_last. rewrite bind_modify. simpl_state. rewrite Hn. cbn [uint_pred].
  erewrite bind_reads; [|simpl_state; by apply at_Some].
  erewrite bind_reads.
  2:{ simpl_state. rewrite Hdim. rewrite (proj2 (Z.ltb_ge _ _)) by lia.
      by rewrite Nat2Z.id, Hcount. }
  rewrite bind_modify.
  erewrite bind_reads; [|simpl_state; exact Hpop].
  rewrite bind_modify.
  erewrite bind_reads; [|simpl_state; by apply at_Some].
  erewrite bind_reads; [|simpl_state; by rewrite Hbar].
  destruct (death bar =? -1)%Z.
  - rewrite bind_modify. rewrite bind_modify. unfold erase_bar. simpl_state.
    erewrite bind_reads; [|simpl_state; by apply at_Some].
    erewrite bind_reads; [|simpl_state; by apply at_Some].
    unfold get_paired_chain_index.
    destruct (pairedColumn_ col) as [fp|] eqn:Hp.
    + destruct (Hpaired fp eq_refl) as [p Hfp]. rewrite Hfp.
      rewrite bind_assoc. erewrite bind_reads; [|simpl_state; by apply at_Some].
      cbn beta. rewrite !bind_modify. reflexivity.
    + rewrite bind_ret, bind_modify. reflexivity.
  - rewrite bind_modify. rewrite bind_modify. simpl_state.
    erewrite bind_reads; [|simpl_state; by apply at_Some].
    erewrite bind_reads; [|simpl_state; by apply at_Some].
    unfold get_paired_chain_index.
    destruct (pairedColumn_ col) as [fp|] eqn:Hp.
    + destruct (Hpaired fp eq_refl) as [p Hfp]. rewrite Hfp.
      rewrite bind_assoc. erewrite bind_reads; [|simpl_state; by apply at_Some].
      cbn beta. rewrite !bind_modify. reflexivity.
    + rewrite bind_ret, bind_modify. reflexivity.
Qed.

(** [maxDim_] is the last index of [dimensions_] in every state the insertions
    reach, whether they succeed or throw. *)
Lemma counted_maxDim (boundary : list nat) (s : Chain_matrix) :
  maxDim_ s = (Z.of_nat (length (dimensions_ s)) - 1)%Z ->
  maxDim_ (counted boundary s)
    = (Z.of_nat (length (dimensions_ (counted boundary s))) - 1)%Z.
Proof.
  intros Hmax. unfold counted. simpl_state. rewrite length_alter.
  set (d := boundary_dim boundary).
  destruct (Nat.leb_spec (length (dimensions_ s)) d) as [Hle|Hlt].
  - unfold resize. rewrite take_ge by lia. rewrite length_app, length_replicate.
    rewrite (proj2 (Z.ltb_lt _ _)) by lia. lia.
  - rewrite (proj2 (Z.ltb_ge _ _)) by lia. lia.
Qed.

Lemma insert_boundary_maxDim (impl : column_impl) (s : Chain_matrix) (boundary : list nat) :
  consistent s ->
  maxDim_ s = (Z.of_nat (length (dimensions_ s)) - 1)%Z ->
  exists r s', insert_boundary impl boundary s = (r, s') /\
               (r = Ok tt \/ r = Throw out_of_range) /\
               consistent s' /\
               maxDim_ s' = (Z.of_nat (length (dimensions_ s')) - 1)%Z.
Proof.
  intros Hs Hmax.
  destruct (decide (Forall (fun x => x < nextInsertIndex_ s) boundary)) as [Hall|Hall];
    rewrite Forall_forall in Hall.
  - rewrite insert_boundary_counted.
    pose proof (consistent_set_dimensions _ _ _ Hs : consistent (counted boundary s)) as Hs0.
    destruct (_reduce_boundary_ok impl (counted boundary s) boundary Hs0 Hall)
      as (H & E & s' & _ & Hrun & Hs' & _ & Hdims & Hmax').
    exists (Ok tt), s'. split; [done|]. split; [by left|]. split; [done|].
    rewrite Hdims, Hmax'. by apply counted_maxDim.
  - exists (Throw out_of_range), (counted boundary s).
    split; [by apply insert_boundary_throw|]. split; [by right|].
    split; [by apply consistent_set_dimensions|by apply counted_maxDim].
Qed.

Lemma reachable_maxDim (impl : column_impl) (boundaries : list (list nat)) :
  forall s s', consistent s ->
    maxDim_ s = (Z.of_nat (length (dimensions_ s)) - 1)%Z ->
    insert_boundaries impl boundaries s = Some s' ->
    maxDim_ s' = (Z.of_nat (length (dimensions_ s')) - 1)%Z.
Proof.
  induction boundaries as [|b boundaries IH]; intros s s' Hs Hmax Hrun; simpl in Hrun.
  - congruence.
  - destruct (insert_boundary_maxDim impl s b Hs Hmax)
      as (r & s1 & Hrun1 & [-> | ->] & Hs1 & Hmax1);
      rewrite Hrun1 in Hrun; by apply (IH s1).
Qed.

(** The counters after the decrement of [erase_last] are those before the
    insertion, followed by the zeros of the [resize]. *)
Lemma counted_uncounted (boundary : list nat) (s : Chain_matrix) :
  exists k,
    <[boundary_dim boundary := default 0 (dimensions_ s !! boundary_dim boundary)]>
      (dimensions_ (counted boundary s)) = dimensions_ s ++ replicate k 0.
Proof.
  unfold counted. simpl_state. set (d := boundary_dim boundary).
  destruct (Nat.leb_spec (length (dimensions_ s)) d) as [Hle|Hlt].
  - exists (d + 1 - length (dimensions_ s)).
    rewrite (lookup_ge_None_2 (dimensions_ s) d) by done. simpl.
    unfold resize. rewrite take_ge by lia.
    apply list_eq. intros i. destruct (decide (i = d)) as [->|Hne].
    + rewrite list_lookup_insert_eq.
      2:{ rewrite length_alter, length_app, length_replicate. lia. }
      rewrite lookup_app_r by lia. by rewrite lookup_replicate_2 by lia.
    + rewrite list_lookup_insert_ne by done. by rewrite list_lookup_alter_ne by done.
  - exists 0. destruct (lookup_lt_is_Some_2 (dimensions_ s) d Hlt) as [c Hc].
    rewrite Hc. simpl. rewrite app_nil_r.
    apply list_eq. intros i. destruct (decide (i = d)) as [->|Hne].
    + rewrite list_lookup_insert_eq by (rewrite length_alter; lia). done.
    + rewrite list_lookup_insert_ne by done. by rewrite list_lookup_alter_ne by done.
Qed.

(** [insert_boundary] followed by [erase_last]. *)
Lemma insert_erase_last (impl : column_impl) (s : Chain_matrix) (boundary : list nat)
    (count : nat) :
  consistent s ->
  maxDim_ s = (Z.of_nat (length (dimensions_ s)) - 1)%Z ->
  last (dimensions_ s) = Some (S count) ->
  (forall x, x ∈ boundary -> x < nextInsertIndex_ s) ->
  exists s' col s'',
    insert_boundary impl boundary s = (Ok tt, s') /\
    matrix_ s' !! nextInsertIndex_ s = Some col /\
    erase_last s' = (Ok tt, s'') /\
    match pairedColumn_ col with
    | None => s'' = s
    | Some fp => frame fp s s''
    end.
Proof.
  intros Hs Hmax Hlast Hb. set (n := nextInsertIndex_ s) in *.
  pose proof (consistent_set_dimensions _ _ _ Hs : consistent (counted boundary s)) as Hs0.
  destruct (_reduce_boundary_ok impl (counted boundary s) boundary Hs0 Hb)
    as (H & E & s' & _ & Hrun & Hs' & Hins & Hdims & _).
  destruct (_reduce_boundary_keeps_dims impl (counted boundary s) boundary Hs0 Hb)
    as (s0 & Hrun0 & Hkeep).
  assert (s0 = s') as -> by congruence.
  destruct Hins as (Hn' & col & Hcol & Hpivot & Hdim & _ & Hcase).
  change (nextInsertIndex_ (counted boundary s)) with n in *.
  change (matrix_ (counted boundary s)) with (matrix_ s) in *.
  change (barcode_ (counted boundary s)) with (barcode_ s) in *.
  change (indexToBar_ (counted boundary s)) with (indexToBar_ s) in *.
  exists s', col.
  destruct (counted_dimensions boundary s) as (Hcount & _ & _).
  destruct (counted_uncounted boundary s) as (k & Hun).
  assert (Hnone : matrix_ s !! n = None).
  { destruct (matrix_ s !! n) eqn:Hc; [|done].
    assert (n < n) by (apply (cons_columns s Hs); eauto). lia. }
  assert (Hpivots : delete n (pivotToColumnIndex_ s') = pivotToColumnIndex_ s).
  { apply map_eq. intros i. destruct (decide (i = n)) as [->|Hne].
    - rewrite lookup_delete_eq. symmetry. apply (cons_pivot_keys s Hs). lia.
    - rewrite lookup_delete_ne by done.
      destruct (Nat.lt_ge_cases i n) as [Hlt|Hge].
      + rewrite (cons_pivots s Hs) by done. apply (cons_pivots s' Hs'). lia.
      + rewrite (cons_pivot_keys s Hs) by done. apply (cons_pivot_keys s' Hs'). lia. }
  assert (Hbars : forall i q, indexToBar_ s !! i = Some q -> q < length (barcode_ s)).
  { intros i q Hq.
    destruct (Nat.lt_ge_cases i n) as [Hlt|Hge].
    - destruct (proj2 (cons_columns s Hs i) Hlt) as [c Hc].
      destruct (cons_bar s Hs i c Hc) as (pos & d' & Hpos & Hbar).
      assert (pos = q) as -> by congruence. by apply lookup_lt_Some in Hbar.
    - rewrite (cons_bar_keys s Hs) in Hq by done. done. }
  assert (Hidx : indexToBar_ s !! n = None) by (apply (cons_bar_keys s Hs); lia).
  destruct E as [|fp others].
  - destruct Hcase as (Hunpaired & Hframe & Hbarcode & Hindex).
    eexists. split; [by rewrite insert_boundary_counted|]. split; [done|].
    split.
    { eapply (erase_last_run s' n (boundary_dim boundary) _ (length (barcode_ s)) col); try done.
      - by rewrite Hdims.
      - rewrite Hdims, Hun. by eapply pop_zeros_app_zeros.
      - rewrite Hindex. apply lookup_insert_eq.
      - rewrite Hbarcode. rewrite lookup_app_r by lia. by rewrite Nat.sub_diag.
      - apply (cons_pivots s' Hs'). lia.
      - intros fp Hfp. congruence. }
    rewrite Hunpaired. cbn [death]. rewrite Z.eqb_refl.
    destruct s as [m p ni dm md bc ib].
    cbn [matrix_ pivotToColumnIndex_ nextInsertIndex_ dimensions_ maxDim_ barcode_
         indexToBar_] in *.
    subst n. f_equal.
    + apply map_eq. intros i. destruct (decide (i = ni)) as [->|Hne].
      * by rewrite lookup_delete_eq.
      * rewrite lookup_delete_ne by done. by apply Hframe.
    + done.
    + lia.
    + rewrite Hbarcode. rewrite delete_middle. apply app_nil_r.
    + rewrite Hindex. apply map_eq. intros i. destruct (decide (i = ni)) as [->|Hne].
      * by rewrite lookup_delete_eq.
      * rewrite lookup_delete_ne by done. rewrite lookup_fmap, lookup_insert_ne by done.
        destruct (ib !! i) as [q|] eqn:Hq; [|done].
        pose proof (Hbars i q Hq) as Hlt. cbn [fmap option_fmap option_map].
        by rewrite (proj2 (Nat.ltb_ge _ _)) by lia.
  - destruct Hcase as (Hpaired & _ & (cfp & cfp' & Hcfp & Hcfp_un & Hcfp' & Hcfp'_p & Hcfp'_piv)
                       & Hframe & pos & d' & Hpos & Hbar & Hbarcode & Hindex).
    assert (Hfp : fp < n) by (apply (cons_columns s Hs); eauto).
    eexists. split; [by rewrite insert_boundary_counted|]. split; [done|].
    split.
    { eapply (erase_last_run s' n (boundary_dim boundary) _ pos col); try done.
      - by rewrite Hdims.
      - rewrite Hdims, Hun. by eapply pop_zeros_app_zeros.
      - rewrite Hindex. apply lookup_insert_eq.
      - rewrite Hbarcode. apply list_lookup_insert_eq. by apply lookup_lt_Some in Hbar.
      - apply (cons_pivots s' Hs'). lia.
      - intros fp' Hfp'. assert (fp' = fp) as -> by congruence. eauto. }
    rewrite Hpaired, Hcfp'. cbn [death ChainMatrix.dim birth].
    rewrite (proj2 (Z.eqb_neq _ _)) by lia.
    unfold frame. cbn [nextInsertIndex_ pivotToColumnIndex_ dimensions_ maxDim_ barcode_
                       indexToBar_ matrix_].
    split; [done|]. split; [done|]. split; [done|]. split; [lia|].
    split.
    { rewrite Hbarcode, list_insert_insert_eq. by apply list_insert_id. }
    split.
    { rewrite Hindex. apply map_eq. intros i. destruct (decide (i = n)) as [->|Hne].
      - by rewrite lookup_delete_eq.
      - rewrite lookup_delete_ne by done. by rewrite lookup_insert_ne. }
    split.
    { intros i Hi. destruct (decide (i = n)) as [->|Hne].
      - by rewrite lookup_delete_eq.
      - rewrite lookup_delete_ne by done. rewrite lookup_insert_ne by done.
        by apply Hframe. }
    intros c Hc. assert (c = cfp) as -> by congruence.
    exists (unassign_paired_chain cfp').
    split.
    { rewrite lookup_delete_ne by lia. apply lookup_insert_eq. }
    unfold unassign_paired_chain. cbn [dim_ pivot_ pairedColumn_].
    destruct (Hkeep fp cfp Hcfp) as (c1 & Hc1 & Hd1).
    assert (c1 = cfp') as -> by congruence.
    split; [done|]. split; [|done].
    rewrite Hcfp'_piv. symmetry. by apply (cons_column s Hs fp cfp).
Qed.

End EraseLast.

(** X21: in a matrix reached by insertions whose last dimension counter is not
    zero, [insert_boundary] of a boundary whose faces are all in the matrix
    followed by [erase_last] succeeds.  When the inserted column was unpaired
    the matrix is back in the state before the insertion; when it was paired
    with the column [fp], everything is restored but the cells of [fp], which
    keep the columns the reduction added to them. *)
Theorem erase_last_undoes_insert_boundary
    (impl : ChainMatrix.column_impl) (boundaries : list (list nat))
    (s : ChainMatrix.Chain_matrix) (boundary : list nat) (count : nat) :
  ChainMatrix.insert_boundaries impl boundaries ChainMatrix.empty_matrix = Some s ->
  last (ChainMatrix.dimensions_ s) = Some (S count) ->
  Forall (fun x => x < ChainMatrix.nextInsertIndex_ s) boundary ->
  exists s' col s'',
    ChainMatrix.insert_boundary impl boundary s = (Ok tt, s') /\
    ChainMatrix.matrix_ s' !! ChainMatrix.nextInsertIndex_ s = Some col /\
    ChainMatrixOps.erase_last s' = (Ok tt, s'') /\
    match ChainMatrix.pairedColumn_ col with
    | None => s'' = s
    | Some fp => frame fp s s''
    end.
Proof.
  intros Hreach Hlast Hb. rewrite Forall_forall in Hb.
  apply (insert_erase_last impl s boundary count); [| |done..].
  - by apply (reachable_consistent impl boundaries).
  - by apply (reachable_maxDim impl boundaries ChainMatrix.empty_matrix s consistent_empty).
Qed.

Lemma erase_last_undoes_insert_boundary_witness :
  exists s' col s'',
    ChainMatrix.insert_boundary ChainMatrix.Wrapper [0; 1] two_vertices = (Ok tt, s') /\
    ChainMatrix.matrix_ s' !! ChainMatrix.nextInsertIndex_ two_vertices = Some col /\
    ChainMatrixOps.erase_last s' = (Ok tt, s'') /\
    match ChainMatrix.pairedColumn_ col with
    | None => s'' = two_vertices
    | Some fp => frame fp two_vertices s''
    end.
Proof.
  apply (erase_last_undoes_insert_boundary ChainMatrix.Wrapper [[]; []] two_vertices
           [0; 1] 1).
  - vm_compute. reflexivity.
  - vm_compute. reflexivity.
  - repeat constructor.
Defined.

(** X22: [erase_last] on a matrix without a column: the counter of columns is
    decremented first and wraps to 2^32 - 1, then [matrix_.at] throws
    [std::out_of_range]; the wrapped counter is left in the matrix. *)
Theorem erase_last_without_column
    (impl : ChainMatrix.column_impl) (boundaries : list (list nat))
    (s : ChainMatrix.Chain_matrix) :
  ChainMatrix.insert_boundaries impl boundaries ChainMatrix.empty_matrix = Some s ->
  ChainMatrix.nextInsertIndex_ s = 0 ->
  ChainMatrixOps.erase_last s
    = (Throw out_of_range, ChainMatrix.set_nextInsertIndex (ChainMatrixOps.uint_pred 0) s) /\
  Z.of_nat (ChainMatrixOps.uint_pred 0) = (2 ^ 32 - 1)%Z.
Proof.
  intros Hreach Hn.
  pose proof (reachable_consistent impl boundaries s Hreach) as Hs.
  split.
  - unfold ChainMatrixOps.erase_last. rewrite bind_modify. rewrite Hn.
    generalize (ChainMatrixOps.uint_pred 0). intros k.
    apply bind_reads_throw. simpl_state. apply at_None.
    destruct (ChainMatrix.matrix_ s !! k) eqn:Hk; [|done].
    assert (k < ChainMatrix.nextInsertIndex_ s) by (apply (cons_columns s Hs); eauto).
    lia.
  - cbn [ChainMatrixOps.uint_pred].
    assert (Hpos : 1 <= 2 ^ 32) by (apply Nat.neq_0_lt_0, Nat.pow_nonzero; discriminate).
    rewrite Nat2Z.inj_sub by exact Hpos. rewrite Nat2Z.inj_pow. reflexivity.
Qed.

Lemma erase_last_without_column_witness :
  ChainMatrixOps.erase_last ChainMatrix.empty_matrix
    = (Throw out_of_range,
       ChainMatrix.set_nextInsertIndex (ChainMatrixOps.uint_pred 0) ChainMatrix.empty_matrix) /\
  Z.of_nat (ChainMatrixOps.uint_pred 0) = (2 ^ 32 - 1)%Z.
Proof.
  apply (erase_last_without_column ChainMatrix.Wrapper [] ChainMatrix.empty_matrix).
  - reflexivity.
  - reflexivity.
Defined.

(** X23: [erase_last] of a column that is the only one counted in
    [dimensions_], as the column of a matrix of one column is: the decrement
    leaves zeros only, the loop pops them all and reads [back()] of an empty
    vector, which is undefined. *)
Theorem erase_last_of_the_only_column
    (s : ChainMatrix.Chain_matrix) (n d : nat) (col : ChainMatrix.Column_type) :
  ChainMatrix.nextInsertIndex_ s = S n ->
  ChainMatrix.matrix_ s !! n = Some col ->
  ChainMatrix.dim_ col = Z.of_nat d ->
  ChainMatrix.dimensions_ s !! d = Some 1 ->
  (forall d' c, d' ≠ d -> ChainMatrix.dimensions_ s !! d' = Some c -> c = 0) ->
  exists s', ChainMatrixOps.erase_last s = (Undefined, s').
Proof.
  intros Hn Hcol Hdim Hone Hzero.
  unfold ChainMatrixOps.erase_last. rewrite bind_modify. simpl_state. rewrite Hn.
  cbn [ChainMatrixOps.uint_pred].
  erewrite bind_reads; [|simpl_state; by apply at_Some].
  erewrite bind_reads.
  2:{ simpl_state. rewrite Hdim. rewrite (proj2 (Z.ltb_ge _ _)) by lia.
      by rewrite Nat2Z.id, Hone. }
  rewrite bind_modify. eexists. apply bind_reads_undefined. simpl_state.
  apply pop_zeros_all_zero. apply Forall_lookup. intros i x Hx.
  apply list_lookup_insert_Some in Hx as [(-> & <- & _)|(Hne & Hx)].
  - reflexivity.
  - symmetry. by apply (Hzero i).
Qed.

Lemma erase_last_of_the_only_column_witness :
  exists s',
    ChainMatrixOps.erase_last
      (default ChainMatrix.empty_matrix
         (ChainMatrix.insert_boundaries ChainMatrix.Wrapper [[]] ChainMatrix.empty_matrix))
    = (Undefined, s').
Proof.
  apply (erase_last_of_the_only_column _ 0 0 (ChainMatrix.mkColumn [0] 0 (Some 0) None)).
  - vm_compute. reflexivity.
  - vm_compute. reflexivity.
  - reflexivity.
  - vm_compute. reflexivity.
  - intros [|d'] c Hne Hc; [done|]. vm_compute in Hc. discriminate.
Defined.

(** ** Representative cycles of the bars *)

Section RepresentativeCycleOfBar.
Import ChainMatrix RepCycles RepCyclesOps.
Variable unordered_column : bool.

(** What [update_representative_cycles] computes on a consistent matrix. *)
Lemma update_representative_cycles_spec (s : Chain_matrix) :
  consistent s ->
  exists r,
    update_representative_cycles unordered_column s = Ok r /\
    representativeCycles_ r = map (cycle_of unordered_column s) (births s) /\
    length (birthToCycle_ r) = nextInsertIndex_ s /\
    (forall k i, births s !! k = Some i -> birthToCycle_ r !! i = Some (Some k)).
Proof.
  intros Hs. unfold update_representative_cycles, get_number_of_columns.
  destruct (visit_all_spec unordered_column s (seq 0 (nextInsertIndex_ s))
              (mkCycles [] (replicate (nextInsertIndex_ s) None)))
    as (r & Hr & Hcycles & Hlen & _ & _ & Hbirth).
  { apply NoDup_seq. }
  { intros i Hi. apply list_elem_of_In, in_seq in Hi. unfold pivot_owner.
    rewrite (cons_pivots s Hs) by lia. apply (cons_columns s Hs). lia. }
  { intros i Hi. apply list_elem_of_In, in_seq in Hi. cbn [birthToCycle_].
    rewrite length_replicate. lia. }
  exists r. split; [done|]. split; [done|].
  split; [by rewrite Hlen; cbn [birthToCycle_]; rewrite length_replicate|].
  intros k i Hk. by rewrite (Hbirth k i Hk).
Qed.

Lemma births_first (s : Chain_matrix) :
  consistent s -> 0 < nextInsertIndex_ s -> births s ≠ [].
Proof.
  intros Hs Hn Hnil.
  assert (Hin : 0 ∈ births s); [|rewrite Hnil in Hin; by apply not_elem_of_nil in Hin].
  apply elem_of_births. split; [done|]. rewrite (surviving_birth_eq s 0 Hs).
  destruct (proj2 (cons_columns s Hs 0) Hn) as [c Hc]. rewrite Hc.
  destruct (pairedColumn_ c) as [j|] eqn:Hj; [|done].
  destruct (cons_paired s Hs 0 c j Hc Hj) as [Hne _]. apply Nat.ltb_lt. lia.
Qed.

End RepresentativeCycleOfBar.



(** X25: the cycles are computed once.  On an object that
    [get_representative_cycles] has filled for a matrix with at least one
    column, a later call returns the same cycles whatever the matrix has
    become, and [get_representative_cycle] of a bar born at a column inserted
    since then indexes [birthToCycle_] past its end. *)
Theorem representative_cycles_are_not_refreshed
    (impl : ChainMatrix.column_impl) (unordered_column : bool)
    (boundaries : list (list nat)) (s : ChainMatrix.Chain_matrix) :
  ChainMatrix.insert_boundaries impl boundaries ChainMatrix.empty_matrix = Some s ->
  0 < ChainMatrix.nextInsertIndex_ s ->
  exists r,
    RepCyclesOps.get_representative_cycles unordered_column s (RepCycles.mkCycles [] [])
      = Ok r /\
    forall s' : ChainMatrix.Chain_matrix,
      RepCyclesOps.get_representative_cycles unordered_column s' r = Ok r /\
      forall bar : ChainMatrix.Bar,
        (Z.of_nat (ChainMatrix.nextInsertIndex_ s) <= ChainMatrix.birth bar)%Z ->
        RepCyclesOps.get_representative_cycle unordered_column s' r bar = Undefined.
Proof.
  intros Hreach Hn.
  pose proof (reachable_consistent impl boundaries s Hreach) as Hs.
  destruct (update_representative_cycles_spec unordered_column s Hs)
    as (r & Hr & Hcycles & Hlen & _).
  exists r. split; [exact Hr|].
  assert (Hstale : forall s', RepCyclesOps.get_representative_cycles unordered_column s' r = Ok r).
  { intros s'. unfold RepCyclesOps.get_representative_cycles. rewrite Hcycles.
    pose proof (births_first s Hs Hn) as Hne.
    destruct (births s); [done|reflexivity]. }
  intros s'. split; [by apply Hstale|]. intros bar Hbirth.
  unfold RepCyclesOps.get_representative_cycle. rewrite Hstale. cbn [mbind result_bind rbind].
  rewrite (proj2 (Z.ltb_ge _ _)) by lia.
  rewrite (lookup_ge_None_2 (RepCycles.birthToCycle_ r)) by (rewrite Hlen; lia).
  reflexivity.
Qed.

Lemma representative_cycles_are_not_refreshed_witness :
  exists r,
    RepCyclesOps.get_representative_cycles false two_vertices (RepCycles.mkCycles [] [])
      = Ok r /\
    forall s' : ChainMatrix.Chain_matrix,
      RepCyclesOps.get_representative_cycles false s' r = Ok r /\
      forall bar : ChainMatrix.Bar,
        (Z.of_nat (ChainMatrix.nextInsertIndex_ two_vertices) <= ChainMatrix.birth bar)%Z ->
        RepCyclesOps.get_representative_cycle false s' r bar = Undefined.
Proof.
  apply (representative_cycles_are_not_refreshed ChainMatrix.Wrapper false [[]; []]
           two_vertices).
  - vm_compute. reflexivity.
  - vm_compute. lia.
Defined.

(** ** List column over Z/pZ: [multiply_and_add] *)

Section MultiplyAndAdd.
Import ListColumn.

Variable isNonBasic is_of_boundary_type : bool.
Variable p : Z.
Hypothesis Hp : (0 < p)%Z.

Let merge := merge_scaled_target isNonBasic is_of_boundary_type (Zp_operators p).

Lemma coefficient_below (cells : list (nat * Z)) (row : nat) :
  Forall (lt row) (map fst cells) -> coefficient cells row = 0%Z.
Proof.
  induction cells as [|c cells IH]; intros Hall; [done|].
  cbn [map] in Hall. apply Forall_cons in Hall as [Hc Hall]. cbn [coefficient].
  rewrite (proj2 (Nat.eqb_neq _ _)) by lia. by apply IH.
Qed.

Lemma coefficient_scaled (val : Z) (cells : list (nat * Z)) (row : nat) :
  coefficient (map (fun c => (c.1, (c.2 * val) mod p)%Z) cells) row
    = ((coefficient cells row * val) mod p)%Z.
Proof.
  induction cells as [|c cells IH]; cbn [map coefficient fst snd].
  - by rewrite Z.mod_0_l by lia.
  - destruct (c.1 =? row)%nat; [done|exact IH].
Qed.

Lemma coefficient_reduced (cells : list (nat * Z)) (row : nat) :
  Forall (fun c => 0 <= c.2 < p)%Z cells ->
  (coefficient cells row mod p = coefficient cells row)%Z.
Proof.
  induction 1 as [|c cells Hc _ IH]; cbn [coefficient].
  - apply Z.mod_0_l. lia.
  - destruct (c.1 =? row)%nat; [by apply Z.mod_small|exact IH].
Qed.

(** The merge of [_multiply_and_add]: the rows stay strictly increasing, no
    row appears from nowhere, and the coefficients are those of
    [target * val + source]. *)
Lemma merge_scaled_target_spec (pvt : option nat) (val : Z) (target : list (nat * Z)) :
  forall source,
    StronglySorted lt (map fst target) ->
    StronglySorted lt (map fst source) ->
    Forall (fun c => 0 <= c.2 < p)%Z source ->
    forall r z, merge pvt val target source = (r, z) ->
      StronglySorted lt (map fst r) /\
      (forall a, Forall (lt a) (map fst target) -> Forall (lt a) (map fst source) ->
                 Forall (lt a) (map fst r)) /\
      forall row, coefficient r row
                  = ((coefficient target row * val + coefficient source row) mod p)%Z.
Proof.
  induction target as [|[tr te] target IHt]; intros source Ht Hs Hred r z Hm.
  { destruct source; cbn in Hm; injection Hm as <- <-;
      (split; [done|]; split; [done|]); intros row; cbn [coefficient];
      rewrite ?Z.mul_0_l, ?Z.add_0_l; [by rewrite Z.mod_0_l by lia|].
    symmetry. apply (coefficient_reduced (p0 :: source)). done. }
  induction source as [|[sr se] source IHs] in Hs, Hred, r, z, Hm |- *.
  { cbn in Hm. injection Hm as <- <-.
    change (((tr, (te * val) mod p) :: map (fun c => (c.1, (c.2 * val) mod p)) target)%Z)
      with (map (fun c => (c.1, (c.2 * val) mod p)%Z) ((tr, te) :: target)).
    assert (Hrows : map fst (map (fun c => (c.1, (c.2 * val) mod p)%Z) ((tr, te) :: target))
                    = map fst ((tr, te) :: target)).
    { rewrite map_map. by apply map_ext. }
    rewrite Hrows. split; [done|]. split; [done|]. intros row.
    rewrite coefficient_scaled. cbn [coefficient]. by rewrite Z.add_0_r. }
  cbn [map fst] in Ht, Hs.
  apply StronglySorted_inv in Ht as [Ht Htr].
  pose proof Hs as Hs0. apply StronglySorted_inv in Hs as [Hs Hsr].
  pose proof Hred as Hred0. apply Forall_cons in Hred as [Hse Hred]. cbn [snd] in Hse.
  unfold merge in Hm. cbn [merge_scaled_target] in Hm.
  destruct (Nat.ltb_spec tr sr) as [Hlt|Hge].
  - (* the target cell comes first: it is scaled *)
    fold (merge pvt val target ((sr, se) :: source)) in Hm.
    destruct (merge pvt val target ((sr, se) :: source)) as [r' z'] eqn:Hr'.
    injection Hm as <- <-.
    destruct (IHt ((sr, se) :: source) Ht Hs0 Hred0 r' z' Hr') as (Hsort & Hlow & Hco).
    split; [|split].
    + cbn [map fst]. constructor; [done|]. apply Hlow; [done|].
      cbn [map fst]. constructor; [done|]. eapply Forall_impl; [exact Hsr|]. cbn. lia.
    + intros a Ha Hb. cbn [map fst] in *. apply Forall_cons in Ha as [Ha Ha'].
      constructor; [done|]. by apply Hlow.
    + intros row. cbn [coefficient fst snd op_multiply Zp_operators].
      destruct (Nat.eqb_spec tr row) as [->|Hne].
      * rewrite (proj2 (Nat.eqb_neq sr row)) by lia.
        rewrite (coefficient_below source row).
        2:{ eapply Forall_impl; [exact Hsr|]. cbn. lia. }
        by rewrite Z.add_0_r.
      * rewrite Hco. done.
  - destruct (Nat.ltb_spec sr tr) as [Hlt|Hge'].
    + (* the source cell comes first: it is inserted *)
      match type of Hm with
      | (let '(r, z) := ?m in _) = _ => destruct m as [r' z'] eqn:Hr'
      end.
      injection Hm as <- <-.
      destruct (IHs Hs Hred r' z' Hr') as (Hsort & Hlow & Hco).
      split; [|split].
      * cbn [map fst]. constructor; [done|]. apply Hlow; [|done].
        cbn [map fst]. constructor; [done|]. eapply Forall_impl; [exact Htr|]. cbn. lia.
      * intros a Ha Hb. cbn [map fst] in *. apply Forall_cons in Hb as [Hb Hb'].
        constructor; [done|]. by apply Hlow.
      * intros row. cbn [coefficient fst snd].
        destruct (Nat.eqb_spec sr row) as [->|Hne].
        -- rewrite (proj2 (Nat.eqb_neq tr row)) by lia.
           rewrite (coefficient_below target row).
           2:{ eapply Forall_impl; [exact Htr|]. cbn. lia. }
           rewrite Z.mul_0_l, Z.add_0_l. symmetry. by apply Z.mod_small.
        -- rewrite Hco. done.
    + (* the same row: the elements are combined *)
      assert (sr = tr) as -> by lia.
      fold (merge pvt val target source) in Hm.
      destruct (merge pvt val target source) as [r' z'] eqn:Hr'.
      destruct (IHt source Ht Hs Hred r' z' Hr') as (Hsort & Hlow & Hco).
      cbn [op_multiply_and_add additive_identity Zp_operators] in Hm.
      destruct (Z.eqb_spec ((te * val + se) mod p) 0) as [Hzero|Hnz];
        injection Hm as <- <-.
      * split; [done|]. split.
        { intros a Ha Hb. cbn [map fst] in *. apply Forall_cons in Ha as [_ Ha].
          apply Forall_cons in Hb as [_ Hb]. by apply Hlow. }
        intros row. cbn [coefficient fst snd]. rewrite Hco.
        destruct (Nat.eqb_spec tr row) as [->|Hne]; [|done].
        rewrite (coefficient_below target row), (coefficient_below source row) by done.
        rewrite Z.mul_0_l, Z.add_0_l, Z.mod_0_l by lia. by rewrite Hzero.
      * split; [|split].
        { cbn [map fst]. constructor; [done|]. by apply Hlow. }
        { intros a Ha Hb. cbn [map fst] in *. apply Forall_cons in Ha as [Ha Ha'].
          apply Forall_cons in Hb as [_ Hb]. constructor; [done|]. by apply Hlow. }
        intros row. cbn [coefficient fst snd]. rewrite Hco.
        by destruct (tr =? row)%nat.
Qed.

Lemma elem_of_rows_cons (a : nat) (e : Z) (l : list (nat * Z)) (row : nat) :
  row ∈ map fst ((a, e) :: l) <-> row = a \/ row ∈ map fst l.
Proof. cbn [map fst]. apply elem_of_cons. Qed.

Lemma coefficient_cons_ne (a : nat) (e : Z) (l : list (nat * Z)) (row : nat) :
  row ≠ a -> coefficient ((a, e) :: l) row = coefficient l row.
Proof. intros Hne. cbn [coefficient fst]. by rewrite (proj2 (Nat.eqb_neq a row)). Qed.

Lemma coefficient_cons_eq (a : nat) (e : Z) (l : list (nat * Z)) :
  coefficient ((a, e) :: l) a = e.
Proof. cbn [coefficient fst snd]. by rewrite Nat.eqb_refl. Qed.

Lemma not_elem_of_above (a : nat) (l : list nat) : Forall (lt a) l -> a ∉ l.
Proof. intros Hall Hin. rewrite Forall_forall in Hall. specialize (Hall a Hin). lia. Qed.

(** A row with a cell in the column has the cell of its coefficient. *)
Lemma coefficient_cell (cells : list (nat * Z)) (row : nat) :
  row ∈ map fst cells -> (row, coefficient cells row) ∈ cells.
Proof.
  induction cells as [|[a e] cells IH]; intros Hin; [by apply elem_of_nil in Hin|].
  destruct (decide (row = a)) as [->|Hne].
  - rewrite coefficient_cons_eq. left.
  - rewrite coefficient_cons_ne by done. right. apply IH.
    apply elem_of_rows_cons in Hin as [?|?]; done.
Qed.

Lemma coefficient_absent (cells : list (nat * Z)) (row : nat) :
  row ∉ map fst cells -> coefficient cells row = 0%Z.
Proof.
  induction cells as [|[a e] cells IH]; intros Hnin; [done|].
  rewrite elem_of_rows_cons in Hnin.
  rewrite coefficient_cons_ne by (intros ->; tauto). apply IH. tauto.
Qed.

Lemma coefficient_of_cell (cells : list (nat * Z)) (row : nat) (e : Z) :
  StronglySorted lt (map fst cells) -> (row, e) ∈ cells -> coefficient cells row = e.
Proof.
  induction cells as [|[a e0] cells IH]; intros Hs Hin; [by apply elem_of_nil in Hin|].
  cbn [map fst] in Hs. apply StronglySorted_inv in Hs as [Hs Ha].
  apply elem_of_cons in Hin as [[= -> ->]|Hin]; [apply coefficient_cons_eq|].
  assert (Hrow : row ∈ map fst cells).
  { apply list_elem_of_fmap. by exists (row, e). }
  rewrite coefficient_cons_ne; [by apply IH|].
  intros ->. by apply (not_elem_of_above a (map fst cells)).
Qed.

(** The rows of the merge: a row of one column alone is kept, a row of both
    is kept unless the combination of its two elements is zero. *)
Lemma merge_scaled_target_rows (pvt : option nat) (val : Z) (target : list (nat * Z)) :
  forall source,
    StronglySorted lt (map fst target) ->
    StronglySorted lt (map fst source) ->
    forall r z, merge pvt val target source = (r, z) ->
      forall row,
        row ∈ map fst r <->
        (row ∈ map fst target /\ row ∉ map fst source) \/
        ((row ∉ map fst target) /\ row ∈ map fst source) \/
        (row ∈ map fst target /\ row ∈ map fst source /\
         ((coefficient target row * val + coefficient source row) mod p)%Z ≠ 0%Z).
Proof.
  induction target as [|[tr te] target IHt]; intros source Ht Hs r z Hm row.
  { destruct source; cbn in Hm; injection Hm as <- <-; cbn [map];
      rewrite ?elem_of_nil; tauto. }
  induction source as [|[sr se] source IHs] in Hs, r, z, Hm |- *.
  { cbn in Hm. injection Hm as <- <-.
    change (((tr, (te * val) mod p) :: map (fun c => (c.1, (c.2 * val) mod p)) target)%Z)
      with (map (fun c => (c.1, (c.2 * val) mod p)%Z) ((tr, te) :: target)).
    assert (Hrows : map fst (map (fun c => (c.1, (c.2 * val) mod p)%Z) ((tr, te) :: target))
                    = map fst ((tr, te) :: target)).
    { rewrite map_map. by apply map_ext. }
    rewrite Hrows. cbn [map]. rewrite !elem_of_nil. tauto. }
  pose proof Ht as Ht0. pose proof Hs as Hs0.
  cbn [map fst] in Ht, Hs.
  apply StronglySorted_inv in Ht as [Ht Htr].
  apply StronglySorted_inv in Hs as [Hs Hsr].
  pose proof (not_elem_of_above _ _ Htr) as Htr_notin.
  pose proof (not_elem_of_above _ _ Hsr) as Hsr_notin.
  unfold merge in Hm. cbn [merge_scaled_target] in Hm.
  rewrite !elem_of_rows_cons.
  destruct (Nat.ltb_spec tr sr) as [Hlt|Hge].
  - fold (merge pvt val target ((sr, se) :: source)) in Hm.
    destruct (merge pvt val target ((sr, se) :: source)) as [r' z'] eqn:Hr'.
    injection Hm as <- <-. rewrite elem_of_rows_cons.
    rewrite (IHt ((sr, se) :: source) Ht Hs0 r' z' Hr' row). rewrite elem_of_rows_cons.
    assert (Htr_s : tr ∉ map fst source).
    { apply not_elem_of_above. eapply Forall_impl; [exact Hsr|]. cbn. lia. }
    destruct (decide (row = tr)) as [->|Hne].
    + split; [|by left]. intros _. left. split; [by left|]. intros [?|?]; [lia|done].
    + rewrite (coefficient_cons_ne tr te target row Hne). tauto.
  - destruct (Nat.ltb_spec sr tr) as [Hlt|Hge'].
    + match type of Hm with
      | (let '(r, z) := ?m in _) = _ => destruct m as [r' z'] eqn:Hr'
      end.
      injection Hm as <- <-. rewrite elem_of_rows_cons.
      rewrite (IHs Hs r' z' Hr'). rewrite elem_of_rows_cons.
      assert (Hsr_t : sr ∉ map fst target).
      { apply not_elem_of_above. eapply Forall_impl; [exact Htr|]. cbn. lia. }
      destruct (decide (row = sr)) as [->|Hne].
      * split; [|by left]. intros _. right. left. split; [|by left].
        intros [?|?]; [lia|done].
      * rewrite (coefficient_cons_ne sr se source row Hne). tauto.
    + assert (sr = tr) as -> by lia.
      fold (merge pvt val target source) in Hm.
      destruct (merge pvt val target source) as [r' z'] eqn:Hr'.
      pose proof (IHt source Ht Hs r' z' Hr' row) as IH.
      cbn [op_multiply_and_add additive_identity Zp_operators] in Hm.
      destruct (decide (row = tr)) as [->|Hne].
      * rewrite !coefficient_cons_eq.
        destruct (Z.eqb_spec ((te * val + se) mod p) 0) as [Hzero|Hnz];
          injection Hm as <- <-.
        -- rewrite IH. split; [tauto|]. intros [[_ H]|[[H _]|(_ & _ & H)]]; [|tauto|done].
           exfalso. apply H. by left.
        -- rewrite elem_of_rows_cons. split; [|by left]. intros _. right. right.
           split; [by left|]. split; [by left|done].
      * rewrite !coefficient_cons_ne by done.
        destruct (Z.eqb_spec ((te * val + se) mod p) 0) as [Hzero|Hnz];
          injection Hm as <- <-; rewrite ?elem_of_rows_cons, IH; tauto.
Qed.

End MultiplyAndAdd.

(** X26: [multiply_and_add(val, column)] on list columns over Z/pZ whose
    cells are in strictly increasing row order, the elements of [column] being
    reduced modulo [p].  Unless the column is a chain column and [val] is 0,
    the call succeeds, the rows of the target stay strictly increasing, the
    coefficient of the target at every row becomes
    [(target * val + column) mod p], and the cells of [column] are unchanged.
    For [val] 0 the target gets the cells of [column].  Otherwise a row of
    one column alone is kept, and a row of both is kept exactly when the
    combination of its two elements is not zero.  So a row of the target
    alone is kept with the element zero when [val] is a multiple of [p] that
    is not 0, the test being on [val] as it is passed; for a prime [p], a
    [val] that is not a multiple of [p] and columns without a zero element,
    the target has no zero element. *)
Theorem multiply_and_add_is_linear_combination
    (isNonBasic is_of_boundary_type : bool) (p val : Z)
    (self column : ListColumn.Column) :
  (0 < p)%Z ->
  StronglySorted lt (map fst (ListColumn.cells self)) ->
  StronglySorted lt (map fst (ListColumn.cells column)) ->
  Forall (fun c => 0 <= c.2 < p)%Z (ListColumn.cells column) ->
  ListColumn.is_chain isNonBasic is_of_boundary_type = false \/ val <> 0%Z ->
  exists self' column',
    ListColumn.multiply_target_and_add isNonBasic is_of_boundary_type
      (ListColumn.Zp_operators p) self val column = Ok (self', column') /\
    StronglySorted lt (map fst (ListColumn.cells self')) /\
    (forall row,
       coefficient (ListColumn.cells self') row
       = ((coefficient (ListColumn.cells self) row * val
           + coefficient (ListColumn.cells column) row) mod p)%Z) /\
    ListColumn.cells column' = ListColumn.cells column /\
    (val = 0%Z -> ListColumn.cells self' = ListColumn.cells column) /\
    (val <> 0%Z ->
     forall row,
       row ∈ map fst (ListColumn.cells self') <->
       (row ∈ map fst (ListColumn.cells self) /\ row ∉ map fst (ListColumn.cells column)) \/
       ((row ∉ map fst (ListColumn.cells self)) /\ row ∈ map fst (ListColumn.cells column)) \/
       (row ∈ map fst (ListColumn.cells self) /\ row ∈ map fst (ListColumn.cells column) /\
        ((coefficient (ListColumn.cells self) row * val
          + coefficient (ListColumn.cells column) row) mod p)%Z ≠ 0%Z)) /\
    (val <> 0%Z -> (val mod p = 0)%Z ->
     forall row,
       row ∈ map fst (ListColumn.cells self) ->
       row ∉ map fst (ListColumn.cells column) ->
       (row, 0%Z) ∈ ListColumn.cells self') /\
    (Z.prime p -> (val mod p)%Z ≠ 0%Z ->
     Forall (fun c => (c.2 mod p)%Z ≠ 0%Z) (ListColumn.cells self) ->
     Forall (fun c => c.2 ≠ 0%Z) (ListColumn.cells column) ->
     Forall (fun c => c.2 ≠ 0%Z) (ListColumn.cells self')).
Proof.
  intros Hp Hself Hcolumn Hred Hval.
  unfold ListColumn.multiply_target_and_add, ListColumn._multiply_and_add.
  destruct (Z.eqb_spec val 0) as [->|Hnz].
  - destruct Hval as [Hchain|Hval]; [|done]. rewrite Hchain.
    assert (Hsource : ListColumn.merge_scaled_target isNonBasic is_of_boundary_type
                        (ListColumn.Zp_operators p) (ListColumn.pivot self) 0 []
                        (ListColumn.cells column) = (ListColumn.cells column, false)).
    { by destruct (ListColumn.cells column). }
    rewrite Hsource. cbn [mbind result_bind rbind andb].
    eexists _, _. split; [reflexivity|]. cbn [ListColumn.cells].
    split; [done|]. split.
    { intros row. rewrite Z.mul_0_r, Z.add_0_l. symmetry. by apply coefficient_reduced. }
    split; [done|]. split; [done|]. split; [done|]. split; [done|].
    intros _ Hunit. by rewrite Z.mod_0_l in Hunit by lia.
  - destruct (ListColumn.merge_scaled_target isNonBasic is_of_boundary_type
                (ListColumn.Zp_operators p) (ListColumn.pivot self) val
                (ListColumn.cells self) (ListColumn.cells column)) as [r z] eqn:Hm.
    destruct (merge_scaled_target_spec isNonBasic is_of_boundary_type p Hp
                (ListColumn.pivot self) val (ListColumn.cells self)
                (ListColumn.cells column) Hself Hcolumn Hred r z Hm) as (Hsort & _ & Hco).
    pose proof (merge_scaled_target_rows isNonBasic is_of_boundary_type p
                  (ListColumn.pivot self) val (ListColumn.cells self)
                  (ListColumn.cells column) Hself Hcolumn r z Hm) as Hrows.
    cbn [mbind result_bind rbind].
    assert (Hzero : (val mod p = 0)%Z ->
              forall row, row ∈ map fst (ListColumn.cells self) ->
                          row ∉ map fst (ListColumn.cells column) -> (row, 0%Z) ∈ r).
    { intros Hmult row Hin Hnin.
      assert (Hrow : row ∈ map fst r) by (apply Hrows; by left).
      apply coefficient_cell in Hrow. rewrite Hco in Hrow.
      rewrite (coefficient_absent _ _ Hnin), Z.add_0_r in Hrow.
      rewrite <- Z.mul_mod_idemp_r, Hmult, Z.mul_0_r, Z.mod_0_l in Hrow by lia. done. }
    assert (Hunits : Z.prime p -> (val mod p)%Z ≠ 0%Z ->
              Forall (fun c => (c.2 mod p)%Z ≠ 0%Z) (ListColumn.cells self) ->
              Forall (fun c => c.2 ≠ 0%Z) (ListColumn.cells column) ->
              Forall (fun c => c.2 ≠ 0%Z) r).
    { intros Hprime Hunit Hs Hc. apply Forall_forall. intros [row e] Hcell. cbn [snd].
      assert (Hrow : row ∈ map fst r).
      { apply list_elem_of_fmap. by exists (row, e). }
      rewrite <- (coefficient_of_cell r row e Hsort Hcell), Hco.
      apply Hrows in Hrow as [[Hin Hnin]|[[Hnin Hin]|(_ & _ & Hne)]]; [| |done].
      - rewrite (coefficient_absent _ _ Hnin), Z.add_0_r.
        apply coefficient_cell in Hin. rewrite Forall_forall in Hs.
        specialize (Hs _ Hin). cbn [snd] in Hs.
        intros Hdiv. apply Z.mod_divide in Hdiv; [|lia].
        apply Z.divide_prime_mul in Hdiv as [Hdiv|Hdiv]; [| |done].
        + apply Hs. apply Z.mod_divide; [lia|done].
        + apply Hunit. apply Z.mod_divide; [lia|done].
      - rewrite (coefficient_absent _ _ Hnin), Z.mul_0_l, Z.add_0_l.
        apply coefficient_cell in Hin. rewrite Forall_forall in Hc, Hred.
        specialize (Hc _ Hin). specialize (Hred _ Hin). cbn [snd] in Hc, Hred.
        rewrite Z.mod_small by done. done. }
    destruct (ListColumn.is_chain isNonBasic is_of_boundary_type && z);
      (eexists _, _; split; [reflexivity|]); cbn [ListColumn.cells];
      (split; [done|]; split; [done|]; split; [done|]; split; [done|];
       split; [intros _; exact Hrows|]; split; [intros _; exact Hzero|exact Hunits]).
Qed.

Lemma multiply_and_add_is_linear_combination_witness :
  exists self' column',
    ListColumn.multiply_target_and_add true false (ListColumn.Zp_operators 5)
      (ListColumn.mkCol [(0%nat, 2%Z); (2%nat, 1%Z)] 1 (Some 2)) 5
      (ListColumn.mkCol [(0%nat, 1%Z); (1%nat, 3%Z)] 1 (Some 1)) = Ok (self', column') /\
    StronglySorted lt (map fst (ListColumn.cells self')) /\
    (forall row,
       coefficient (ListColumn.cells self') row
       = ((coefficient [(0%nat, 2%Z); (2%nat, 1%Z)] row * 5
           + coefficient [(0%nat, 1%Z); (1%nat, 3%Z)] row) mod 5)%Z) /\
    ListColumn.cells column' = [(0%nat, 1%Z); (1%nat, 3%Z)] /\
    (5%Z = 0%Z -> ListColumn.cells self' = [(0%nat, 1%Z); (1%nat, 3%Z)]) /\
    (5%Z <> 0%Z ->
     forall row,
       row ∈ map fst (ListColumn.cells self') <->
       (row ∈ map fst [(0%nat, 2%Z); (2%nat, 1%Z)] /\
        row ∉ map fst [(0%nat, 1%Z); (1%nat, 3%Z)]) \/
       ((row ∉ map fst [(0%nat, 2%Z); (2%nat, 1%Z)]) /\
        row ∈ map fst [(0%nat, 1%Z); (1%nat, 3%Z)]) \/
       (row ∈ map fst [(0%nat, 2%Z); (2%nat, 1%Z)] /\
        row ∈ map fst [(0%nat, 1%Z); (1%nat, 3%Z)] /\
        ((coefficient [(0%nat, 2%Z); (2%nat, 1%Z)] row * 5
          + coefficient [(0%nat, 1%Z); (1%nat, 3%Z)] row) mod 5)%Z ≠ 0%Z)) /\
    (5%Z <> 0%Z -> (5 mod 5 = 0)%Z ->
     forall row,
       row ∈ map fst [(0%nat, 2%Z); (2%nat, 1%Z)] ->
       row ∉ map fst [(0%nat, 1%Z); (1%nat, 3%Z)] ->
       (row, 0%Z) ∈ ListColumn.cells self') /\
    (Z.prime 5 -> (5 mod 5)%Z ≠ 0%Z ->
     Forall (fun c => (c.2 mod 5)%Z ≠ 0%Z) [(0%nat, 2%Z); (2%nat, 1%Z)] ->
     Forall (fun c => c.2 ≠ 0%Z) [(0%nat, 1%Z); (1%nat, 3%Z)] ->
     Forall (fun c => c.2 ≠ 0%Z) (ListColumn.cells self')).
Proof.
  apply (multiply_and_add_is_linear_combination true false 5 5
           (ListColumn.mkCol [(0%nat, 2%Z); (2%nat, 1%Z)] 1 (Some 2))
           (ListColumn.mkCol [(0%nat, 1%Z); (1%nat, 3%Z)] 1 (Some 1))).
  - lia.
  - simpl. repeat constructor.
  - simpl. repeat constructor.
  - simpl. repeat (constructor; [simpl; lia|]). constructor.
  - right. lia.
Defined.

(** ** Index overlay: insertions and [remove_last] *)

Section OverlayFacts.
Import Overlay OverlayOps.
Local Open Scope Z_scope.

Lemma erase_value_unique (d : gmap Z Z) (k v : Z) :
  d !! k = Some v ->
  (forall k', d !! k' = Some v -> k' = k) ->
  erase_value d v = Ok (delete k d).
Proof.
  intros Hk Huniq. unfold erase_value.
  destruct (List.find (fun kv : Z * Z => kv.2 =? v) (map_to_list d)) as [[k' v']|] eqn:Hfind.
  - apply find_some in Hfind as [Hin Hv]. cbn [fst snd] in *.
    apply Z.eqb_eq in Hv. subst v'.
    apply list_elem_of_In, elem_of_map_to_list in Hin.
    by rewrite (Huniq k' Hin).
  - exfalso. pose proof (find_none _ _ Hfind (k, v)) as Hnone.
    cbn [snd] in Hnone. rewrite Z.eqb_refl in Hnone.
    assert (true = false); [|done]. apply Hnone.
    by apply list_elem_of_In, elem_of_map_to_list.
Qed.

Lemma erase_value_absent (d : gmap Z Z) (v : Z) :
  (forall k v', d !! k = Some v' -> v' ≠ v) ->
  erase_value d v = Undefined.
Proof.
  intros Habsent. unfold erase_value.
  destruct (List.find (fun kv : Z * Z => kv.2 =? v) (map_to_list d)) as [[k' v']|] eqn:Hfind;
    [|done].
  apply find_some in Hfind as [Hin Hv]. cbn [fst snd] in *.
  apply Z.eqb_eq in Hv. subst v'.
  apply list_elem_of_In, elem_of_map_to_list in Hin. by destruct (Habsent k' v Hin).
Qed.

(** [last_assigned] finds the largest identifier that has an index. *)
Lemma last_assigned_largest (v : list Z) :
  forall (id : nat) (x : Z),
    v !! id = Some x -> x ≠ no_index ->
    (forall j y, (id < j)%nat -> v !! j = Some y -> y = no_index) ->
    last_assigned v = Some id.
Proof.
  induction v as [|x0 v IH]; intros id x Hid Hx Habove; [done|].
  cbn [last_assigned]. destruct id as [|id].
  - rewrite last_assigned_none.
    2:{ intros j y Hj. apply (Habove (S j)); [lia|done]. }
    cbn in Hid. injection Hid as ->. by rewrite (proj2 (Z.eqb_neq _ _)).
  - rewrite (IH id x); [done|done|done|].
    intros j y Hj Hy. apply (Habove (S j)); [lia|done].
Qed.

Lemma pred_succ_index (next : Z) :
  0 <= next < 2 ^ 32 -> ((next + 1) mod 2 ^ 32 - 1) mod 2 ^ 32 = next.
Proof.
  intros Hnext. destruct (Z.eq_dec next (2 ^ 32 - 1)) as [->|Hne]; [reflexivity|].
  rewrite (Z.mod_small (next + 1)) by lia. rewrite Z.mod_small by lia. lia.
Qed.

End OverlayFacts.

(** X27: boundary matrix with a map dictionary.  [insert_boundary(faceIndex,
    ...)] with an identifier that is not in the dictionary, no identifier
    having the index [nextIndex_] yet: [_id_to_index(faceIndex)] is the former
    [nextIndex_], and a following [remove_last] gives back the dictionary and
    [nextIndex_] of before the insertion. *)
Theorem overlay_map_insert_then_remove_last
    (Matrix_type : Type)
    (matrix_insert_boundary : option Z -> list Z -> Z -> Matrix_type -> result Matrix_type)
    (matrix_remove_last : Matrix_type -> result Matrix_type)
    (matrix_pivotToColumnIndex : Matrix_type -> Overlay.dictionary)
    (debug : bool) (o : Overlay.Id_to_index_overlay Matrix_type) (d : gmap Z Z)
    (faceIndex : Z) (boundary : list Z) (dim : Z) (m m' : Matrix_type) :
  Overlay.own_idToIndex Matrix_type o = Overlay.Map d ->
  d !! faceIndex = None ->
  map_Forall (fun _ v => v <> Overlay.nextIndex_ Matrix_type o) d ->
  (0 <= Overlay.nextIndex_ Matrix_type o < 2 ^ 32)%Z ->
  matrix_insert_boundary (Some faceIndex) boundary dim (Overlay.matrix_ Matrix_type o) = Ok m ->
  matrix_remove_last m = Ok m' ->
  exists o1,
    OverlayOps.insert_boundary_with_id Matrix_type matrix_insert_boundary
      matrix_pivotToColumnIndex true true debug faceIndex boundary dim o = Ok o1 /\
    OverlayOps._id_to_index Matrix_type matrix_pivotToColumnIndex true true o1 faceIndex
      = Ok (Overlay.nextIndex_ Matrix_type o) /\
    Overlay.remove_last Matrix_type matrix_remove_last matrix_pivotToColumnIndex
      true true debug o1
      = Ok (Overlay.mkOverlay Matrix_type m' (Overlay.Map d) (Overlay.nextIndex_ Matrix_type o)).
Proof.
  intros Hown Hnew Hfresh Hnext Hinsert Hremove.
  destruct o as [m0 own next]. cbn [Overlay.own_idToIndex Overlay.nextIndex_ Overlay.matrix_] in *.
  subst own. eexists. split.
  { unfold OverlayOps.insert_boundary_with_id, OverlayOps.check_new_id, Overlay.idToIndex.
    cbn [Overlay.own_idToIndex Overlay.nextIndex_ Overlay.matrix_].
    rewrite Hnew, Hinsert. destruct debug; reflexivity. }
  unfold OverlayOps.emplace. rewrite Hnew. split.
  { unfold OverlayOps._id_to_index, Overlay.idToIndex. cbn [Overlay.own_idToIndex].
    by rewrite lookup_insert_eq. }
  unfold Overlay.remove_last, Overlay.idToIndex, Overlay.dict_empty.
  cbn [Overlay.own_idToIndex Overlay.nextIndex_ Overlay.matrix_].
  rewrite bool_decide_eq_false_2 by apply insert_non_empty.
  rewrite Hremove. cbn [mbind result_bind rbind].
  rewrite (pred_succ_index next Hnext).
  rewrite (erase_value_unique _ faceIndex next).
  - cbn [mbind result_bind rbind]. by rewrite delete_insert_id.
  - apply lookup_insert_eq.
  - intros k Hk. destruct (decide (k = faceIndex)) as [->|Hne]; [done|].
    rewrite lookup_insert_ne in Hk by done. by destruct (Hfresh k next Hk).
Qed.

Lemma overlay_map_insert_then_remove_last_witness :
  exists o1,
    OverlayOps.insert_boundary_with_id nat counting_insert_boundary
      (fun _ => Overlay.Map ∅) true true true 7 [] 0
      (Overlay.mkOverlay nat 1 (Overlay.Map {[3%Z := 0%Z]}) 1) = Ok o1 /\
    OverlayOps._id_to_index nat (fun _ => Overlay.Map ∅) true true o1 7 = Ok 1%Z /\
    Overlay.remove_last nat counting_remove_last (fun _ => Overlay.Map ∅) true true true o1
      = Ok (Overlay.mkOverlay nat 1 (Overlay.Map {[3%Z := 0%Z]}) 1).
Proof.
  apply (overlay_map_insert_then_remove_last nat counting_insert_boundary
           counting_remove_last (fun _ => Overlay.Map ∅) true
           (Overlay.mkOverlay nat 1 (Overlay.Map {[3%Z := 0%Z]}) 1) {[3%Z := 0%Z]}
           7 [] 0 2 1).
  - reflexivity.
  - vm_compute. reflexivity.
  - apply (bool_decide_unpack _). vm_compute. reflexivity.
  - cbn. lia.
  - reflexivity.
  - reflexivity.
Defined.

(** X28: boundary matrix with a map dictionary.  [insert_boundary(faceIndex,
    ...)] with an identifier that is already in the dictionary: in debug mode
    the check throws [std::invalid_argument]; otherwise the column is inserted
    and [nextIndex_] incremented, but [emplace] leaves the dictionary as it
    is, so the identifier keeps its former index and a following
    [remove_last] finds no identifier to erase and walks past the end of the
    dictionary. *)
Theorem overlay_map_insert_known_id
    (Matrix_type : Type)
    (matrix_insert_boundary : option Z -> list Z -> Z -> Matrix_type -> result Matrix_type)
    (matrix_remove_last : Matrix_type -> result Matrix_type)
    (matrix_pivotToColumnIndex : Matrix_type -> Overlay.dictionary)
    (debug : bool) (o : Overlay.Id_to_index_overlay Matrix_type) (d : gmap Z Z)
    (faceIndex i : Z) (boundary : list Z) (dim : Z) (m m' : Matrix_type) :
  Overlay.own_idToIndex Matrix_type o = Overlay.Map d ->
  d !! faceIndex = Some i ->
  map_Forall (fun _ v => v <> Overlay.nextIndex_ Matrix_type o) d ->
  (0 <= Overlay.nextIndex_ Matrix_type o < 2 ^ 32)%Z ->
  matrix_insert_boundary (Some faceIndex) boundary dim (Overlay.matrix_ Matrix_type o) = Ok m ->
  matrix_remove_last m = Ok m' ->
  if debug then
    OverlayOps.insert_boundary_with_id Matrix_type matrix_insert_boundary
      matrix_pivotToColumnIndex true true true faceIndex boundary dim o
    = Throw invalid_argument
  else
    exists o1,
      OverlayOps.insert_boundary_with_id Matrix_type matrix_insert_boundary
        matrix_pivotToColumnIndex true true false faceIndex boundary dim o = Ok o1 /\
      Overlay.own_idToIndex Matrix_type o1 = Overlay.Map d /\
      Overlay.nextIndex_ Matrix_type o1
        = ((Overlay.nextIndex_ Matrix_type o + 1) mod 2 ^ 32)%Z /\
      OverlayOps._id_to_index Matrix_type matrix_pivotToColumnIndex true true o1 faceIndex
        = Ok i /\
      Overlay.remove_last Matrix_type matrix_remove_last matrix_pivotToColumnIndex
        true true false o1 = Undefined.
Proof.
  intros Hown Hknown Hfresh Hnext Hinsert Hremove.
  destruct o as [m0 own next]. cbn [Overlay.own_idToIndex Overlay.nextIndex_ Overlay.matrix_] in *.
  subst own. destruct debug.
  { unfold OverlayOps.insert_boundary_with_id, OverlayOps.check_new_id, Overlay.idToIndex.
    cbn [Overlay.own_idToIndex]. by rewrite Hknown. }
  eexists. split.
  { unfold OverlayOps.insert_boundary_with_id, OverlayOps.check_new_id.
    cbn [Overlay.own_idToIndex Overlay.nextIndex_ Overlay.matrix_ mbind result_bind rbind].
    rewrite Hinsert. reflexivity. }
  unfold OverlayOps.emplace. rewrite Hknown.
  cbn [Overlay.own_idToIndex Overlay.nextIndex_].
  split; [done|]. split; [done|]. split.
  { unfold OverlayOps._id_to_index, Overlay.idToIndex. cbn [Overlay.own_idToIndex].
    by rewrite Hknown. }
  unfold Overlay.remove_last, Overlay.idToIndex, Overlay.dict_empty.
  cbn [Overlay.own_idToIndex Overlay.nextIndex_ Overlay.matrix_].
  rewrite bool_decide_eq_false_2.
  2:{ intros ->. by rewrite lookup_empty in Hknown. }
  rewrite Hremove. cbn [mbind result_bind rbind].
  rewrite (pred_succ_index next Hnext).
  rewrite erase_value_absent; [done|]. intros k v Hk. by apply (Hfresh k v Hk).
Qed.

Lemma overlay_map_insert_known_id_witness :
  exists o1,
    OverlayOps.insert_boundary_with_id nat counting_insert_boundary
      (fun _ => Overlay.Map ∅) true true false 3 [] 0
      (Overlay.mkOverlay nat 1 (Overlay.Map {[3%Z := 0%Z]}) 1) = Ok o1 /\
    Overlay.own_idToIndex nat o1 = Overlay.Map {[3%Z := 0%Z]} /\
    Overlay.nextIndex_ nat o1 = ((1 + 1) mod 2 ^ 32)%Z /\
    OverlayOps._id_to_index nat (fun _ => Overlay.Map ∅) true true o1 3 = Ok 0%Z /\
    Overlay.remove_last nat counting_remove_last (fun _ => Overlay.Map ∅) true true false o1
      = Undefined.
Proof.
  apply (overlay_map_insert_known_id nat counting_insert_boundary
           counting_remove_last (fun _ => Overlay.Map ∅) false
           (Overlay.mkOverlay nat 1 (Overlay.Map {[3%Z := 0%Z]}) 1) {[3%Z := 0%Z]}
           3 0 [] 0 2 1).
  - reflexivity.
  - vm_compute. reflexivity.
  - apply (bool_decide_unpack _). vm_compute. reflexivity.
  - cbn. lia.
  - reflexivity.
  - reflexivity.
Defined.

(** X29: boundary matrix with a vector dictionary.  [remove_last] resets the
    entry of the largest identifier that has an index, whichever face was
    inserted last; it is the debug check alone, when the index of that
    identifier is not the last one, that throws [std::logic_error]. *)
Theorem overlay_vector_remove_last_clears_largest_id
    (Matrix_type : Type)
    (matrix_remove_last : Matrix_type -> result Matrix_type)
    (matrix_pivotToColumnIndex : Matrix_type -> Overlay.dictionary)
    (debug : bool) (o : Overlay.Id_to_index_overlay Matrix_type) (v : list Z)
    (id : nat) (x : Z) (m' : Matrix_type) :
  Overlay.own_idToIndex Matrix_type o = Overlay.Vec v ->
  v !! id = Some x ->
  x <> Overlay.no_index ->
  Forall (fun y => y = Overlay.no_index) (drop (S id) v) ->
  matrix_remove_last (Overlay.matrix_ Matrix_type o) = Ok m' ->
  Overlay.remove_last Matrix_type matrix_remove_last matrix_pivotToColumnIndex
    true false debug o
  = if debug && negb (x =? (Overlay.nextIndex_ Matrix_type o - 1) mod 2 ^ 32)%Z
    then Throw logic_error
    else Ok (Overlay.mkOverlay Matrix_type m' (Overlay.Vec (<[id := Overlay.no_index]> v))
               ((Overlay.nextIndex_ Matrix_type o - 1) mod 2 ^ 32)%Z).
Proof.
  intros Hown Hid Hx Habove Hremove.
  destruct o as [m0 own next]. cbn [Overlay.own_idToIndex Overlay.nextIndex_ Overlay.matrix_] in *.
  subst own.
  unfold Overlay.remove_last, Overlay.idToIndex, Overlay.dict_empty.
  cbn [Overlay.own_idToIndex Overlay.nextIndex_ Overlay.matrix_].
  rewrite bool_decide_eq_false_2 by (intros ->; done).
  rewrite Hremove. cbn [mbind result_bind rbind].
  unfold Overlay.erase_last_assigned.
  rewrite (last_assigned_largest v id x Hid Hx).
  2:{ intros j y Hj Hy. rewrite Forall_forall in Habove. apply Habove.
      apply list_elem_of_lookup. exists (j - S id)%nat. rewrite lookup_drop.
      by replace (S id + (j - S id))%nat with j by lia. }
  rewrite Hid. destruct debug; [|reflexivity]. cbn [andb].
  destruct (Z.eqb_spec x ((next - 1) mod 2 ^ 32)) as [->|Hne]; cbn [negb].
  - by rewrite bool_decide_eq_true_2.
  - rewrite bool_decide_eq_false_2 by congruence. reflexivity.
Qed.

Lemma overlay_vector_remove_last_clears_largest_id_witness :
  Overlay.remove_last nat counting_remove_last (fun _ => Overlay.Vec []) true false false
    (Overlay.mkOverlay nat 2 (Overlay.Vec [1; 0]%Z) 2)
  = if false && negb (0 =? (2 - 1) mod 2 ^ 32)%Z
    then Throw logic_error
    else Ok (Overlay.mkOverlay nat 1 (Overlay.Vec (<[1%nat := Overlay.no_index]> [1; 0]%Z))
               ((2 - 1) mod 2 ^ 32)%Z).
Proof.
  apply (overlay_vector_remove_last_clears_largest_id nat counting_remove_last
           (fun _ => Overlay.Vec []) false
           (Overlay.mkOverlay nat 2 (Overlay.Vec [1; 0]%Z) 2) [1; 0]%Z 1%nat 0%Z 1%nat).
  - reflexivity.
  - reflexivity.
  - vm_compute. discriminate.
  - simpl. constructor.
  - reflexivity.
Defined.

(** X30: boundary matrix with a vector dictionary, without the debug checks.
    [insert_boundary(faceIndex, ...)] with an identifier above all those that
    have an index: [_id_to_index(faceIndex)] is the former [nextIndex_], and a
    following [remove_last] resets the entry of [faceIndex]; the dictionary
    keeps the entries the insertion appended, all without index, and
    [nextIndex_] is the one of before the insertion. *)
Theorem overlay_vector_insert_then_remove_last
    (Matrix_type : Type)
    (matrix_insert_boundary : option Z -> list Z -> Z -> Matrix_type -> result Matrix_type)
    (matrix_remove_last : Matrix_type -> result Matrix_type)
    (matrix_pivotToColumnIndex : Matrix_type -> Overlay.dictionary)
    (o : Overlay.Id_to_index_overlay Matrix_type) (v : list Z)
    (faceIndex : Z) (boundary : list Z) (dim : Z) (m m' : Matrix_type) :
  Overlay.own_idToIndex Matrix_type o = Overlay.Vec v ->
  (0 <= faceIndex < 2 ^ 32 - 1)%Z ->
  (0 <= Overlay.nextIndex_ Matrix_type o < 2 ^ 32 - 1)%Z ->
  Forall (fun y => y = Overlay.no_index) (drop (S (Z.to_nat faceIndex)) v) ->
  matrix_insert_boundary (Some faceIndex) boundary dim (Overlay.matrix_ Matrix_type o) = Ok m ->
  matrix_remove_last m = Ok m' ->
  exists o1,
    OverlayOps.insert_boundary_with_id Matrix_type matrix_insert_boundary
      matrix_pivotToColumnIndex true false false faceIndex boundary dim o = Ok o1 /\
    OverlayOps._id_to_index Matrix_type matrix_pivotToColumnIndex true false o1 faceIndex
      = Ok (Overlay.nextIndex_ Matrix_type o) /\
    Overlay.remove_last Matrix_type matrix_remove_last matrix_pivotToColumnIndex
      true false false o1
      = Ok (Overlay.mkOverlay Matrix_type m'
              (Overlay.Vec (<[Z.to_nat faceIndex := Overlay.no_index]>
                 (v ++ replicate (Z.to_nat faceIndex + 1 - length v) Overlay.no_index)))
              (Overlay.nextIndex_ Matrix_type o)).
Proof.
  intros Hown Hface Hnext Habove Hinsert Hremove.
  destruct o as [m0 own next]. cbn [Overlay.own_idToIndex Overlay.nextIndex_ Overlay.matrix_] in *.
  subst own. set (f := Z.to_nat faceIndex) in *.
  set (v1 := v ++ replicate (f + 1 - length v) Overlay.no_index).
  assert (Hlen : (f < length v1)%nat).
  { subst v1. rewrite length_app, length_replicate. lia. }
  assert (Hresized :
            (if (Z.of_nat (length v) <=? faceIndex)%Z
             then OverlayOps.resize v (Z.to_nat ((faceIndex + 1) mod 2 ^ 32))
             else v) = v1).
  { subst v1. destruct (Z.leb_spec (Z.of_nat (length v)) faceIndex) as [Hle|Hgt].
    - rewrite Z.mod_small by lia. unfold OverlayOps.resize.
      replace (Z.to_nat (faceIndex + 1)) with (f + 1)%nat by lia.
      by rewrite take_ge by lia.
    - replace (f + 1 - length v)%nat with 0%nat by lia. cbn [replicate].
      by rewrite app_nil_r. }
  eexists. split.
  { unfold OverlayOps.insert_boundary_with_id, OverlayOps.check_new_id.
    cbn [Overlay.own_idToIndex Overlay.nextIndex_ Overlay.matrix_ mbind result_bind rbind].
    rewrite Hinsert. cbn [mbind result_bind rbind]. rewrite Hresized.
    rewrite (proj2 (Z.leb_le 0 faceIndex)) by lia.
    rewrite (proj2 (Z.ltb_lt faceIndex (Z.of_nat (length v1)))) by lia.
    reflexivity. }
  fold f. split.
  { unfold OverlayOps._id_to_index, Overlay.idToIndex. cbn [Overlay.own_idToIndex].
    rewrite (proj2 (Z.ltb_ge _ _)) by lia. fold f.
    by rewrite list_lookup_insert_eq. }
  unfold Overlay.remove_last, Overlay.idToIndex, Overlay.dict_empty.
  cbn [Overlay.own_idToIndex Overlay.nextIndex_ Overlay.matrix_].
  rewrite bool_decide_eq_false_2.
  2:{ intros Hnil. apply (f_equal length) in Hnil. rewrite length_insert in Hnil.
      cbn in Hnil. lia. }
  rewrite Hremove. cbn [mbind result_bind rbind].
  rewrite (pred_succ_index next) by lia.
  unfold Overlay.erase_last_assigned.
  rewrite (last_assigned_largest _ f next).
  - cbn [andb mbind result_bind rbind]. by rewrite list_insert_insert_eq.
  - by apply list_lookup_insert_eq.
  - unfold Overlay.no_index. lia.
  - intros j y Hj Hy. rewrite list_lookup_insert_ne in Hy by lia.
    subst v1. apply lookup_app_Some in Hy as [Hy|[_ Hy]].
    + rewrite Forall_forall in Habove. apply Habove.
      apply list_elem_of_lookup. exists (j - S f)%nat. rewrite lookup_drop.
      by replace (S f + (j - S f))%nat with j by lia.
    + by apply lookup_replicate in Hy as [-> _].
Qed.

Lemma overlay_vector_insert_then_remove_last_witness :
  exists o1,
    OverlayOps.insert_boundary_with_id nat counting_insert_boundary
      (fun _ => Overlay.Vec []) true false false 3 [] 0
      (Overlay.mkOverlay nat 1 (Overlay.Vec [0%Z]) 1) = Ok o1 /\
    OverlayOps._id_to_index nat (fun _ => Overlay.Vec []) true false o1 3 = Ok 1%Z /\
    Overlay.remove_last nat counting_remove_last (fun _ => Overlay.Vec []) true false false o1
      = Ok (Overlay.mkOverlay nat 1
              (Overlay.Vec (<[Z.to_nat 3 := Overlay.no_index]>
                 ([0%Z] ++ replicate (Z.to_nat 3 + 1 - length [0%Z]) Overlay.no_index)))
              1).
Proof.
  apply (overlay_vector_insert_then_remove_last nat counting_insert_boundary
           counting_remove_last (fun _ => Overlay.Vec [])
           (Overlay.mkOverlay nat 1 (Overlay.Vec [0%Z]) 1) [0%Z] 3 [] 0 2 1).
  - reflexivity.
  - lia.
  - cbn. lia.
  - simpl. constructor.
  - reflexivity.
  - reflexivity.
Defined.
